(** * typesafe_config: a shallow embedding of the configuration loader

    The development follows [src/typesafe_config/typesafe_config.py] (the
    current loader) and [typesave_config.py] (the older loader kept in the
    repository, found in [Module Legacy]).

    Modelling conventions.
    - A Python [str] is a [string] of one-byte characters.  The model is
      exact on ASCII text ([is_ascii]): there [str.lower], [str.upper],
      [len] and slicing are [lower], [upper], [String.length] and [drop].
      Outside ASCII the case mappings and the lengths of Python differ from
      the ones here, so the statements that depend on them are made for
      ASCII prefixes and field names.
    - A Python [dict] with string keys is an association list that keeps the
      insertion order, as Python dictionaries do; [dict_wf] says that keys are
      not repeated.  Fragments are trees: two positions of one fragment never
      hold the same mutable object.  Every key that TOML, JSON, the command
      line and the environment produce is a string; a mapping with a key of
      another type, which only the caller's [data] could hold, is outside
      the model.
    - A float is the bit pattern of an IEEE-754 binary64 number; the builtin
      parsers [int] and [float] are parameters of the functions using them.
    - Exceptions are explicit: a function that may raise returns a [result].
    - Recursion over the class graph is bounded by a recursion limit, as the
      interpreter bounds it; exhausting the limit is the [RecursionError]. *)

From Stdlib Require Import List String Ascii Bool Arith ZArith Lia.
From Stdlib Require Import Sorting.Sorted Sorting.Permutation.
Import ListNotations.

Open Scope string_scope.
Open Scope list_scope.

Set Implicit Arguments.

(* ------------------------------------------------------------------ *)
(** ** Exceptions and results *)

Inductive exn : Type :=
| AttributeError
| ValueError
| TypeError
| OSError
| TOMLDecodeError
| JSONDecodeError
| ValidationError
| RecursionError
| IndexError.

Inductive result (A : Type) : Type :=
| Ok (a : A)
| Raise (e : exn).

Arguments Ok {A} a.
Arguments Raise {A} e.

Definition bind {A B : Type} (r : result A) (k : A -> result B) : result B :=
  match r with
  | Ok a => k a
  | Raise e => Raise e
  end.

Notation "x <- r ;; k" := (bind r (fun x => k))
  (at level 61, r at next level, right associativity).

Definition raises {A : Type} (r : result A) : Prop :=
  exists e, r = Raise e.

(* ------------------------------------------------------------------ *)
(** ** Strings *)

Definition lower_ascii (c : ascii) : ascii :=
  let n := nat_of_ascii c in
  if Nat.leb 65 n && Nat.leb n 90 then ascii_of_nat (n + 32) else c.

Definition upper_ascii (c : ascii) : ascii :=
  let n := nat_of_ascii c in
  if Nat.leb 97 n && Nat.leb n 122 then ascii_of_nat (n - 32) else c.

Fixpoint smap (f : ascii -> ascii) (s : string) : string :=
  match s with
  | EmptyString => EmptyString
  | String c s' => String (f c) (smap f s')
  end.

(** [s.lower()] and [s.upper()], for ASCII text *)
Definition lower (s : string) : string := smap lower_ascii s.
Definition upper (s : string) : string := smap upper_ascii s.

(** Text on which the model of strings is exact. *)
Fixpoint is_ascii (s : string) : bool :=
  match s with
  | EmptyString => true
  | String c s' => Nat.ltb (nat_of_ascii c) 128 && is_ascii s'
  end.

(** [s[n:]] *)
Fixpoint drop (n : nat) (s : string) : string :=
  match n, s with
  | O, _ => s
  | S _, EmptyString => EmptyString
  | S n', String _ s' => drop n' s'
  end.

(** [s.startswith(p)] *)
Definition startswith (p s : string) : bool := String.prefix p s.

(** [sub in s] for strings *)
Fixpoint contains (sub s : string) : bool :=
  match s with
  | EmptyString => String.prefix sub EmptyString
  | String _ s' => String.prefix sub s || contains sub s'
  end.

(** [s.endswith(c)] for a single character *)
Fixpoint ends_with (c : ascii) (s : string) : bool :=
  match s with
  | EmptyString => false
  | String a EmptyString => Ascii.eqb a c
  | String _ s' => ends_with c s'
  end.

(** [str.split(sep)] for a non-empty separator: the occurrences of [sep] are
    found from the left and do not overlap.  [skip] counts the characters of
    a separator that was just recognised and still have to be passed over;
    [cur] is the piece being collected. *)
Fixpoint split_go (sep : string) (skip : nat) (cur : string) (s : string)
  : list string :=
  match s with
  | EmptyString => [cur]
  | String c s' =>
      match skip with
      | S k => split_go sep k cur s'
      | O =>
          if String.prefix sep s
          then cur :: split_go sep (String.length sep - 1) EmptyString s'
          else split_go sep 0 (cur ++ String c EmptyString) s'
      end
  end.

(** [s.split(sep)]; an empty separator raises [ValueError]. *)
Definition split (sep s : string) : result (list string) :=
  match sep with
  | EmptyString => Raise ValueError
  | _ => Ok (split_go sep 0 EmptyString s)
  end.

(** [s.replace(old, "")] for a non-empty [old] *)
Definition remove_all (old s : string) : string :=
  match old with
  | EmptyString => s
  | _ => String.concat EmptyString (split_go old 0 EmptyString s)
  end.

(* ------------------------------------------------------------------ *)
(** ** Values and dictionaries *)

#[warnings="-register-all"] Inductive value : Type :=
| VNone
| VBool (b : bool)
| VInt (z : Z)
| VFloat (bits : Z)
| VStr (s : string)
| VList (l : list value)
| VDict (d : list (string * value)).

Definition dict : Type := list (string * value).

Definition is_dict (v : value) : bool :=
  match v with
  | VDict _ => true
  | _ => false
  end.

Section Assoc.
Variable A : Type.

(** [d.get(k)] *)
Fixpoint aget (k : string) (d : list (string * A)) : option A :=
  match d with
  | [] => None
  | (k', v) :: d' => if String.eqb k k' then Some v else aget k d'
  end.

(** [d[k] = v]: an existing key keeps its place, a new key goes last. *)
Fixpoint aset (k : string) (v : A) (d : list (string * A))
  : list (string * A) :=
  match d with
  | [] => [(k, v)]
  | (k', v') :: d' =>
      if String.eqb k k' then (k', v) :: d' else (k', v') :: aset k v d'
  end.
End Assoc.

Definition dget : string -> dict -> option value := @aget value.
Definition dset : string -> value -> dict -> dict := @aset value.

(** Keys are not repeated, at every level. *)
Fixpoint nodupb (l : list string) : bool :=
  match l with
  | [] => true
  | k :: l' => negb (existsb (String.eqb k) l') && nodupb l'
  end.

Fixpoint value_wf (v : value) : bool :=
  match v with
  | VList l => forallb value_wf l
  | VDict d =>
      nodupb (map fst d) && forallb (fun kv => value_wf (snd kv)) d
  | _ => true
  end.

Definition dict_wf (d : dict) : bool := value_wf (VDict d).


(** The value found by following a path of keys through nested mappings. *)
Fixpoint lookup_path (p : list string) (d : dict) : option value :=
  match p with
  | [] => None
  | [k] => dget k d
  | k :: rest =>
      match dget k d with
      | Some (VDict d') => lookup_path rest d'
      | _ => None
      end
  end.

(** The nested mapping [{p0: {p1: ... {pn: v}}}]. *)
Fixpoint nest (p : list string) (v : value) : dict :=
  match p with
  | [] => []
  | [k] => [(k, v)]
  | k :: rest => [(k, VDict (nest rest v))]
  end.

(* ------------------------------------------------------------------ *)
(** ** KeyPathCodec: [_add_fullname_as_nested_dict] *)

(** The loop over [enumerate(parts)]: the last part receives the value, every
    other part is made a dictionary (a fresh one unless it already is one)
    and the walk continues inside it. *)
Fixpoint add_parts (current_level : dict) (parts : list string) (v : value)
  : dict :=
  match parts with
  | [] => current_level
  | [part] => dset part v current_level
  | part :: rest =>
      let inner :=
        match dget part current_level with
        | Some (VDict d) => d
        | _ => []
        end in
      dset part (VDict (add_parts inner rest v)) current_level
  end.

Definition _add_fullname_as_nested_dict
    (target_dict : dict) (full_name : string) (v : value)
    (field_seperator : string) : result dict :=
  parts <- split field_seperator full_name ;;
  Ok (add_parts target_dict parts v).

(** The separator fixed by [load] and by [_get_attr_metadata]. *)
Definition field_seperator : string := "__".

(** [f_fullname] of [_get_attr_metadata]. *)
Definition f_fullname (_path f_name : string) : string :=
  match _path with
  | EmptyString => f_name
  | _ => _path ++ field_seperator ++ f_name
  end.

(** The full name reached by descending along the segments of a path. *)
Definition flatten (p : list string) : string :=
  fold_left f_fullname p EmptyString.

(* ------------------------------------------------------------------ *)
(** ** MergeEngine: [_deep_merge] *)

(** [_deep_merge(dict1, dict2)], by recursion on the structure of [dict2]:
    the items of [dict2] are visited in order; where both sides hold a
    dictionary the two are merged, otherwise the item of [dict2] is stored. *)
Fixpoint merge_into (dict1 : dict) (v2 : value) {struct v2} : dict :=
  match v2 with
  | VDict dict2 =>
      (fix items (dict1 : dict) (l : list (string * value)) {struct l} : dict :=
         match l with
         | [] => dict1
         | (key, v) :: l' =>
             let dict1' :=
               match dget key dict1, v with
               | Some (VDict d1k), VDict _ =>
                   dset key (VDict (merge_into d1k v)) dict1
               | _, _ => dset key v dict1
               end in
             items dict1' l'
         end) dict1 dict2
  | _ => dict1
  end.

Definition _deep_merge (dict1 dict2 : dict) : dict :=
  merge_into dict1 (VDict dict2).

(** What one item of the second mapping does to the first. *)
Definition merge_item (dict1 : dict) (key : string) (v : value) : dict :=
  match dget key dict1, v with
  | Some (VDict d1k), VDict d2k => dset key (VDict (_deep_merge d1k d2k)) dict1
  | _, _ => dset key v dict1
  end.

(** The value the merge leaves under a key of the second mapping. *)
Definition merged_value (old : option value) (v : value) : value :=
  match old, v with
  | Some (VDict d1k), VDict d2k => VDict (_deep_merge d1k d2k)
  | _, _ => v
  end.

(** [dict2.items()] on an argument that may be [None] or any other object:
    only a dictionary has the method. *)
Definition _deep_merge_obj (dict1 : dict) (dict2 : value) : result dict :=
  match dict2 with
  | VDict d2 => Ok (_deep_merge dict1 d2)
  | _ => Raise AttributeError
  end.

(** A fragment leaves a path alone when it binds neither the path nor a
    strict prefix of it. *)
Fixpoint untouched (p : list string) (d : dict) : bool :=
  match p with
  | [] => true
  | k :: rest =>
      match dget k d with
      | None => true
      | Some (VDict d') =>
          match rest with
          | [] => false
          | _ => untouched rest d'
          end
      | Some _ => false
      end
  end.

(* ------------------------------------------------------------------ *)
(** ** Schemas *)

(** What [info.annotation] can be.  A class is known by its name; [qual]
    is the text that [str()] shows for it between the quotes: the name alone
    for a class of [builtins], the module and the qualified name otherwise.
    The aliases [list[...]] and [dict[...]] of the builtin classes pass for
    classes ([issubclass] answers for them); the constructs of [typing] do
    not. *)
#[warnings="-register-all"] Inductive annotation : Type :=
| AClass (qual name : string)
    (* a class that is no model: str, int, datetime.date *)
| AModel (qual name : string)
    (* a pydantic model class *)
| AList (arg : option annotation)
    (* list[arg]; no argument for list[()] *)
| ADict (repr : string)
    (* dict[...], with its str() *)
| AAlias (name repr : string)
    (* an alias of another class, tuple[int, ...] or set[str], with the name
       of that class and its str() *)
| ATypingList (arg : option annotation)
    (* typing.List[arg]; typing.List alone has no argument *)
| ATypingDict (repr : string)
    (* typing.Dict[...] or typing.Dict, with its str() *)
| AOther (name : option string) (repr : string).
    (* any other construct of typing, a union or Optional[...] or
       Literal[...], with its __name__ if it has one and its str() *)

(** [info.default] is [None] here for a required field, which holds the
    library's marker of an undefined default. *)
Record FieldInfo : Type := mkFieldInfo {
  fi_annotation : annotation;
  fi_description : option string;
  fi_default : option value
}.

(** The classes of a program: the name of every model with its
    [model_fields], in declaration order. *)
Definition schema : Type := list (string * list (string * FieldInfo)).

(** [model.model_fields]; a name the table does not list is a model without
    fields. *)
Definition model_fields (env : schema) (model : string)
  : list (string * FieldInfo) :=
  match aget model env with
  | Some fs => fs
  | None => []
  end.

(** [sorted(model.model_fields.items())]: by field name. *)
Fixpoint insert_item (x : string * FieldInfo) (l : list (string * FieldInfo))
  : list (string * FieldInfo) :=
  match l with
  | [] => [x]
  | y :: l' =>
      if String.leb (fst x) (fst y) then x :: l else y :: insert_item x l'
  end.

Definition sorted (l : list (string * FieldInfo)) : list (string * FieldInfo) :=
  fold_right insert_item [] l.

(** [t.__name__], where the attribute exists; an alias answers with the
    name of its origin, [typing.List] with its own. *)
Definition dunder_name (t : annotation) : option string :=
  match t with
  | AClass _ n => Some n
  | AModel _ n => Some n
  | AList _ => Some "list"
  | ADict _ => Some "dict"
  | AAlias n _ => Some n
  | ATypingList _ => Some "List"
  | ATypingDict _ => Some "Dict"
  | AOther n _ => n
  end.

(** [str(t)]; inside the brackets of an alias a class is shown by its
    qualified name and anything else by its own [str()]. *)
Fixpoint str_annotation (t : annotation) : string :=
  match t with
  | AClass q _ => "<class '" ++ q ++ "'>"
  | AModel q _ => "<class '" ++ q ++ "'>"
  | AList None => "list[()]"
  | AList (Some a) =>
      "list[" ++ match a with
                 | AClass q _ => q
                 | AModel q _ => q
                 | _ => str_annotation a
                 end ++ "]"
  | ADict r => r
  | AAlias _ r => r
  | ATypingList None => "typing.List"
  | ATypingList (Some a) =>
      "typing.List[" ++ match a with
                        | AClass q _ => q
                        | AModel q _ => q
                        | _ => str_annotation a
                        end ++ "]"
  | ATypingDict r => r
  | AOther _ r => r
  end.

(** [str(x)] for an optional description *)
Definition str_option (o : option string) : string :=
  match o with
  | Some s => s
  | None => "None"
  end.

(** [hasattr(t, "model_fields")] *)
Definition has_model_fields (t : annotation) : option string :=
  match t with
  | AModel _ n => Some n
  | _ => None
  end.

(** [get_origin(t) is list and get_args(t)], giving the first argument *)
Definition list_arg (t : annotation) : option annotation :=
  match t with
  | AList (Some a) => Some a
  | ATypingList (Some a) => Some a
  | _ => None
  end.

Definition origin_is_list (t : annotation) : bool :=
  match t with
  | AList _ => true
  | ATypingList _ => true
  | _ => false
  end.

Definition origin_is_dict (t : annotation) : bool :=
  match t with
  | ADict _ => true
  | ATypingDict _ => true
  | _ => false
  end.

Record ConfigAttrMetadata : Type := mkMeta {
  model : string;
  name : string;
  fullname : string;
  type : string;
  raw_type : annotation;
  description : string;
  default : option value
}.

(** The type name shown for a field (the three branches of the source). *)
Definition type_name (f_type : annotation) : string :=
  match dunder_name f_type with
  | Some n => n
  | None =>
      if origin_is_list f_type then
        match list_arg f_type with
        | Some list_type =>
            match dunder_name list_type with
            | Some n => "list[" ++ n ++ "]"
            | None => "list[" ++ str_annotation list_type ++ "]"
            end
        | None => "list"
        end
      else remove_all "'>" (remove_all "<class '" (str_annotation f_type))
  end.

Definition metadata_of (model_name _path : string)
    (item : string * FieldInfo) : ConfigAttrMetadata :=
  let (f_name, info) := item in
  let f_type := fi_annotation info in
  {| model := model_name;
     name := f_name;
     fullname := f_fullname _path f_name;
     type := type_name f_type;
     raw_type := f_type;
     description := str_option (fi_description info) ++ " " ++ str_annotation f_type;
     default := fi_default info |}.

(* ------------------------------------------------------------------ *)
(** ** SchemaWalker: [_get_attr_metadata] *)

(** A loop whose body may raise. *)
Fixpoint for_each (A S : Type) (body : S -> A -> result S) (l : list A) (s : S)
  : result S :=
  match l with
  | [] => Ok s
  | a :: l' => s' <- body s a ;; for_each body l' s'
  end.

(** The body of the loop of [_get_attr_metadata]; [rec] is the recursive
    call.  [f] is the list built so far. *)
Definition walk_item
    (rec : string -> string -> result (list ConfigAttrMetadata))
    (model_name _path : string)
    (f : list ConfigAttrMetadata) (item : string * FieldInfo)
  : result (list ConfigAttrMetadata) :=
  let m := metadata_of model_name _path item in
  let f_type := raw_type m in
  let f := f ++ [m] in
  f <- match has_model_fields f_type with
       | Some sub => more <- rec sub (fullname m) ;; Ok (f ++ more)
       | None => Ok f
       end ;;
  match list_arg f_type with
  | Some list_type =>
      match has_model_fields list_type with
      | Some sub =>
          if negb (String.eqb sub model_name)
          then more <- rec sub (fullname m) ;; Ok (f ++ more)
          else Ok f
      | None => Ok f
      end
  | None => Ok f
  end.

Fixpoint _get_attr_metadata (limit : nat) (env : schema)
    (model_name _path : string) : result (list ConfigAttrMetadata) :=
  match limit with
  | O => Raise RecursionError
  | S limit' =>
      for_each (walk_item (_get_attr_metadata limit' env) model_name _path)
               (sorted (model_fields env model_name)) []
  end.

Definition get_metadata (limit : nat) (env : schema) (cls : string)
  : result (list ConfigAttrMetadata) :=
  _get_attr_metadata limit env cls EmptyString.

(** [issubclass(t, BaseModel)]: true of the model classes, false of the
    other classes and of the aliases of builtin classes (the subclass check
    of [type] answers for [list[int]] as for [list]); on a construct of
    [typing], which is no class, the call raises [TypeError]. *)
Definition issubclass_BaseModel (t : annotation) : result bool :=
  match t with
  | AModel _ _ => Ok true
  | AClass _ _ | AList _ | ADict _ | AAlias _ _ => Ok false
  | ATypingList _ | ATypingDict _ | AOther _ _ => Raise TypeError
  end.

(** The test of [_get_possible_cli_argsname]; the subclass check comes
    first. *)
Definition cli_eligible (m : ConfigAttrMetadata) : result bool :=
  let t := raw_type m in
  is_model <- issubclass_BaseModel t ;;
  Ok (negb (is_model || (origin_is_list t || origin_is_dict t))).

(** The body of its loop; [r] is the list built so far. *)
Definition possible_step (r : list string) (m : ConfigAttrMetadata)
  : result (list string) :=
  ok <- cli_eligible m ;;
  Ok (if ok then r ++ [fullname m] else r).

Definition _get_possible_cli_argsname (limit : nat) (env : schema)
    (cls : string) : result (list string) :=
  ms <- get_metadata limit env cls ;;
  for_each possible_step ms [].

(* ------------------------------------------------------------------ *)
(** ** ImmutabilityEnforcer: [_set_frozen] *)

(** The [model_config] attribute of every class that has one set. *)
Definition class_state : Type := list (string * dict).

Definition frozen_config : dict := [("frozen", VBool true)].

Definition freeze_item
    (rec : string -> class_state -> result class_state)
    (model_name : string)
    (st : class_state) (item : string * FieldInfo) : result class_state :=
  let f_type := fi_annotation (snd item) in
  st <- match has_model_fields f_type with
        | Some sub => rec sub st
        | None => Ok st
        end ;;
  match list_arg f_type with
  | Some list_type =>
      match has_model_fields list_type with
      | Some sub =>
          if negb (String.eqb sub model_name) then rec sub st else Ok st
      | None => Ok st
      end
  | None => Ok st
  end.

Fixpoint _set_frozen (limit : nat) (env : schema) (model_name : string)
    (st : class_state) : result class_state :=
  match limit with
  | O => Raise RecursionError
  | S limit' =>
      st' <- for_each (freeze_item (_set_frozen limit' env) model_name)
                      (sorted (model_fields env model_name)) st ;;
      Ok (aset model_name frozen_config st')
  end.

(** [model_config.get("frozen")] of a class *)
Definition is_frozen (st : class_state) (cls : string) : bool :=
  match aget cls st with
  | Some cfg =>
      match dget "frozen" cfg with
      | Some (VBool true) => true
      | _ => false
      end
  | None => false
  end.

(** Objects built by the validator. *)
#[warnings="-register-all"] Inductive pyobj : Type :=
| PVal (v : value)
| PModel (cls : string) (attrs : list (string * pyobj))
| PList (items : list pyobj).

(** The immutability error: the validation error of kind
    [frozen_instance]. *)
Inductive assign_outcome : Type :=
| Assigned (o : pyobj)
| FrozenInstanceError
| NotAModel.

(** Modelled from the spec: attribute assignment on a model instance belongs
    to the validation library, which is not part of the sources.  Following
    the contract of section 4.6 and the docstring of [_set_frozen], an
    assignment on an instance of a class whose [model_config] says frozen
    fails with the immutability error; otherwise the attribute is stored.
    The decision is read from the mark of the class at the time of the
    assignment; what the source itself does is to set that mark, and the
    theorems on frozen loads state the mark ([is_frozen]) beside the
    outcome of the assignment. *)
Definition setattr (st : class_state) (o : pyobj) (attr : string) (v : pyobj)
  : assign_outcome :=
  match o with
  | PModel cls attrs =>
      if is_frozen st cls then FrozenInstanceError
      else Assigned (PModel cls (aset attr v attrs))
  | _ => NotAModel
  end.

(** One class refers to another through a field that [_set_frozen] follows:
    a field typed by a model, or by a list of models. *)
Definition field_target (t : annotation) : option string :=
  match has_model_fields t with
  | Some sub => Some sub
  | None =>
      match list_arg t with
      | Some list_type => has_model_fields list_type
      | None => None
      end
  end.

Definition refers (env : schema) (c d : string) : Prop :=
  exists f info,
    In (f, info) (model_fields env c) /\
    field_target (fi_annotation info) = Some d.

(** The classes of nested objects and of list elements, at any depth. *)
Inductive nested_class (env : schema) : string -> string -> Prop :=
| nested_here : forall c, nested_class env c c
| nested_step : forall c d e,
    refers env c d -> nested_class env d e -> nested_class env c e.

(* ------------------------------------------------------------------ *)
(** ** SourceLoaders *)

(** What the loader meets at a path: a path that cannot be examined
    ([Path.exists] itself raises an [OSError], as it does when a directory
    on the way may not be searched), no file, a file that cannot be opened
    ([open] raises an [OSError]), a file the decoder rejects, or a file that
    decodes. *)
Inductive file_state (A : Type) : Type :=
| Inaccessible
| Absent
| Unreadable
| Malformed
| Decodes (a : A).

Arguments Inaccessible {A}.
Arguments Absent {A}.
Arguments Unreadable {A}.
Arguments Malformed {A}.
Arguments Decodes {A} a.

(** [_load_toml]: the test [exists()] stands before the [try]; inside it
    only a [ValidationError] is caught, which neither [open] nor
    [tomllib.load] raises.  [TOMLDecodeError] stands for whatever the
    decoder raises on the file, [JSONDecodeError] below likewise. *)
Fixpoint load_toml_loop (fs : string -> file_state dict)
    (filenames : list string) (toml_config : dict) : result dict :=
  match filenames with
  | [] => Ok toml_config
  | toml_file :: rest =>
      match fs toml_file with
      | Inaccessible => Raise OSError
      | Absent => load_toml_loop fs rest toml_config
      | Unreadable => Raise OSError
      | Malformed => Raise TOMLDecodeError
      | Decodes d => load_toml_loop fs rest d
      end
  end.

Definition _load_toml (fs : string -> file_state dict)
    (filenames : list string) : result dict :=
  load_toml_loop fs filenames [].

(** [_load_json]: an [OSError] of [open] is caught and the file skipped. *)
Fixpoint load_json_loop (fs : string -> file_state value)
    (filenames : list string) (json_config : value) : result value :=
  match filenames with
  | [] => Ok json_config
  | json_file :: rest =>
      match fs json_file with
      | Inaccessible => Raise OSError
      | Absent => load_json_loop fs rest json_config
      | Unreadable => load_json_loop fs rest json_config
      | Malformed => Raise JSONDecodeError
      | Decodes v => load_json_loop fs rest v
      end
  end.

Definition _load_json (fs : string -> file_state value)
    (filenames : list string) : result value :=
  load_json_loop fs filenames (VDict []).

Definition newline : ascii := "010"%char.

(** The part of [s] before its first ["="] and the part after it. *)
Fixpoint cut_at_equal (s : string) : option (string * string) :=
  match s with
  | EmptyString => None
  | String c s' =>
      if Ascii.eqb c "="%char then Some (EmptyString, s')
      else match cut_at_equal s' with
           | Some (k, v) => Some (String c k, v)
           | None => None
           end
  end.

(** [(.+)$]: one or more characters other than a newline, up to the end of
    the string or to a newline that ends it. *)
Fixpoint value_group (s : string) : option string :=
  match s with
  | EmptyString => None
  | String c s' =>
      if Ascii.eqb c newline then None
      else match s' with
           | EmptyString => Some (String c EmptyString)
           | String c' EmptyString =>
               if Ascii.eqb c' newline then Some (String c EmptyString)
               else Some (String c (String c' EmptyString))
           | _ =>
               match value_group s' with
               | Some v => Some (String c v)
               | None => None
               end
           end
  end.

(** [re.match(r"^(--[^=]+)=(.+)$", arg)], giving the two groups. *)
Definition match_equal (arg : string) : option (string * string) :=
  if startswith "--" arg then
    match cut_at_equal (drop 2 arg) with
    | Some (EmptyString, _) => None
    | Some (k, rest) =>
        match value_group rest with
        | Some v => Some (("--" ++ k)%string, v)
        | None => None
        end
    | None => None
    end
  else None.

Record cli_run : Type := mkCliRun {
  cli_config : dict;
  loaded_args : list string;
  unknown_args : list string
}.

(** The body of the loop of [_load_cli]. *)
Definition cli_step (cli_prefix : string) (cli_possible_argnames : list string)
    (sep : string) (st : cli_run) (arg : string) : result cli_run :=
  match match_equal arg with
  | Some (arg_key, arg_value) =>
      let key_fullname := drop (String.length cli_prefix) arg_key in
      match find (fun key => String.eqb (lower key) (lower key_fullname))
                 cli_possible_argnames with
      | Some field_name =>
          cfg <- _add_fullname_as_nested_dict (cli_config st) field_name
                   (VStr arg_value) sep ;;
          Ok (mkCliRun cfg (loaded_args st ++ [arg_key]) (unknown_args st))
      | None =>
          Ok (mkCliRun (cli_config st) (loaded_args st) (unknown_args st ++ [arg]))
      end
  | None =>
      Ok (mkCliRun (cli_config st) (loaded_args st) (unknown_args st ++ [arg]))
  end.

(** [_load_cli] with the two lists it logs; [argv] is [sys.argv]. *)
Definition load_cli_run (limit : nat) (env : schema) (cls : string)
    (argv : list string) (prefix sep : string) : result cli_run :=
  let cli_prefix := ("--" ++ lower prefix)%string in
  cli_possible_argnames <- _get_possible_cli_argsname limit env cls ;;
  for_each (cli_step cli_prefix cli_possible_argnames sep) (tl argv)
           (mkCliRun [] [] []).

Definition _load_cli (limit : nat) (env : schema) (cls : string)
    (argv : list string) (prefix sep : string) : result dict :=
  r <- load_cli_run limit env cls argv prefix sep ;;
  Ok (cli_config r).

(** The body of the loop of [_load_env]; [environ] is the process
    environment. *)
Definition env_step (prefix_upper : string) (environ : list (string * string))
    (sep : string) (env_config : dict) (fn : string) : result dict :=
  let env_name := (prefix_upper ++ upper fn)%string in
  match aget env_name environ with
  | Some env_value =>
      _add_fullname_as_nested_dict env_config fn (VStr env_value) sep
  | None => Ok env_config
  end.

Definition _load_env (limit : nat) (env : schema) (cls : string)
    (environ : list (string * string)) (prefix sep : string) : result dict :=
  cli_possible_argnames <- _get_possible_cli_argsname limit env cls ;;
  for_each (env_step (upper prefix) environ sep) cli_possible_argnames [].

(* ------------------------------------------------------------------ *)
(** ** LoadOrchestrator: [load] *)

(** What the call of the model class on the merged mapping does: it
    returns an instance, given here by its attributes; or it raises the
    [ValidationError], given here by the [loc] of each of its errors (a
    tuple of field names and list positions, empty for an error that belongs
    to the model as a whole); or it raises something else. *)
Inductive construct_outcome : Type :=
| Built (attrs : list (string * pyobj))
| Invalid (locs : list (list value))
| Fails (e : exn).

(** Everything outside the loader that a call of [load] reads. *)
Record world : Type := mkWorld {
  classes : schema;
  sys_argv : list string;
  os_environ : list (string * string);
  toml_fs : string -> file_state dict;
  json_fs : string -> file_state value;
  construct : string -> dict -> construct_outcome;
  recursion_limit : nat
}.

(** The arguments of [load]; their defaults are in [default_args]. *)
Record load_args : Type := mkArgs {
  toml_files : option (list string);
  json_files : option (list string);
  load_env : bool;
  load_cli : bool;
  data : value;
  readonly : bool;
  prefix : string
}.

Definition default_args : load_args :=
  {| toml_files := None; json_files := None; load_env := true;
     load_cli := true; data := VNone; readonly := true; prefix := "TSC_" |}.

(** The truth value of a list argument that may be [None]. *)
Definition nonempty (o : option (list string)) : option (list string) :=
  match o with
  | Some (x :: l) => Some (x :: l)
  | _ => None
  end.

(** The five merges of [load], lines 335 to 341. *)
Definition merged_config (data : value) (toml_config : dict)
    (json_config : value) (cli_config env_config : dict) : result dict :=
  merged <- _deep_merge_obj [] data ;;
  let merged := _deep_merge merged toml_config in
  merged <- _deep_merge_obj merged json_config ;;
  let merged := _deep_merge merged cli_config in
  let merged := _deep_merge merged env_config in
  Ok merged.

(** The four fragments read before the merge. *)
Definition load_sources (w : world) (cls : string) (a : load_args)
  : result (dict * value * dict * dict) :=
  let limit := recursion_limit w in
  toml_config <- match nonempty (toml_files a) with
                 | Some fl => _load_toml (toml_fs w) fl
                 | None => Ok []
                 end ;;
  json_config <- match nonempty (json_files a) with
                 | Some fl => _load_json (json_fs w) fl
                 | None => Ok (VDict [])
                 end ;;
  cli_config <- (if load_cli a
                 then _load_cli limit (classes w) cls (sys_argv w) (prefix a)
                        field_seperator
                 else Ok []) ;;
  env_config <- (if load_env a
                 then _load_env limit (classes w) cls (os_environ w) (prefix a)
                        field_seperator
                 else Ok []) ;;
  Ok (toml_config, json_config, cli_config, env_config).

(** The mapping handed to the validator. *)
Definition load_merged (w : world) (cls : string) (a : load_args)
  : result dict :=
  src <- load_sources w cls a ;;
  let '(toml_config, json_config, cli_config, env_config) := src in
  merged_config (data a) toml_config json_config cli_config env_config.

(** The body of the loop of the handler: [ve["loc"][0]] is the field the
    line names; an empty [loc] has no first item. *)
Definition error_line (err_str : list value) (loc : list value)
  : result (list value) :=
  match loc with
  | [] => Raise IndexError
  | field :: _ => Ok (err_str ++ [field])
  end.

(** What [load] does with the outcome of the call of the model class: the
    instance is returned, after [_set_frozen] if [readonly]; a
    [ValidationError] is reported error by error and answered by [None]
    ([Fails ValidationError] is that error with no detail, as [Invalid []]
    is); no other exception is caught. *)
Definition finish_load (w : world) (cls : string) (a : load_args)
    (st : class_state) (outcome : construct_outcome)
  : result (option pyobj * class_state) :=
  match outcome with
  | Built attrs =>
      st' <- (if readonly a
              then _set_frozen (recursion_limit w) (classes w) cls st
              else Ok st) ;;
      Ok (Some (PModel cls attrs), st')
  | Invalid locs =>
      _ <- for_each error_line locs [] ;;
      Ok (None, st)
  | Fails ValidationError => Ok (None, st)
  | Fails e => Raise e
  end.

(** [load]: the instance or [None], with the class configurations after the
    call. *)
Definition load (w : world) (cls : string) (a : load_args) (st : class_state)
  : result (option pyobj * class_state) :=
  merged <- load_merged w cls a ;;
  finish_load w cls a st (construct w cls merged).

(* ------------------------------------------------------------------ *)
(** ** The older loader, [typesave_config.py] *)

Module Legacy.

(** Its schema walk is [_get_attr_metadata] above, statement for statement
    (the record field is spelled [fullanme] there, and the origin of an
    alias is read from [__origin__], which is what [get_origin] answers on
    the annotations above), and so are its
    [_add_flat_key_value_to_nested_dict] and [_deep_merge]. *)
Definition _add_flat_key_value_to_nested_dict := _add_fullname_as_nested_dict.

Inductive warning : Type :=
| NotConverted (key_name value_str type_name : string)
| NoValue (key_name : string).

Record cli_state : Type := mkCliState {
  cli_config : dict;
  loaded_cli_params_log : list string;
  unknown_args : list string;
  warnings : list warning
}.

Definition is_scalar_type (t : string) : bool :=
  existsb (String.eqb t) ["str"; "int"; "float"; "bool"].

(** [registered_cli_flags_map]: the flag of every field of a scalar type. *)
Definition registered_cli_flags_map (prefix_lower : string)
    (ms : list ConfigAttrMetadata) : list (string * ConfigAttrMetadata) :=
  fold_left
    (fun flags m =>
       if is_scalar_type (type m)
       then aset ("--" ++ prefix_lower ++ fullname m)%string m flags
       else flags)
    ms [].

(** [_load_toml] and [_load_json] catch every exception of [open] and of
    the decoder and go on; the test [exists()] stands before the [try]. *)
Fixpoint load_file_loop (A : Type) (fs : string -> file_state A)
    (filenames : list string) (config : A) : result A :=
  match filenames with
  | [] => Ok config
  | file :: rest =>
      match fs file with
      | Inaccessible => Raise OSError
      | Decodes d => load_file_loop fs rest d
      | _ => load_file_loop fs rest config
      end
  end.

Definition _load_toml (fs : string -> file_state dict)
    (filenames : list string) : result dict :=
  load_file_loop fs filenames [].

Definition _load_json (fs : string -> file_state value)
    (filenames : list string) : result value :=
  load_file_loop fs filenames (VDict []).

Section Parsers.

(** The builtins [int] and [float] on a string: the number, or nothing where
    they raise [ValueError]. *)
Variable py_int : string -> option Z.
Variable py_float : string -> option Z.

(** The conversion by the type name of the field. *)
Definition convert (type_name value_str : string) : result value :=
  if String.eqb type_name "int" then
    match py_int value_str with
    | Some z => Ok (VInt z)
    | None => Raise ValueError
    end
  else if String.eqb type_name "float" then
    match py_float value_str with
    | Some x => Ok (VFloat x)
    | None => Raise ValueError
    end
  else if String.eqb type_name "bool" then
    Ok (VBool (existsb (String.eqb (lower value_str)) ["true"; "1"; "yes"]))
  else Ok (VStr value_str).

(** The body of both [try] blocks: convert, store, log. *)
Definition store (prefix_lower sep : string) (metadata_obj : ConfigAttrMetadata)
    (key_name value_str : string) (st : cli_state) : result cli_state :=
  v <- convert (type metadata_obj) value_str ;;
  let original_full_name := drop (String.length prefix_lower + 2) key_name in
  cfg <- _add_flat_key_value_to_nested_dict (cli_config st)
           original_full_name v sep ;;
  Ok (mkCliState cfg (loaded_cli_params_log st ++ [key_name])
        (unknown_args st) (warnings st)).

Definition warn (w : warning) (st : cli_state) : cli_state :=
  mkCliState (cli_config st) (loaded_cli_params_log st) (unknown_args st)
    (warnings st ++ [w]).

Definition unknown (arg : string) (st : cli_state) : cli_state :=
  mkCliState (cli_config st) (loaded_cli_params_log st)
    (unknown_args st ++ [arg]) (warnings st).

(** The [while] loop over the arguments; the index [i] is the position of
    [args] in the whole list. *)
Fixpoint cli_loop (flags : list (string * ConfigAttrMetadata))
    (prefix_lower sep : string) (args : list string) (st : cli_state)
    {struct args} : result cli_state :=
  match args with
  | [] => Ok st
  | arg :: rest =>
      match match_equal arg with
      | Some (key_name, value_str) =>
          match aget key_name flags with
          | Some metadata_obj =>
              match store prefix_lower sep metadata_obj key_name value_str st with
              | Ok st' => cli_loop flags prefix_lower sep rest st'
              | Raise ValueError =>
                  cli_loop flags prefix_lower sep rest
                    (warn (NotConverted key_name value_str (type metadata_obj)) st)
              | Raise e => Raise e
              end
          | None => cli_loop flags prefix_lower sep rest (unknown arg st)
          end
      | None =>
          if startswith "--" arg then
            let key_name := arg in
            match aget key_name flags with
            | Some metadata_obj =>
                match rest with
                | value_str :: rest' =>
                    if negb (startswith "--" value_str) then
                      match store prefix_lower sep metadata_obj key_name
                              value_str st with
                      | Ok st' => cli_loop flags prefix_lower sep rest' st'
                      | Raise ValueError =>
                          cli_loop flags prefix_lower sep rest
                            (warn (NotConverted key_name value_str
                                     (type metadata_obj)) st)
                      | Raise e => Raise e
                      end
                    else cli_loop flags prefix_lower sep rest
                           (warn (NoValue key_name) st)
                | [] => cli_loop flags prefix_lower sep rest
                          (warn (NoValue key_name) st)
                end
            | None => cli_loop flags prefix_lower sep rest (unknown arg st)
            end
          else cli_loop flags prefix_lower sep rest (unknown arg st)
      end
  end.

Definition load_cli_run (limit : nat) (env : schema) (cls : string)
    (argv : list string) (prefix sep : string) : result cli_state :=
  let prefix_lower := lower prefix in
  ms <- get_metadata limit env cls ;;
  cli_loop (registered_cli_flags_map prefix_lower ms) prefix_lower sep
    (tl argv) (mkCliState [] [] [] []).

Definition _load_cli (limit : nat) (env : schema) (cls : string)
    (argv : list string) (prefix sep : string) : result dict :=
  r <- load_cli_run limit env cls argv prefix sep ;;
  Ok (cli_config r).

End Parsers.

(** The body of the loop of [_load_env]: the text of the variable is stored
    as it is. *)
Definition env_step (prefix_upper : string) (environ : list (string * string))
    (sep : string) (env_config : dict) (m : ConfigAttrMetadata) : result dict :=
  let env_name := (prefix_upper ++ upper (fullname m))%string in
  match aget env_name environ with
  | Some env_value =>
      if is_scalar_type (type m)
      then _add_flat_key_value_to_nested_dict env_config (fullname m)
             (VStr env_value) sep
      else Ok env_config
  | None => Ok env_config
  end.

Definition _load_env (limit : nat) (env : schema) (cls : string)
    (environ : list (string * string)) (prefix sep : string) : result dict :=
  ms <- get_metadata limit env cls ;;
  for_each (env_step (upper prefix) environ sep) ms [].

End Legacy.

(* ------------------------------------------------------------------ *)
(** ** The configuration of [main.py] *)

(** A class of [builtins]. *)
Definition builtin (n : string) : annotation := AClass n n.

Definition required (t : annotation) (d : string) : FieldInfo :=
  mkFieldInfo t (Some d) None.

Definition AppConfig__Prompt : list (string * FieldInfo) :=
  [ ("name", required (builtin "str") "The name or identifier for the prompt.");
    ("value", required (builtin "int") "A numerical value associated with the prompt.") ].

Definition AppConfig__User : list (string * FieldInfo) :=
  [ ("UserName", mkFieldInfo (builtin "str") (Some "The username.")
                   (Some (VStr "anonym")));
    ("PassWord", required (builtin "str") "The password. required.") ].

Definition AppConfig : list (string * FieldInfo) :=
  [ ("project_name", required (builtin "str") "The name of the Python project.");
    ("version", required (builtin "str") "The name of the Python project.");
    ("user", required (AModel "__main__.AppConfig__User" "AppConfig__User")
       "Current logged in user..");
    ("database_url", required (builtin "str") "The connection string for the database.");
    ("debug_mode", required (builtin "bool") "Indicates if debug mode is enabled.");
    ("allowed_hosts", required (AList (Some (builtin "str")))
       "A list of allowed hostnames for the application.");
    ("port", required (builtin "int") "The port number on which the application will run.");
    ("weight", required (builtin "float") "The weight of the logged in user.");
    ("prompts",
     required
       (AList (Some (AModel "__main__.AppConfig__Prompt" "AppConfig__Prompt")))
       "A list of prompt configurations.") ].

Definition demo_schema : schema :=
  [ ("AppConfig__Prompt", AppConfig__Prompt);
    ("AppConfig__User", AppConfig__User);
    ("AppConfig", AppConfig) ].

(** The catalogue of [AppConfig]. *)
Definition demo_catalogue : list ConfigAttrMetadata :=
  Eval vm_compute in
    match get_metadata 5 demo_schema "AppConfig" with
    | Ok ms => ms
    | Raise _ => []
    end.

(** The names of [AppConfig] that are open to overrides. *)
Definition demo_names : list string :=
  Eval vm_compute in
    match _get_possible_cli_argsname 5 demo_schema "AppConfig" with
    | Ok names => names
    | Raise _ => []
    end.

Definition demo_port : ConfigAttrMetadata :=
  metadata_of "AppConfig" ""
    ("port", required (builtin "int")
               "The port number on which the application will run.").

(** The validator of the runs below.  Modelled from the spec: the call of
    the model class belongs to the validation library, which is not part of
    the sources.  Following section 6, a mapping becomes an instance when
    every declared field is bound to a value of its declared type or left to
    its default; otherwise it is rejected with one error for every offending
    field, located at the field and, inside a list, at the position.  The
    conversions that the library tries on a value of another type are not
    modelled (such a value is an error here), so the runs that reach the
    validator bring every value in its declared type.  Keys that name no
    field are passed over. *)
Inductive checked (A : Type) : Type :=
| Good (a : A)
| Bad (locs : list (list value)).

Arguments Good {A} a.
Arguments Bad {A} locs.

Definition at_loc (k : value) (locs : list (list value)) : list (list value) :=
  map (cons k) locs.

(** The elements of a list, each error located at its position. *)
Fixpoint check_elements (i : Z) (l : list (checked pyobj))
  : checked (list pyobj) :=
  match l with
  | [] => Good []
  | x :: l' =>
      match x, check_elements (i + 1)%Z l' with
      | Good o, Good os => Good (o :: os)
      | Good _, Bad locs => Bad locs
      | Bad locs, Good _ => Bad (at_loc (VInt i) locs)
      | Bad locs, Bad locs' => Bad (at_loc (VInt i) locs ++ locs')
      end
  end.

(** The fields of a class in the order of their declaration, given the
    checked values of the fields the mapping binds. *)
Fixpoint check_fields (fields : list (string * FieldInfo))
    (bound : list (string * checked pyobj))
  : checked (list (string * pyobj)) :=
  match fields with
  | [] => Good []
  | (f, info) :: rest =>
      let here :=
        match aget f bound with
        | Some (Good o) => Good o
        | Some (Bad locs) => Bad (at_loc (VStr f) locs)
        | None =>
            match fi_default info with
            | Some dv => Good (PVal dv)
            | None => Bad [[VStr f]]
            end
        end in
      match here, check_fields rest bound with
      | Good o, Good os => Good ((f, o) :: os)
      | Good _, Bad locs => Bad locs
      | Bad locs, Good _ => Bad locs
      | Bad locs, Bad locs' => Bad (locs ++ locs')
      end
  end.

Fixpoint check_value (env : schema) (t : annotation) (v : value) {struct v}
  : checked pyobj :=
  match t, v with
  | AClass _ n, VStr _ =>
      if String.eqb n "str" then Good (PVal v) else Bad [[]]
  | AClass _ n, VInt _ =>
      if String.eqb n "int" then Good (PVal v) else Bad [[]]
  | AClass _ n, VFloat _ =>
      if String.eqb n "float" then Good (PVal v) else Bad [[]]
  | AClass _ n, VBool _ =>
      if String.eqb n "bool" then Good (PVal v) else Bad [[]]
  | AModel _ sub, VDict d =>
      let fields := model_fields env sub in
      let bound :=
        (fix items (l : list (string * value)) {struct l}
           : list (string * checked pyobj) :=
           match l with
           | [] => []
           | (k, x) :: l' =>
               match aget k fields with
               | Some info =>
                   (k, check_value env (fi_annotation info) x) :: items l'
               | None => items l'
               end
           end) d in
      match check_fields fields bound with
      | Good attrs => Good (PModel sub attrs)
      | Bad locs => Bad locs
      end
  | AList (Some a), VList l =>
      let elements :=
        (fix each (l : list value) {struct l} : list (checked pyobj) :=
           match l with
           | [] => []
           | x :: l' => check_value env a x :: each l'
           end) l in
      match check_elements 0%Z elements with
      | Good os => Good (PList os)
      | Bad locs => Bad locs
      end
  | _, _ => Bad [[]]
  end.

Definition validate (env : schema) (cls : string) (d : dict)
  : construct_outcome :=
  match check_value env (AModel cls cls) (VDict d) with
  | Good (PModel _ attrs) => Built attrs
  | Good _ => Invalid [[VStr cls]]
  | Bad locs => Invalid locs
  end.

(** A process running [main.py]: a file sets the port, the command line the
    password, the environment the port again. *)
Definition demo_toml (f : string) : file_state dict :=
  if String.eqb f "test_conf.toml"
  then Decodes [("port", VInt 8000); ("project_name", VStr "demo")]
  else Absent.

Definition demo_world : world :=
  {| classes := demo_schema;
     sys_argv := ["main.py"; "--tsc_user__password=secret"; "--tsc_port=7070"];
     os_environ := [("TSC_PORT", "9090")];
     toml_fs := demo_toml;
     json_fs := fun _ => Absent;
     construct := validate demo_schema;
     recursion_limit := 100 |}.

Definition demo_args : load_args :=
  {| toml_files := Some ["test_conf.toml"; "a.toml"];
     json_files := None;
     load_env := true;
     load_cli := true;
     data := VDict [("version", VStr "0.1 alpha")];
     readonly := true;
     prefix := "TSC_" |}.

(** Another process running [main.py], in which every required field is
    supplied in its declared type: the file holds all of them but the
    version, which the embedded data gives, and the password, which the
    command line gives; the environment renames the project.  The weight is
    72.5. *)
Definition full_toml (f : string) : file_state dict :=
  if String.eqb f "test_conf.toml"
  then Decodes
         [ ("project_name", VStr "demo");
           ("database_url", VStr "sqlite:///demo.db");
           ("debug_mode", VBool true);
           ("allowed_hosts", VList [VStr "localhost"]);
           ("port", VInt 8000);
           ("weight", VFloat 4634802150889750528);
           ("user", VDict [("UserName", VStr "root")]);
           ("prompts",
            VList [VDict [("name", VStr "greeting"); ("value", VInt 1)]]) ]
  else Absent.

Definition full_world : world :=
  {| classes := demo_schema;
     sys_argv := ["main.py"; "--tsc_user__password=secret"];
     os_environ := [("TSC_PROJECT_NAME", "shop")];
     toml_fs := full_toml;
     json_fs := fun _ => Absent;
     construct := validate demo_schema;
     recursion_limit := 100 |}.

(* ------------------------------------------------------------------ *)
(** ** Reference descriptions used by the statements *)

(** The catalogue as the specification words it: field by field in the order
    of the names, the descriptor of a field, immediately followed by the
    catalogue of the type nested in it (the type of a nested object, or the
    element type of a list of objects, once; nothing when the element type
    is the containing type itself). *)
Definition expansion
    (rec : string -> string -> result (list ConfigAttrMetadata))
    (model_name _path : string) (item : string * FieldInfo)
  : result (list ConfigAttrMetadata) :=
  let full := f_fullname _path (fst item) in
  let t := fi_annotation (snd item) in
  match has_model_fields t with
  | Some sub => rec sub full
  | None =>
      match list_arg t with
      | Some element =>
          match has_model_fields element with
          | Some sub =>
              if String.eqb sub model_name then Ok [] else rec sub full
          | None => Ok []
          end
      | None => Ok []
      end
  end.

Fixpoint catalogue_items
    (rec : string -> string -> result (list ConfigAttrMetadata))
    (model_name _path : string) (items : list (string * FieldInfo))
  : result (list ConfigAttrMetadata) :=
  match items with
  | [] => Ok []
  | item :: items' =>
      nested <- expansion rec model_name _path item ;;
      others <- catalogue_items rec model_name _path items' ;;
      Ok (metadata_of model_name _path item :: nested ++ others)
  end.

Fixpoint catalogue (limit : nat) (env : schema) (model_name _path : string)
  : result (list ConfigAttrMetadata) :=
  match limit with
  | O => Raise RecursionError
  | S limit' =>
      catalogue_items (catalogue limit' env) model_name _path
        (sorted (model_fields env model_name))
  end.

(** A field name that the key codec can tell apart: not empty, without the
    separator inside and without an underscore at its end. *)
Definition plain_name (s : string) : bool :=
  negb (String.eqb s EmptyString) &&
  negb (contains field_seperator s) &&
  negb (ends_with "_"%char s).

(** Every class lists a field once, under a plain name. *)
Definition plain_schema (env : schema) : bool :=
  forallb
    (fun c => nodupb (map fst (snd c)) && forallb plain_name (map fst (snd c)))
    env.

(** A field name as the validation library admits it among
    [model_fields]: not empty and without an underscore at its start. *)
Definition admitted_name (s : string) : bool :=
  match s with
  | EmptyString => false
  | String c _ => negb (Ascii.eqb c "_"%char)
  end.

(** An admitted field name that does not hold the separator. *)
Definition separable_name (s : string) : bool :=
  admitted_name s && negb (contains field_seperator s).

(** Every class lists a field once, under a separable name. *)
Definition separable_schema (env : schema) : bool :=
  forallb
    (fun c =>
       nodupb (map fst (snd c)) && forallb separable_name (map fst (snd c)))
    env.

(** Two classes whose lists refer to each other. *)
Definition mutual_schema : schema :=
  [ ("A", [("bs", mkFieldInfo (AList (Some (AModel "__main__.B" "B")))
                    None None)]);
    ("B", [("as_", mkFieldInfo (AList (Some (AModel "__main__.A" "A")))
                     None None)]) ].

(** A class with a list of its own kind. *)
Definition tree_schema : schema :=
  [ ("Node", [("children",
               mkFieldInfo (AList (Some (AModel "__main__.Node" "Node")))
                 None None);
              ("label", mkFieldInfo (builtin "str") None None)]) ].

(** A field name that contains the separator. *)
Definition clash_schema : schema :=
  [ ("Inner", [("b", mkFieldInfo (builtin "str") None None)]);
    ("Root", [("a", mkFieldInfo (AModel "__main__.Inner" "Inner") None None);
              ("a__b", mkFieldInfo (builtin "str") None None)]) ].

(* ------------------------------------------------------------------ *)
(** ** Auxiliary notions of the proofs *)

(** The descriptors that pass the test of [_get_possible_cli_argsname]. *)
Definition passes (m : ConfigAttrMetadata) : bool :=
  match cli_eligible m with
  | Ok true => true
  | _ => false
  end.

(** What a terminating recursive call is known to achieve. *)
Definition freezes (env : schema)
    (rec : string -> class_state -> result class_state) : Prop :=
  forall d st1 st2,
    rec d st1 = Ok st2 ->
    (forall c, is_frozen st1 c = true -> is_frozen st2 c = true) /\
    (forall c, nested_class env d c -> is_frozen st2 c = true).

Definition name_le (x y : string * FieldInfo) : Prop :=
  String.leb (fst x) (fst y) = true.

Definition join (segs : list string) : string := String.concat "__" segs.

Definition plain_path (q : list string) : Prop :=
  Forall (fun s => plain_name s = true) q.

(** What is known of the paths of a catalogue below the prefix [segs], all
    names being [good]. *)
Definition paths_of (good : string -> bool) (segs : list string)
    (cat : list ConfigAttrMetadata) (qs : list (list string)) : Prop :=
  map fullname cat = map (fun q => join (segs ++ q)) qs /\
  NoDup qs /\
  forall q, In q qs -> q <> [] /\ Forall (fun s => good s = true) q.

Definition rec_paths (good : string -> bool)
    (rec : string -> string -> result (list ConfigAttrMetadata)) : Prop :=
  forall sub segs cat,
    Forall (fun s => good s = true) segs -> rec sub (join segs) = Ok cat ->
    exists qs, paths_of good segs cat qs.

(* ------------------------------------------------------------------ *)
(** ** Notions used by the further properties *)

(** The walk goes from one class into another: through a field typed by a
    model, or through a list of models other than the class itself. *)
Definition follows (env : schema) (c d : string) : Prop :=
  exists f info,
    In (f, info) (model_fields env c) /\
    (has_model_fields (fi_annotation info) = Some d \/
     (exists element,
         list_arg (fi_annotation info) = Some element /\
         has_model_fields element = Some d /\ d <> c)).

(** A file the loader can use or pass over without an exception. *)
Definition toml_harmless (st : file_state dict) : bool :=
  match st with
  | Absent | Decodes _ => true
  | Inaccessible | Unreadable | Malformed => false
  end.

Definition json_harmless (st : file_state value) : bool :=
  match st with
  | Inaccessible | Malformed => false
  | Absent | Unreadable | Decodes _ => true
  end.

(** A JSON file that is passed over or holds an object at its top. *)
Definition json_object (st : file_state value) : bool :=
  match st with
  | Inaccessible | Malformed => false
  | Decodes v => is_dict v
  | Absent | Unreadable => true
  end.

(** A path that can be examined. *)
Definition accessible (A : Type) (st : file_state A) : bool :=
  match st with
  | Inaccessible => false
  | _ => true
  end.

(** The validator answers the mapping with an instance or with errors that
    are each located at a field. *)
Definition answers (o : construct_outcome) : Prop :=
  match o with
  | Built _ => True
  | Invalid locs => Forall (fun loc => loc <> []) locs
  | Fails e => e = ValidationError
  end.

(** The entries the older command-line reader has written so far. *)
Definition legacy_count (st : Legacy.cli_state) : nat :=
  List.length (Legacy.loaded_cli_params_log st)
  + List.length (Legacy.unknown_args st)
  + List.length (Legacy.warnings st).


(** A descriptor stands for a declared field of a class nested in the
    root. *)
Definition describes_field (env : schema) (root : string)
    (m : ConfigAttrMetadata) : Prop :=
  nested_class env root (model m) /\
  exists info,
    In (name m, info) (model_fields env (model m)) /\
    raw_type m = fi_annotation info /\
    type m = type_name (fi_annotation info).


(** Two paths part at some key. *)
Definition diverge (q1 q2 : list string) : Prop :=
  exists common x y r1 r2,
    x <> y /\ q1 = common ++ x :: r1 /\ q2 = common ++ y :: r2.

(** The descriptors of a catalogue with their paths below [segs]; the paths
    of two descriptors that may be overridden are equal or part. *)
Definition leaf_paths (segs : list string) (cat : list ConfigAttrMetadata)
    (zs : list (ConfigAttrMetadata * list string)) : Prop :=
  cat = map fst zs /\
  (forall m q, In (m, q) zs ->
     fullname m = join (segs ++ q) /\ q <> [] /\ plain_path q) /\
  (forall m1 q1 m2 q2,
     In (m1, q1) zs -> In (m2, q2) zs ->
     cli_eligible m1 = Ok true -> cli_eligible m2 = Ok true ->
     q1 = q2 \/ diverge q1 q2).

Definition rec_leaf_paths
    (rec : string -> string -> result (list ConfigAttrMetadata)) : Prop :=
  forall sub segs cat,
    plain_path segs -> rec sub (join segs) = Ok cat ->
    exists zs, leaf_paths segs cat zs.

(** [load] of the older loader, [typesave_config.py]: it calls its own
    readers; the merge, the call of the model class and the handler are
    those of the current one, line for line.  Its defaults are
    [legacy_default_args]. *)
Definition legacy_load (py_int py_float : string -> option Z)
    (w : world) (cls : string) (a : load_args) (st : class_state)
  : result (option pyobj * class_state) :=
  let limit := recursion_limit w in
  toml_config <- match nonempty (toml_files a) with
                 | Some fl => Legacy._load_toml (toml_fs w) fl
                 | None => Ok []
                 end ;;
  json_config <- match nonempty (json_files a) with
                 | Some fl => Legacy._load_json (json_fs w) fl
                 | None => Ok (VDict [])
                 end ;;
  cli_config <- (if load_cli a
                 then Legacy._load_cli py_int py_float limit (classes w) cls
                        (sys_argv w) (prefix a) field_seperator
                 else Ok []) ;;
  env_config <- (if load_env a
                 then Legacy._load_env limit (classes w) cls (os_environ w)
                        (prefix a) field_seperator
                 else Ok []) ;;
  merged <- merged_config (data a) toml_config json_config cli_config
              env_config ;;
  finish_load w cls a st (construct w cls merged).

Definition legacy_default_args : load_args :=
  {| toml_files := Some ["conf.toml"]; json_files := Some [];
     load_env := true; load_cli := true; data := VDict [];
     readonly := true; prefix := "TSC_" |}.

(* ================================================================== *)
(** * Properties *)

Unset Implicit Arguments.

(** ** Association lists *)

Lemma aget_aset_eq (A : Type) (k : string) (v : A) (d : list (string * A)) :
  aget k (aset k v d) = Some v.
Proof.
  induction d as [|[k' v'] d IH]; simpl.
  - now rewrite String.eqb_refl.
  - destruct (String.eqb k k') eqn:E; simpl; rewrite E; auto.
Qed.

Lemma aget_aset_neq (A : Type) (k k' : string) (v : A) (d : list (string * A)) :
  k <> k' -> aget k' (aset k v d) = aget k' d.
Proof.
  intros Hne. induction d as [|[k0 v0] d IH]; simpl.
  - apply String.eqb_neq in Hne. rewrite String.eqb_sym. now rewrite Hne.
  - destruct (String.eqb k k0) eqn:E; simpl.
    + apply String.eqb_eq in E. subst k0.
      destruct (String.eqb k' k) eqn:E'; auto.
      apply String.eqb_eq in E'. congruence.
    + now rewrite IH.
Qed.

Lemma aget_in (A : Type) (k : string) (v : A) (d : list (string * A)) :
  aget k d = Some v -> In (k, v) d.
Proof.
  induction d as [|[k' v'] d IH]; simpl; [discriminate|].
  destruct (String.eqb k k') eqn:E.
  - apply String.eqb_eq in E. intros [= ->]. subst. now left.
  - intros H. right. auto.
Qed.

Lemma aget_none_notin (A : Type) (k : string) (d : list (string * A)) :
  existsb (String.eqb k) (map fst d) = false -> aget k d = None.
Proof.
  induction d as [|[k' v'] d IH]; simpl; auto.
  destruct (String.eqb k k'); simpl; [discriminate | auto].
Qed.

(** ** Strings *)

Lemma append_assoc (a b c : string) : ((a ++ b) ++ c = a ++ (b ++ c))%string.
Proof. induction a; simpl; congruence. Qed.

Lemma append_nil_r (a : string) : (a ++ "")%string = a.
Proof. induction a; simpl; congruence. Qed.

Lemma length_append (a b : string) :
  String.length (a ++ b) = String.length a + String.length b.
Proof. induction a; simpl; auto. Qed.



(** ** Splitting at the separator *)

Lemma prefix_cons (a b : ascii) (s1 s2 : string) :
  String.prefix (String a s1) (String b s2) =
  Ascii.eqb a b && String.prefix s1 s2.
Proof.
  cbn [String.prefix]. destruct (Ascii.ascii_dec a b) as [->|Hne].
  - now rewrite Ascii.eqb_refl.
  - apply Ascii.eqb_neq in Hne. now rewrite Hne.
Qed.

Lemma prefix_nil (s : string) : String.prefix "" s = true.
Proof. now destruct s. Qed.

Lemma prefix_sep_cons (c : ascii) (s : string) :
  String.prefix "__" (String c s) =
  Ascii.eqb c "_"%char && String.prefix "_" s.
Proof. rewrite prefix_cons. now rewrite Ascii.eqb_sym. Qed.

Lemma prefix_us_cons (c : ascii) (s : string) :
  String.prefix "_" (String c s) = Ascii.eqb c "_"%char.
Proof.
  rewrite prefix_cons, prefix_nil, Ascii.eqb_sym. apply andb_true_r.
Qed.

Lemma split_go_cons (sep cur : string) (c : ascii) (s : string) :
  split_go sep 0 cur (String c s) =
  if String.prefix sep (String c s)
  then cur :: split_go sep (String.length sep - 1) "" s
  else split_go sep 0 (cur ++ String c "") s.
Proof. reflexivity. Qed.

Lemma split_go_skip (sep cur : string) (k : nat) (c : ascii) (s : string) :
  split_go sep (S k) cur (String c s) = split_go sep k cur s.
Proof. reflexivity. Qed.

(** A piece without the separator and without an underscore at its end is
    cut off exactly where the separator that follows it starts. *)
Lemma split_go_segment (seg rest cur : string) :
  contains "__" seg = false ->
  ends_with "_"%char seg = false ->
  split_go "__" 0 cur (seg ++ "__" ++ rest) =
  (cur ++ seg)%string :: split_go "__" 0 "" rest.
Proof.
  revert cur. induction seg as [|c seg IH]; intros cur Hc He.
  - rewrite append_nil_r. cbn [append].
    rewrite split_go_cons, prefix_sep_cons, prefix_us_cons.
    cbn [Ascii.eqb Bool.eqb andb String.length Nat.sub].
    now rewrite split_go_skip.
  - change (String c seg ++ "__" ++ rest)%string
      with (String c (seg ++ "__" ++ rest)).
    rewrite split_go_cons.
    cbn [contains] in Hc. apply orb_false_iff in Hc as [Hp Hc].
    assert (Hpre : String.prefix "__" (String c (seg ++ "__" ++ rest)) = false).
    { rewrite prefix_sep_cons. rewrite prefix_sep_cons in Hp.
      destruct (Ascii.eqb c "_") eqn:Ec; auto. cbn [andb] in *.
      destruct seg as [|c2 seg].
      - apply Ascii.eqb_eq in Ec. subst c. simpl in He. discriminate.
      - change (String c2 seg ++ "__" ++ rest)%string
          with (String c2 (seg ++ "__" ++ rest)).
        rewrite prefix_us_cons.
        rewrite prefix_us_cons in Hp. exact Hp. }
    rewrite Hpre.
    assert (He' : ends_with "_"%char seg = false).
    { destruct seg; auto. }
    rewrite (IH _ Hc He'). f_equal.
    rewrite append_assoc. reflexivity.
Qed.

Lemma split_go_last (seg cur : string) :
  contains "__" seg = false ->
  split_go "__" 0 cur seg = [(cur ++ seg)%string].
Proof.
  revert cur. induction seg as [|c seg IH]; intros cur Hc.
  - now rewrite append_nil_r.
  - rewrite split_go_cons.
    cbn [contains] in Hc. apply orb_false_iff in Hc as [Hp Hc].
    rewrite Hp. rewrite (IH _ Hc). now rewrite append_assoc.
Qed.

(** Splitting a joined path gives the path back. *)
Lemma split_concat (P : list string) :
  P <> [] ->
  Forall (fun s => contains "__" s = false) P ->
  Forall (fun s => ends_with "_"%char s = false) (removelast P) ->
  split_go "__" 0 "" (String.concat "__" P) = P.
Proof.
  induction P as [|s P IH]; intros Hne Hc He; [congruence|].
  destruct P as [|s' P].
  - simpl. inversion Hc; subst. now rewrite split_go_last.
  - change (String.concat "__" (s :: s' :: P))
      with (s ++ "__" ++ String.concat "__" (s' :: P))%string.
    inversion Hc; subst. cbn [removelast] in He. inversion He; subst.
    rewrite split_go_segment by assumption.
    simpl append at 1. f_equal. apply IH; auto. discriminate.
Qed.

Lemma split_go_not_nil (sep : string) (s : string) :
  forall skip cur, split_go sep skip cur s <> [].
Proof.
  induction s as [|c s IH]; intros skip cur; cbn [split_go]; [discriminate|].
  destruct skip; [|apply IH].
  destruct (String.prefix sep (String c s)); [discriminate | apply IH].
Qed.

(** ** The key codec *)

Lemma add_parts_empty (P : list string) (v : value) :
  add_parts [] P v = nest P v.
Proof.
  induction P as [|k P IH]; auto.
  destruct P as [|k' P]; auto.
  change (add_parts [] (k :: k' :: P) v)
    with (dset k (VDict (add_parts [] (k' :: P) v)) []).
  rewrite IH. reflexivity.
Qed.

(** The value stored under a path is found there afterwards. *)
Lemma lookup_add_parts (p : list string) (d : dict) (v : value) :
  p <> [] -> lookup_path p (add_parts d p v) = Some v.
Proof.
  revert d. induction p as [|k p IH]; intros d Hne; [congruence|].
  destruct p as [|k' p].
  - simpl. apply aget_aset_eq.
  - change (add_parts d (k :: k' :: p) v)
      with (dset k (VDict (add_parts
              match dget k d with Some (VDict d0) => d0 | _ => [] end
              (k' :: p) v)) d).
    change (lookup_path (k :: k' :: p) ?x)
      with (match dget k x with
            | Some (VDict d') => lookup_path (k' :: p) d'
            | _ => None
            end).
    unfold dget, dset. rewrite aget_aset_eq. apply IH. discriminate.
Qed.

(** Storing under one path leaves every path alone that leaves it at some
    key: an intermediate mapping is entered, never replaced. *)
Lemma add_parts_preserves (common : list string) (x y : string)
    (q r : list string) (d : dict) (v : value) :
  x <> y ->
  lookup_path (common ++ x :: q) (add_parts d (common ++ y :: r) v) =
  lookup_path (common ++ x :: q) d.
Proof.
  intros Hxy. revert d. induction common as [|k common IH]; intros d.
  - cbn [app].
    assert (Hget : forall w, dget x (dset y w d) = dget x d).
    { intros w. apply aget_aset_neq. congruence. }
    destruct r as [|r0 r]; destruct q as [|q0 q]; simpl; rewrite Hget; auto.
  - cbn [app].
    destruct (common ++ y :: r) as [|k1 l1] eqn:E1;
      [destruct common; discriminate|].
    destruct (common ++ x :: q) as [|k2 l2] eqn:E2;
      [destruct common; discriminate|].
    change (add_parts d (k :: k1 :: l1) v)
      with (dset k (VDict (add_parts
              match dget k d with Some (VDict d0) => d0 | _ => [] end
              (k1 :: l1) v)) d).
    change (lookup_path (k :: k2 :: l2) ?z)
      with (match dget k z with
            | Some (VDict d') => lookup_path (k2 :: l2) d'
            | _ => None
            end).
    unfold dget, dset. rewrite aget_aset_eq. rewrite IH.
    fold dget. destruct (dget k d) as [[]|]; auto;
      destruct l2; simpl; auto; destruct (aget k2 []); auto.
Qed.

(** C3, as the specification states it, fails: a segment that ends in an
    underscore moves its underscore into the next key. *)
Lemma unflatten_flatten_trailing_underscore :
  ~ (forall (P : list string) (v : value),
        P <> [] ->
        Forall (fun s => contains "__" s = false) P ->
        _add_fullname_as_nested_dict [] (String.concat "__" P) v "__"
        = Ok (nest P v)).
Proof.
  intros H.
  specialize (H ["a_"; "b"] (VInt 1)).
  assert (Hc : Forall (fun s => contains "__" s = false) ["a_"; "b"])
    by (repeat constructor).
  specialize (H ltac:(discriminate) Hc).
  vm_compute in H. discriminate.
Qed.

(** C3 (amended): for every non-empty list of path segments in which no
    segment contains the separator and no segment but the last ends in an
    underscore, storing a value under the joined key in an empty mapping
    gives exactly the nested mapping whose successive keys are the segments,
    with the value at the last key. *)
Theorem unflatten_flatten (P : list string) (v : value) :
  P <> [] ->
  Forall (fun s => contains "__" s = false) P ->
  Forall (fun s => ends_with "_"%char s = false) (removelast P) ->
  _add_fullname_as_nested_dict [] (String.concat "__" P) v "__"
  = Ok (nest P v).
Proof.
  intros Hne Hc He.
  unfold _add_fullname_as_nested_dict, split, bind.
  rewrite split_concat by assumption.
  now rewrite add_parts_empty.
Qed.

Lemma unflatten_flatten_witness :
  _add_fullname_as_nested_dict [] "prompts__name_of__x" (VInt 1) "__"
  = Ok [("prompts", VDict [("name_of", VDict [("x", VInt 1)])])].
Proof.
  apply (unflatten_flatten ["prompts"; "name_of"; "x"] (VInt 1)).
  - discriminate.
  - repeat constructor.
  - repeat constructor.
Defined.

(** C10: two flat keys that differ only in their last segment end up as
    entries of one nested mapping, both retained: the second insertion
    enters the mapping the first one made and does not replace it. *)
Theorem sibling_keys_retained
    (d : dict) (n1 n2 : string) (v1 v2 : value)
    (pre : list string) (a b : string) :
  split "__" n1 = Ok (pre ++ [a]) ->
  split "__" n2 = Ok (pre ++ [b]) ->
  a <> b ->
  exists d1 d2,
    _add_fullname_as_nested_dict d n1 v1 "__" = Ok d1 /\
    _add_fullname_as_nested_dict d1 n2 v2 "__" = Ok d2 /\
    lookup_path (pre ++ [a]) d2 = Some v1 /\
    lookup_path (pre ++ [b]) d2 = Some v2.
Proof.
  intros H1 H2 Hab.
  unfold _add_fullname_as_nested_dict. rewrite H1, H2. cbn [bind].
  eexists. eexists. split; [reflexivity|]. split; [reflexivity|]. split.
  - rewrite add_parts_preserves by assumption.
    apply lookup_add_parts. now destruct pre.
  - apply lookup_add_parts. now destruct pre.
Qed.

Lemma sibling_keys_retained_witness :
  exists d1 d2,
    _add_fullname_as_nested_dict [] "user__username" (VStr "root") "__" = Ok d1 /\
    _add_fullname_as_nested_dict d1 "user__password" (VStr "123") "__" = Ok d2 /\
    lookup_path ["user"; "username"] d2 = Some (VStr "root") /\
    lookup_path ["user"; "password"] d2 = Some (VStr "123").
Proof.
  apply (sibling_keys_retained [] "user__username" "user__password"
           (VStr "root") (VStr "123") ["user"] "username" "password").
  - reflexivity.
  - reflexivity.
  - discriminate.
Defined.

(** ** The merge *)

Lemma deep_merge_nil (dict1 : dict) : _deep_merge dict1 [] = dict1.
Proof. reflexivity. Qed.

Lemma deep_merge_cons (dict1 : dict) (key : string) (v : value) (l : dict) :
  _deep_merge dict1 ((key, v) :: l) = _deep_merge (merge_item dict1 key v) l.
Proof.
  unfold _deep_merge, merge_item. cbn [merge_into].
  destruct (dget key dict1) as [[]|]; destruct v; reflexivity.
Qed.

Lemma dget_merge_item_eq (dict1 : dict) (key : string) (v : value) :
  dget key (merge_item dict1 key v) = Some (merged_value (dget key dict1) v).
Proof.
  unfold merge_item, merged_value.
  destruct (dget key dict1) as [[]|]; destruct v; apply aget_aset_eq.
Qed.

Lemma dget_merge_item_neq (dict1 : dict) (key k : string) (v : value) :
  key <> k -> dget k (merge_item dict1 key v) = dget k dict1.
Proof.
  intros Hne. unfold merge_item.
  destruct (dget key dict1) as [[]|]; destruct v;
    now apply aget_aset_neq.
Qed.

Lemma dget_merge_absent (k : string) (dict2 dict1 : dict) :
  dget k dict2 = None -> dget k (_deep_merge dict1 dict2) = dget k dict1.
Proof.
  revert dict1. induction dict2 as [|[key v] l IH]; intros dict1 Hk.
  - reflexivity.
  - rewrite deep_merge_cons. simpl in Hk.
    destruct (String.eqb k key) eqn:E; [discriminate|].
    rewrite IH by exact Hk. apply dget_merge_item_neq.
    apply String.eqb_neq in E. congruence.
Qed.

Lemma dget_merge_present (k : string) (v : value) (dict2 dict1 : dict) :
  nodupb (map fst dict2) = true ->
  dget k dict2 = Some v ->
  dget k (_deep_merge dict1 dict2) = Some (merged_value (dget k dict1) v).
Proof.
  revert dict1. induction dict2 as [|[key v'] l IH]; intros dict1 Hnd Hk.
  - discriminate.
  - rewrite deep_merge_cons. simpl in Hk, Hnd.
    apply andb_true_iff in Hnd as [Hfresh Hnd].
    destruct (String.eqb k key) eqn:E.
    + apply String.eqb_eq in E. subst key. injection Hk as ->.
      rewrite dget_merge_absent.
      * apply dget_merge_item_eq.
      * apply aget_none_notin. now apply negb_true_iff.
    + rewrite (IH _ Hnd Hk). f_equal. f_equal.
      apply dget_merge_item_neq. apply String.eqb_neq in E. congruence.
Qed.

Lemma dict_wf_keys (d : dict) : dict_wf d = true -> nodupb (map fst d) = true.
Proof.
  unfold dict_wf. cbn [value_wf]. intros H.
  now apply andb_true_iff in H as [H _].
Qed.

Lemma dict_wf_inner (d : dict) (k : string) (d' : dict) :
  dict_wf d = true -> dget k d = Some (VDict d') -> dict_wf d' = true.
Proof.
  unfold dict_wf. cbn [value_wf]. intros H Hk.
  apply andb_true_iff in H as [_ H].
  rewrite forallb_forall in H.
  apply aget_in in Hk. exact (H _ Hk).
Qed.

Lemma lookup_path_cons (k k' : string) (p : list string) (d : dict) :
  lookup_path (k :: k' :: p) d =
  match dget k d with
  | Some (VDict d') => lookup_path (k' :: p) d'
  | _ => None
  end.
Proof. reflexivity. Qed.

(** A value that is not a mapping wins over whatever the first mapping
    holds at its path. *)
Lemma merge_later_wins (p : list string) (v : value) :
  is_dict v = false ->
  forall dict2 dict1,
    dict_wf dict2 = true ->
    lookup_path p dict2 = Some v ->
    lookup_path p (_deep_merge dict1 dict2) = Some v.
Proof.
  intros Hv. induction p as [|k p IH]; intros dict2 dict1 Hwf Hl.
  - discriminate.
  - destruct p as [|k' p].
    + cbn [lookup_path] in *.
      rewrite (dget_merge_present _ _ _ dict1 (dict_wf_keys _ Hwf) Hl).
      unfold merged_value. destruct (dget k dict1) as [[]|]; auto.
      destruct v; auto. discriminate.
    + rewrite lookup_path_cons in *.
      destruct (dget k dict2) as [[| | | | | |d2']|] eqn:E2; try discriminate.
      rewrite (dget_merge_present _ _ _ dict1 (dict_wf_keys _ Hwf) E2).
      pose proof (dict_wf_inner _ _ _ Hwf E2) as Hwf'.
      unfold merged_value. destruct (dget k dict1) as [[| | | | | |d1k]|]; auto.
Qed.

Lemma untouched_lookup (p : list string) :
  forall d, p <> [] -> untouched p d = true -> lookup_path p d = None.
Proof.
  induction p as [|k p IH]; intros d Hne Hu; [congruence|].
  destruct p as [|k' p].
  - cbn [lookup_path untouched] in *.
    destruct (dget k d) as [[]|]; auto; discriminate.
  - rewrite lookup_path_cons. cbn [untouched] in Hu.
    destruct (dget k d) as [[| | | | | |d']|]; auto; try discriminate.
    apply IH; [discriminate | exact Hu].
Qed.

(** A mapping that leaves a path alone leaves what the first mapping holds
    there. *)
Lemma merge_untouched (p : list string) :
  forall dict2 dict1,
    dict_wf dict2 = true ->
    untouched p dict2 = true ->
    lookup_path p (_deep_merge dict1 dict2) = lookup_path p dict1.
Proof.
  induction p as [|k p IH]; intros dict2 dict1 Hwf Hu.
  - reflexivity.
  - cbn [untouched] in Hu.
    destruct (dget k dict2) as [v2|] eqn:E2.
    + destruct v2 as [| | | | | |d2']; try discriminate.
      destruct p as [|k' p]; [discriminate|].
      rewrite !lookup_path_cons.
      rewrite (dget_merge_present _ _ _ dict1 (dict_wf_keys _ Hwf) E2).
      pose proof (dict_wf_inner _ _ _ Hwf E2) as Hwf'.
      unfold merged_value.
      destruct (dget k dict1) as [[| | | | | |d1k]|];
        try (apply untouched_lookup; [discriminate | exact Hu]).
      now apply IH.
    + assert (Hg : dget k (_deep_merge dict1 dict2) = dget k dict1)
        by now apply dget_merge_absent.
      destruct p as [|k' p].
      * exact Hg.
      * rewrite !lookup_path_cons. now rewrite Hg.
Qed.

(** ** Fragments built by the loaders are well formed *)

Lemma keys_aset_other (A : Type) (x k : string) (v : A) (d : list (string * A)) :
  x <> k ->
  existsb (String.eqb x) (map fst (aset k v d)) =
  existsb (String.eqb x) (map fst d).
Proof.
  intros Hne. induction d as [|[k' v'] d IH]; simpl.
  - apply String.eqb_neq in Hne. now rewrite Hne.
  - destruct (String.eqb k k'); simpl; [reflexivity | now rewrite IH].
Qed.

Lemma nodupb_aset (A : Type) (k : string) (v : A) (d : list (string * A)) :
  nodupb (map fst d) = true -> nodupb (map fst (aset k v d)) = true.
Proof.
  induction d as [|[k' v'] d IH]; simpl; auto.
  intros H. apply andb_true_iff in H as [Hf Hn].
  destruct (String.eqb k k') eqn:E; simpl.
  - now rewrite Hf, Hn.
  - rewrite keys_aset_other.
    + now rewrite Hf, IH.
    + apply String.eqb_neq in E. congruence.
Qed.

Lemma forallb_aset (A : Type) (P : A -> bool) (k : string) (v : A)
    (d : list (string * A)) :
  P v = true ->
  forallb (fun kv => P (snd kv)) d = true ->
  forallb (fun kv => P (snd kv)) (aset k v d) = true.
Proof.
  intros Hv. induction d as [|[k' v'] d IH]; simpl.
  - now rewrite Hv.
  - intros H. apply andb_true_iff in H as [H1 H2].
    destruct (String.eqb k k'); simpl.
    + now rewrite Hv, H2.
    + now rewrite H1, IH.
Qed.

Lemma dict_wf_dset (k : string) (v : value) (d : dict) :
  value_wf v = true -> dict_wf d = true -> dict_wf (dset k v d) = true.
Proof.
  unfold dict_wf, dset. cbn [value_wf]. intros Hv H.
  apply andb_true_iff in H as [H1 H2]. apply andb_true_iff. split.
  - now apply nodupb_aset.
  - now apply (forallb_aset value value_wf).
Qed.

Lemma dict_wf_nil : dict_wf [] = true.
Proof. reflexivity. Qed.

Lemma dict_wf_add_parts (p : list string) (v : value) :
  value_wf v = true ->
  forall d, dict_wf d = true -> dict_wf (add_parts d p v) = true.
Proof.
  intros Hv. induction p as [|k p IH]; intros d Hd; auto.
  destruct p as [|k' p].
  - now apply dict_wf_dset.
  - change (add_parts d (k :: k' :: p) v)
      with (dset k (VDict (add_parts
              match dget k d with Some (VDict d0) => d0 | _ => [] end
              (k' :: p) v)) d).
    apply dict_wf_dset; auto.
    change (dict_wf (add_parts
              match dget k d with Some (VDict d0) => d0 | _ => [] end
              (k' :: p) v) = true).
    apply IH.
    destruct (dget k d) as [[| | | | | |d0]|] eqn:E; try apply dict_wf_nil.
    exact (dict_wf_inner _ _ _ Hd E).
Qed.

Lemma dict_wf_add_fullname (d d' : dict) (n : string) (v : value) (sep : string) :
  value_wf v = true -> dict_wf d = true ->
  _add_fullname_as_nested_dict d n v sep = Ok d' -> dict_wf d' = true.
Proof.
  unfold _add_fullname_as_nested_dict. intros Hv Hd.
  destruct (split sep n) as [parts|e]; cbn [bind]; [|discriminate].
  intros [= <-]. now apply dict_wf_add_parts.
Qed.

(** An invariant of the loop state holds after the loop. *)
Lemma for_each_invariant (A S : Type) (I : S -> Prop)
    (body : S -> A -> result S) (l : list A) :
  (forall s a s', I s -> body s a = Ok s' -> I s') ->
  forall s s', I s -> for_each body l s = Ok s' -> I s'.
Proof.
  intros Hbody. induction l as [|a l IH]; intros s s' Hs; simpl.
  - now intros [= <-].
  - destruct (body s a) as [s1|e] eqn:E; cbn [bind]; [|discriminate].
    apply IH. exact (Hbody _ _ _ Hs E).
Qed.

Lemma load_cli_wf (limit : nat) (env : schema) (cls : string)
    (argv : list string) (prefix sep : string) (d : dict) :
  _load_cli limit env cls argv prefix sep = Ok d -> dict_wf d = true.
Proof.
  unfold _load_cli, load_cli_run.
  destruct (_get_possible_cli_argsname limit env cls) as [names|e];
    cbn [bind]; [|discriminate].
  match goal with
  | |- context [for_each ?b ?l ?s] => destruct (for_each b l s) as [r|e] eqn:E
  end; cbn [bind]; [|discriminate].
  intros [= <-].
  eapply (for_each_invariant _ _ (fun st => dict_wf (cli_config st) = true));
    [ | | exact E]; [|exact dict_wf_nil].
  intros s a s' Hs. unfold cli_step.
  destruct (match_equal a) as [[key val]|]; [|intros [= <-]; exact Hs].
  match goal with |- context [find ?f ?l] => destruct (find f l) as [fn|] end;
    [|intros [= <-]; exact Hs].
  destruct (_add_fullname_as_nested_dict _ _ _ _) as [cfg|e] eqn:Ea;
    cbn [bind]; [|discriminate].
  intros [= <-]. cbn [cli_config].
  exact (dict_wf_add_fullname _ _ _ (VStr val) _ eq_refl Hs Ea).
Qed.

Lemma load_env_wf (limit : nat) (env : schema) (cls : string)
    (environ : list (string * string)) (prefix sep : string) (d : dict) :
  _load_env limit env cls environ prefix sep = Ok d -> dict_wf d = true.
Proof.
  unfold _load_env.
  destruct (_get_possible_cli_argsname limit env cls) as [names|e];
    cbn [bind]; [|discriminate].
  intros E.
  eapply (for_each_invariant _ _ (fun st => dict_wf st = true));
    [ | | exact E]; [|exact dict_wf_nil].
  intros s a s' Hs. unfold env_step.
  destruct (aget _ environ) as [val|]; [|intros [= <-]; exact Hs].
  intros Ea. exact (dict_wf_add_fullname _ _ _ (VStr val) _ eq_refl Hs Ea).
Qed.

(** ** Precedence *)

(** The fragments that reach the merge are combined from low to high
    precedence: the embedded data, the TOML fragment, the JSON fragment, the
    command-line fragment and the environment fragment.  For a field path
    and a value that is not itself a mapping: the value of the environment
    wins; when the environment leaves the path alone the value of the
    command line wins; when that leaves it alone too, the value of the JSON
    fragment, then that of the TOML fragment, then the embedded data. *)
Lemma fragments_precedence
    (w : world) (cls : string) (a : load_args)
    (d toml json cli env : dict) (p : list string) (v : value) :
  load_sources w cls a = Ok (toml, VDict json, cli, env) ->
  data a = VDict d ->
  dict_wf d = true -> dict_wf toml = true -> dict_wf json = true ->
  is_dict v = false ->
  exists merged,
    load_merged w cls a = Ok merged /\
    (lookup_path p env = Some v -> lookup_path p merged = Some v) /\
    (untouched p env = true -> lookup_path p cli = Some v ->
     lookup_path p merged = Some v) /\
    (untouched p env = true -> untouched p cli = true ->
     lookup_path p json = Some v -> lookup_path p merged = Some v) /\
    (untouched p env = true -> untouched p cli = true ->
     untouched p json = true ->
     lookup_path p toml = Some v -> lookup_path p merged = Some v) /\
    (untouched p env = true -> untouched p cli = true ->
     untouched p json = true -> untouched p toml = true ->
     lookup_path p d = Some v -> lookup_path p merged = Some v).
Proof.
  intros Hsrc Hdata Hd Ht Hj Hv.
  assert (Hc : dict_wf cli = true /\ dict_wf env = true).
  { revert Hsrc. unfold load_sources.
    destruct (match nonempty (toml_files a) with
              | Some fl => _load_toml (toml_fs w) fl | None => Ok [] end);
      cbn [bind]; [|discriminate].
    destruct (match nonempty (json_files a) with
              | Some fl => _load_json (json_fs w) fl | None => Ok (VDict []) end);
      cbn [bind]; [|discriminate].
    destruct (load_cli a).
    - destruct (_load_cli _ _ _ _ _ _) as [c|] eqn:Ec; cbn [bind]; [|discriminate].
      destruct (load_env a).
      + destruct (_load_env _ _ _ _ _ _) as [e|] eqn:Ee; cbn [bind]; [|discriminate].
        intros [= -> -> -> ->]. split.
        * exact (load_cli_wf _ _ _ _ _ _ _ Ec).
        * exact (load_env_wf _ _ _ _ _ _ _ Ee).
      + cbn [bind]. intros [= -> -> -> <-]. split.
        * exact (load_cli_wf _ _ _ _ _ _ _ Ec).
        * reflexivity.
    - cbn [bind]. destruct (load_env a).
      + destruct (_load_env _ _ _ _ _ _) as [e|] eqn:Ee; cbn [bind]; [|discriminate].
        intros [= -> -> <- ->]. split.
        * reflexivity.
        * exact (load_env_wf _ _ _ _ _ _ _ Ee).
      + cbn [bind]. intros [= -> -> <- <-]. split; reflexivity. }
  destruct Hc as [Hc He].
  unfold load_merged. rewrite Hsrc. cbn [bind]. rewrite Hdata.
  unfold merged_config, _deep_merge_obj. cbn [bind].
  eexists. split; [reflexivity|].
  repeat split; intros.
  - now apply merge_later_wins.
  - rewrite merge_untouched by assumption. now apply merge_later_wins.
  - rewrite !merge_untouched by assumption. now apply merge_later_wins.
  - rewrite !merge_untouched by assumption. now apply merge_later_wins.
  - rewrite !merge_untouched by assumption. now apply merge_later_wins.
Qed.

Lemma fragments_precedence_demo :
  exists merged,
    load_merged demo_world "AppConfig" demo_args = Ok merged /\
    lookup_path ["port"] merged = Some (VStr "9090").
Proof.
  destruct (fragments_precedence demo_world "AppConfig" demo_args
              [("version", VStr "0.1 alpha")]
              [("port", VInt 8000); ("project_name", VStr "demo")]
              []
              [("user", VDict [("PassWord", VStr "secret")]);
               ("port", VStr "7070")]
              [("port", VStr "9090")]
              ["port"] (VStr "9090")
              eq_refl eq_refl eq_refl eq_refl eq_refl eq_refl)
    as [merged [Hm [Henv _]]].
  exists merged. split; [exact Hm | exact (Henv eq_refl)].
Qed.

(** C1 fails on the code: the TOML files rank above the embedded data, yet a
    value that only the first of two files sets does not reach the merge,
    and the validator receives the value of the embedded data. *)
Theorem load_data_outranks_earlier_file
    (cs : schema) (argv : list string) (environ : list (string * string))
    (jfs : string -> file_state value)
    (validator : string -> dict -> construct_outcome)
    (limit : nat) (cls : string) (ro : bool) (pfx : string) :
  load_merged
    (mkWorld cs argv environ
       (fun f => if String.eqb f "a.toml"
                 then Decodes [("port", VInt 8000)]
                 else Decodes [("debug_mode", VBool true)])
       jfs validator limit)
    cls
    (mkArgs (Some ["a.toml"; "b.toml"]) None false false
       (VDict [("port", VInt 1)]) ro pfx)
  = Ok [("port", VInt 1); ("debug_mode", VBool true)].
Proof. reflexivity. Qed.

(** ** Totality of [load] *)

(** C2 fails on the code: with the declared default of [data], which is
    [None], no call of [load] returns; whatever the schema, the arguments,
    the environment and the files are, an exception leaves [load]. *)
Theorem load_without_data_raises
    (w : world) (cls : string)
    (toml json : option (list string)) (use_env use_cli ro : bool)
    (pfx : string) (st : class_state) :
  raises (load w cls (mkArgs toml json use_env use_cli VNone ro pfx) st).
Proof.
  unfold raises, load, load_merged.
  destruct (load_sources _ _ _) as [[[[t j] c] e]|ex]; cbn [bind].
  - exists AttributeError. reflexivity.
  - exists ex. reflexivity.
Qed.

(** A TOML file that does not decode ends [load] with the decoder's error,
    where the older loader skips the file. *)
Lemma load_malformed_toml_raises
    (w : world) (cls : string) (a : load_args) (st : class_state)
    (f : string) (rest : list string) :
  toml_files a = Some (f :: rest) ->
  toml_fs w f = Malformed ->
  load w cls a st = Raise TOMLDecodeError /\
  Legacy._load_toml (toml_fs w) (f :: rest) = Legacy._load_toml (toml_fs w) rest.
Proof.
  intros Hf Hm. split.
  - unfold load, load_merged, load_sources. rewrite Hf. cbn [nonempty].
    unfold _load_toml. cbn [load_toml_loop]. rewrite Hm. reflexivity.
  - unfold Legacy._load_toml. cbn [Legacy.load_file_loop]. now rewrite Hm.
Qed.

(** ** Files *)

(** C6 fails on the code: of two files that both decode, only the second
    one is kept; a key that the first file alone sets is lost. *)
Theorem load_toml_keeps_last_file_only (first second : dict) :
  _load_toml
    (fun f => if String.eqb f "a.toml" then Decodes first else Decodes second)
    ["a.toml"; "b.toml"]
  = Ok second.
Proof. reflexivity. Qed.

Lemma load_json_keeps_last_file_only (first second : value) :
  _load_json
    (fun f => if String.eqb f "a.json" then Decodes first else Decodes second)
    ["a.json"; "b.json"]
  = Ok second.
Proof. reflexivity. Qed.

Lemma load_toml_first_key_lost :
  exists fragment,
    _load_toml
      (fun f => if String.eqb f "a.toml"
                then Decodes [("port", VInt 8000)]
                else Decodes [("debug_mode", VBool true)])
      ["a.toml"; "b.toml"] = Ok fragment /\
    lookup_path ["port"] fragment = None /\
    lookup_path ["port"]
      (_deep_merge [("port", VInt 8000)] [("debug_mode", VBool true)])
    = Some (VInt 8000).
Proof. eexists. repeat split. Qed.

(** ** Termination of the schema walk *)

(** C7 fails on the code: on two classes whose lists refer to each other the
    walk does not end within any recursion limit. *)
Theorem walk_mutual_schema_never_returns (limit : nat) (_path : string) :
  _get_attr_metadata limit mutual_schema "A" _path = Raise RecursionError /\
  _get_attr_metadata limit mutual_schema "B" _path = Raise RecursionError.
Proof.
  revert _path. induction limit as [|n IH]; intros _path.
  - split; reflexivity.
  - split.
    + cbn [_get_attr_metadata]. unfold mutual_schema, model_fields.
      cbn. unfold walk_item. cbn.
      destruct (IH (f_fullname _path "bs")) as [_ HB].
      unfold mutual_schema in HB. rewrite HB. reflexivity.
    + cbn [_get_attr_metadata]. unfold mutual_schema, model_fields.
      cbn. unfold walk_item. cbn.
      destruct (IH (f_fullname _path "as_")) as [HA _].
      unfold mutual_schema in HA. rewrite HA. reflexivity.
Qed.

(** The guarded case: a class with a list of its own kind is walked without
    entering the list. *)
Lemma walk_tree_schema :
  match get_metadata 1 tree_schema "Node" with
  | Ok ms => map fullname ms = ["children"; "label"]
  | Raise _ => False
  end.
Proof. reflexivity. Qed.

(** ** Sorting the fields *)

Lemma insert_item_perm (x : string * FieldInfo) (l : list (string * FieldInfo)) :
  Permutation (insert_item x l) (x :: l).
Proof.
  induction l as [|y l IH]; simpl; auto.
  destruct (String.leb (fst x) (fst y)); auto.
  rewrite IH. apply perm_swap.
Qed.

Lemma sorted_perm (l : list (string * FieldInfo)) : Permutation (sorted l) l.
Proof.
  induction l as [|x l IH]; simpl; auto.
  rewrite insert_item_perm. now constructor.
Qed.

Lemma sorted_in (x : string * FieldInfo) (l : list (string * FieldInfo)) :
  In x (sorted l) <-> In x l.
Proof.
  split; apply Permutation_in; [|symmetry]; apply sorted_perm.
Qed.

(** ** Annotations *)

(** A model class is no alias of a list. *)
Lemma model_not_list (t : annotation) (sub : string) :
  has_model_fields t = Some sub -> list_arg t = None.
Proof. destruct t; try discriminate. reflexivity. Qed.

(** ** Freezing *)

Lemma is_frozen_aset_same (st : class_state) (m : string) :
  is_frozen (aset m frozen_config st) m = true.
Proof. unfold is_frozen. now rewrite aget_aset_eq. Qed.

Lemma is_frozen_aset_mono (st : class_state) (m c : string) :
  is_frozen st c = true -> is_frozen (aset m frozen_config st) c = true.
Proof.
  intros H. destruct (string_dec m c) as [->|Hne].
  - apply is_frozen_aset_same.
  - unfold is_frozen in *. now rewrite aget_aset_neq.
Qed.

Lemma freeze_item_sound (env : schema)
    (rec : string -> class_state -> result class_state) (m : string)
    (st st' : class_state) (item : string * FieldInfo) :
  freezes env rec ->
  freeze_item rec m st item = Ok st' ->
  (forall c, is_frozen st c = true -> is_frozen st' c = true) /\
  (forall d, field_target (fi_annotation (snd item)) = Some d ->
     d = m \/ forall c, nested_class env d c -> is_frozen st' c = true).
Proof.
  intros Hrec. unfold freeze_item, field_target.
  destruct (has_model_fields (fi_annotation (snd item))) as [n|] eqn:Hmodel.
  - rewrite (model_not_list _ _ Hmodel).
    destruct (rec n st) as [s1|] eqn:E; cbn [bind]; [|discriminate].
    intros [= <-]. destruct (Hrec _ _ _ E) as [Hm Hc].
    split; auto. intros d [= <-]. right. exact Hc.
  - cbn [bind].
    destruct (list_arg (fi_annotation (snd item))) as [element|];
      [|intros [= <-]; split; [auto | discriminate]].
    destruct (has_model_fields element) as [n|];
      [|intros [= <-]; split; [auto | discriminate]].
    destruct (String.eqb n m) eqn:En; cbn [negb].
    + intros [= <-]. split; auto. intros d [= <-]. left.
      now apply String.eqb_eq.
    + intros E. destruct (Hrec _ _ _ E) as [Hm Hc].
      split; auto. intros d [= <-]. right. exact Hc.
Qed.

Lemma freeze_loop_sound (env : schema)
    (rec : string -> class_state -> result class_state) (m : string) :
  freezes env rec ->
  forall (items : list (string * FieldInfo)) (st st' : class_state),
    for_each (freeze_item rec m) items st = Ok st' ->
    (forall c, is_frozen st c = true -> is_frozen st' c = true) /\
    (forall item d,
        In item items ->
        field_target (fi_annotation (snd item)) = Some d ->
        d = m \/ forall c, nested_class env d c -> is_frozen st' c = true).
Proof.
  intros Hrec. induction items as [|a items IH]; intros st st' H.
  - simpl in H. injection H as <-. split; [auto|]. intros ? ? Hin. destruct Hin.
  - simpl in H.
    destruct (freeze_item rec m st a) as [s1|] eqn:E; cbn [bind] in H;
      [|discriminate].
    destruct (freeze_item_sound _ _ _ _ _ _ Hrec E) as [Hm1 Ht1].
    destruct (IH _ _ H) as [Hm2 Ht2].
    split; [auto|].
    intros item d [<-|Hin] Ht.
    + destruct (Ht1 _ Ht) as [->|Hc]; [now left | right; auto].
    + eauto.
Qed.

(** When [_set_frozen] returns, nothing was unfrozen and the class with all
    the classes nested in it is frozen. *)
Lemma set_frozen_sound (env : schema) (limit : nat) :
  freezes env (_set_frozen limit env).
Proof.
  induction limit as [|n IH]; intros m st st' H.
  - discriminate.
  - cbn [_set_frozen] in H.
    destruct (for_each _ _ st) as [s1|] eqn:E; cbn [bind] in H; [|discriminate].
    injection H as <-.
    destruct (freeze_loop_sound _ _ m IH _ _ _ E) as [Hmono Htargets].
    split.
    + intros c Hc. apply is_frozen_aset_mono. auto.
    + intros c Hn.
      assert (G : forall x e, nested_class env x e -> x = m ->
                  is_frozen (aset m frozen_config s1) e = true).
      { clear c Hn. intros x e Hn. induction Hn as [x|x d e Hr Hn IHn].
        - intros ->. apply is_frozen_aset_same.
        - intros ->. destruct Hr as (f & info & Hin & Ht).
          apply sorted_in in Hin.
          destruct (Htargets (f, info) d Hin Ht) as [->|Hc].
          + now apply IHn.
          + apply is_frozen_aset_mono. now apply Hc. }
      exact (G _ _ Hn eq_refl).
Qed.

(** What [load] answers when it returns an instance. *)
Lemma load_instance
    (w : world) (cls : string) (a : load_args) (st st' : class_state)
    (inst : pyobj) :
  load w cls a st = Ok (Some inst, st') ->
  (exists attrs, inst = PModel cls attrs) /\
  (if readonly a
   then _set_frozen (recursion_limit w) (classes w) cls st = Ok st'
   else st' = st).
Proof.
  unfold load. destruct (load_merged w cls a) as [merged|]; cbn [bind];
    [|discriminate].
  unfold finish_load. destruct (construct w cls merged) as [attrs|locs|e].
  - destruct (readonly a).
    + destruct (_set_frozen _ _ _ _) as [s1|]; cbn [bind]; [|discriminate].
      intros [= <- <-]. eauto.
    + cbn [bind]. intros [= <- <-]. eauto.
  - destruct (for_each error_line locs []); cbn [bind]; discriminate.
  - destruct e; discriminate.
Qed.

(** C8 as stated fails on the code: the flag is set on the class and stays;
    an instance loaded without freezing, after an earlier load froze the
    class, is an instance of a frozen class and refuses the assignment. *)
Lemma unfrozen_load_after_frozen_load :
  exists inst1 st1 inst2 st2,
    load full_world "AppConfig" demo_args [] = Ok (Some inst1, st1) /\
    load full_world "AppConfig"
      (mkArgs (toml_files demo_args) (json_files demo_args) true true
         (data demo_args) false "TSC_") st1 = Ok (Some inst2, st2) /\
    is_frozen st2 "AppConfig" = true /\
    setattr st2 inst2 "port" (PVal (VInt 1)) = FrozenInstanceError.
Proof. do 4 eexists. repeat split. Qed.

(** C8 (amended): after a load that requested freezing succeeds, the class
    of the returned instance, of every object nested in it through a field
    typed by a model and of every element of its lists of objects is marked
    frozen, so that an assignment to any field of such an object fails with
    the immutability error; after a load that did not request freezing the
    marks are what they were before the call, so that the assignment
    succeeds exactly on the objects whose class was not frozen before (the
    mark belongs to the class and is never cleared). *)
Theorem load_frozen_rejects_assignment
    (w : world) (cls : string) (a : load_args) (st st' : class_state)
    (inst : pyobj) :
  load w cls a st = Ok (Some inst, st') ->
  (exists attrs, inst = PModel cls attrs) /\
  (readonly a = true ->
   forall c,
     nested_class (classes w) cls c ->
     is_frozen st' c = true /\
     forall attrs attr v,
       setattr st' (PModel c attrs) attr v = FrozenInstanceError) /\
  (readonly a = false ->
   st' = st /\
   forall c attrs attr v,
     setattr st' (PModel c attrs) attr v
     = if is_frozen st c then FrozenInstanceError
       else Assigned (PModel c (aset attr v attrs))).
Proof.
  intros H. destruct (load_instance _ _ _ _ _ _ H) as [Hinst Hst].
  split; [exact Hinst|]. split.
  - intros Hro c Hn. rewrite Hro in Hst.
    destruct (set_frozen_sound _ _ _ _ _ Hst) as [_ Hc].
    split; [exact (Hc _ Hn)|].
    intros attrs attr v. unfold setattr. now rewrite (Hc _ Hn).
  - intros Hro. rewrite Hro in Hst. subst st'. split; [reflexivity|].
    reflexivity.
Qed.

Lemma load_frozen_rejects_assignment_witness :
  exists inst st',
    load full_world "AppConfig" demo_args [] = Ok (Some inst, st') /\
    is_frozen st' "AppConfig__User" = true /\
    setattr st' (PModel "AppConfig__User" []) "PassWord" (PVal (VStr "x"))
    = FrozenInstanceError.
Proof.
  eexists. eexists. split; [reflexivity|].
  assert (Hn : nested_class demo_schema "AppConfig" "AppConfig__User").
  { apply nested_step with (d := "AppConfig__User"); [|apply nested_here].
    exists "user",
      (required (AModel "__main__.AppConfig__User" "AppConfig__User")
         "Current logged in user..").
    split; [|reflexivity].
    right. right. left. reflexivity. }
  destruct (proj1 (proj2 (load_frozen_rejects_assignment full_world
                            "AppConfig" demo_args [] _ _ eq_refl))
              eq_refl "AppConfig__User" Hn) as [Hf Hs].
  split; [exact Hf | apply Hs].
Defined.

(** ** The shape of the catalogue *)

Lemma walk_item_expansion
    (rec : string -> string -> result (list ConfigAttrMetadata))
    (m _path : string) (f : list ConfigAttrMetadata)
    (item : string * FieldInfo) :
  walk_item rec m _path f item =
  (nested <- expansion rec m _path item ;;
   Ok (f ++ metadata_of m _path item :: nested)).
Proof.
  destruct item as [f_name info]. unfold walk_item, expansion, metadata_of.
  cbn [raw_type fullname fst snd].
  destruct (has_model_fields (fi_annotation info)) as [n|] eqn:Hmodel.
  - rewrite (model_not_list _ _ Hmodel).
    destruct (rec n (f_fullname _path f_name)) as [more|e]; cbn [bind];
      [|reflexivity].
    now rewrite <- app_assoc.
  - cbn [bind].
    destruct (list_arg (fi_annotation info)) as [element|]; [|reflexivity].
    destruct (has_model_fields element) as [n|]; [|reflexivity].
    destruct (String.eqb n m); cbn [negb bind]; [reflexivity|].
    destruct (rec n (f_fullname _path f_name)) as [more|e]; cbn [bind];
      [|reflexivity].
    now rewrite <- app_assoc.
Qed.

(** What the expansion of a field is: nothing, or the catalogue of the class
    the walk enters through it. *)
Lemma expansion_cases
    (env : schema)
    (rec : string -> string -> result (list ConfigAttrMetadata))
    (m _path f : string) (info : FieldInfo) :
  In (f, info) (model_fields env m) ->
  expansion rec m _path (f, info) = Ok [] \/
  exists sub,
    follows env m sub /\ field_target (fi_annotation info) = Some sub /\
    expansion rec m _path (f, info) = rec sub (f_fullname _path f).
Proof.
  intros Hin. unfold expansion, field_target. cbn [fst snd].
  destruct (has_model_fields (fi_annotation info)) as [n|] eqn:Hmodel.
  - right. exists n. split; [|auto].
    exists f, info. split; [exact Hin | now left].
  - destruct (list_arg (fi_annotation info)) as [element|] eqn:Hl;
      [|now left].
    destruct (has_model_fields element) as [n|] eqn:He; [|now left].
    destruct (String.eqb n m) eqn:En; [now left|].
    right. exists n. split; [|auto].
    exists f, info. split; [exact Hin|]. right. exists element.
    apply String.eqb_neq in En. auto.
Qed.

Lemma expansion_ext
    (rec rec' : string -> string -> result (list ConfigAttrMetadata))
    (m _path : string) (item : string * FieldInfo) :
  (forall sub p, rec sub p = rec' sub p) ->
  expansion rec m _path item = expansion rec' m _path item.
Proof.
  intros H. unfold expansion.
  destruct (has_model_fields (fi_annotation (snd item))); auto.
  destruct (list_arg (fi_annotation (snd item))) as [element|]; auto.
  destruct (has_model_fields element); auto.
  destruct (String.eqb _ m); auto.
Qed.

Lemma for_each_walk
    (rec rec' : string -> string -> result (list ConfigAttrMetadata))
    (m _path : string) :
  (forall sub p, rec sub p = rec' sub p) ->
  forall (items : list (string * FieldInfo)) (f : list ConfigAttrMetadata),
    for_each (walk_item rec m _path) items f =
    (others <- catalogue_items rec' m _path items ;; Ok (f ++ others)).
Proof.
  intros Hrec. induction items as [|a items IH]; intros f.
  - cbn. now rewrite app_nil_r.
  - cbn [for_each catalogue_items]. rewrite walk_item_expansion.
    rewrite (expansion_ext rec rec' _ _ _ Hrec).
    destruct (expansion rec' m _path a) as [nested|e]; cbn [bind]; auto.
    rewrite IH.
    destruct (catalogue_items rec' m _path items) as [others|e]; cbn [bind];
      auto.
    now rewrite <- app_assoc.
Qed.

(** The walk builds the catalogue the specification describes. *)
Lemma walk_is_catalogue (env : schema) (limit : nat) :
  forall m _path,
    _get_attr_metadata limit env m _path = catalogue limit env m _path.
Proof.
  induction limit as [|n IH]; intros m _path; [reflexivity|].
  cbn [_get_attr_metadata catalogue].
  rewrite (for_each_walk _ _ m _path IH).
  destruct (catalogue_items _ _ _ _); reflexivity.
Qed.

(** The order of strings *)

Lemma ascii_compare_refl (a : ascii) : Ascii.compare a a = Eq.
Proof. unfold Ascii.compare. apply N.compare_refl. Qed.

Lemma string_leb_trans (a b c : string) :
  String.leb a b = true -> String.leb b c = true -> String.leb a c = true.
Proof.
  unfold String.leb.
  revert b c. induction a as [|x a IH]; intros [|y b] [|z c]; cbn;
    try discriminate; auto.
  unfold Ascii.compare.
  destruct (N.compare_spec (N_of_ascii x) (N_of_ascii y)) as [Exy|Lxy|Gxy];
    destruct (N.compare_spec (N_of_ascii y) (N_of_ascii z)) as [Eyz|Lyz|Gyz];
    try discriminate;
    destruct (N.compare_spec (N_of_ascii x) (N_of_ascii z)) as [Exz|Lxz|Gxz];
    auto; try lia.
  apply IH.
Qed.

Lemma insert_item_sorted (x : string * FieldInfo) (l : list (string * FieldInfo)) :
  StronglySorted name_le l -> StronglySorted name_le (insert_item x l).
Proof.
  induction l as [|y l IH]; intros Hs; simpl.
  - repeat constructor.
  - inversion Hs as [|? ? Hl Hy]; subst.
    destruct (String.leb (fst x) (fst y)) eqn:E.
    + constructor; auto. constructor; auto.
      eapply Forall_impl; [|exact Hy].
      intros z Hz. unfold name_le in *. eapply string_leb_trans; eauto.
    + constructor; auto.
      assert (Hyx : name_le y x).
      { unfold name_le. destruct (String.leb_total (fst x) (fst y)); congruence. }
      apply (Permutation_Forall (x := x :: l)).
      * symmetry. apply insert_item_perm.
      * constructor; auto.
Qed.

Lemma sorted_sorted (l : list (string * FieldInfo)) :
  StronglySorted name_le (sorted l).
Proof.
  induction l as [|x l IH]; simpl; [constructor|].
  now apply insert_item_sorted.
Qed.

(** ** Distinct full names *)

Lemma plain_name_parts (s : string) :
  plain_name s = true ->
  s <> "" /\ contains "__" s = false /\ ends_with "_"%char s = false.
Proof.
  unfold plain_name, field_seperator. intros H.
  apply andb_true_iff in H as [H H3]. apply andb_true_iff in H as [H1 H2].
  apply negb_true_iff in H1, H2, H3. apply String.eqb_neq in H1. auto.
Qed.

Lemma join_snoc (segs : list string) (x : string) :
  segs <> [] -> join (segs ++ [x]) = (join segs ++ "__" ++ x)%string.
Proof.
  induction segs as [|s segs IH]; intros Hne; [congruence|].
  destruct segs as [|s' segs].
  - reflexivity.
  - change (join ((s :: s' :: segs) ++ [x]))
      with (s ++ "__" ++ join ((s' :: segs) ++ [x]))%string.
    rewrite IH by discriminate.
    change (join (s :: s' :: segs)) with (s ++ "__" ++ join (s' :: segs))%string.
    now rewrite !append_assoc.
Qed.

(** The joined path of [good] names, none of which is empty. *)
Lemma join_nonempty_good (good : string -> bool) (segs : list string) :
  (forall s, good s = true -> s <> "") ->
  segs <> [] -> Forall (fun s => good s = true) segs -> join segs <> "".
Proof.
  intros Hgood. destruct segs as [|s segs]; intros Hne Hp; [congruence|].
  inversion Hp as [|? ? Hs _]; subst.
  apply Hgood in Hs.
  destruct s; [congruence|]. destruct segs; discriminate.
Qed.

(** The full name of a field is the joined path to it. *)
Lemma f_fullname_join_good (good : string -> bool) (segs : list string)
    (x : string) :
  (forall s, good s = true -> s <> "") ->
  Forall (fun s => good s = true) segs ->
  f_fullname (join segs) x = join (segs ++ [x]).
Proof.
  intros Hgood Hp. destruct segs as [|s segs].
  - reflexivity.
  - rewrite join_snoc by discriminate.
    unfold f_fullname.
    destruct (join (s :: segs)) eqn:E; [|reflexivity].
    exfalso. revert E.
    apply (join_nonempty_good good); [exact Hgood | discriminate | exact Hp].
Qed.

Lemma plain_name_nonempty (s : string) : plain_name s = true -> s <> "".
Proof. intros H. now apply plain_name_parts in H. Qed.

Lemma join_nonempty (segs : list string) :
  segs <> [] -> plain_path segs -> join segs <> "".
Proof. apply join_nonempty_good. exact plain_name_nonempty. Qed.

Lemma f_fullname_join (segs : list string) (x : string) :
  plain_path segs -> f_fullname (join segs) x = join (segs ++ [x]).
Proof. apply f_fullname_join_good. exact plain_name_nonempty. Qed.

Lemma split_join (q : list string) :
  q <> [] -> plain_path q -> split_go "__" 0 "" (join q) = q.
Proof.
  intros Hne Hp. apply split_concat; auto.
  - eapply Forall_impl; [|exact Hp]. intros s Hs.
    now apply plain_name_parts in Hs.
  - assert (H : Forall (fun s => ends_with "_"%char s = false) q).
    { eapply Forall_impl; [|exact Hp]. intros s Hs.
      now apply plain_name_parts in Hs. }
    clear Hne Hp. induction H as [|s q Hs H IH]; [constructor|].
    destruct q; cbn [removelast]; constructor; auto.
Qed.

Lemma join_injective (q1 q2 : list string) :
  q1 <> [] -> q2 <> [] -> plain_path q1 -> plain_path q2 ->
  join q1 = join q2 -> q1 = q2.
Proof.
  intros N1 N2 P1 P2 E.
  rewrite <- (split_join q1 N1 P1), <- (split_join q2 N2 P2).
  now rewrite E.
Qed.

Lemma NoDup_map_on (A B : Type) (f : A -> B) (l : list A) :
  (forall x y, In x l -> In y l -> f x = f y -> x = y) ->
  NoDup l -> NoDup (map f l).
Proof.
  intros Hinj Hnd. induction Hnd as [|x l Hx Hnd IH]; [constructor|].
  cbn. constructor.
  - intros Hin. apply in_map_iff in Hin as (y & Hy & Hyl).
    assert (y = x) by (apply Hinj; cbn; auto). subst. contradiction.
  - apply IH. intros; apply Hinj; cbn; auto.
Qed.

Section Paths.

Variable good : string -> bool.
Hypothesis good_nonempty : forall s, good s = true -> s <> "".

Lemma expansion_paths
    (rec : string -> string -> result (list ConfigAttrMetadata))
    (m : string) (segs : list string) (item : string * FieldInfo)
    (nested : list ConfigAttrMetadata) :
  rec_paths good rec -> Forall (fun s => good s = true) segs ->
  good (fst item) = true ->
  expansion rec m (join segs) item = Ok nested ->
  exists qs, paths_of good (segs ++ [fst item]) nested qs.
Proof.
  intros Hrec Hp Hn. unfold expansion.
  rewrite (f_fullname_join_good good) by assumption.
  assert (Hp' : Forall (fun s => good s = true) (segs ++ [fst item])).
  { apply Forall_app. split; auto. }
  assert (Hnil : exists qs, paths_of good (segs ++ [fst item]) [] qs).
  { exists []. split; [reflexivity|]. split; [constructor|].
    intros q Hq. destruct Hq. }
  destruct (has_model_fields (fi_annotation (snd item))) as [n|].
  - intros E. exact (Hrec _ _ _ Hp' E).
  - destruct (list_arg (fi_annotation (snd item))) as [element|];
      [|intros [= <-]; exact Hnil].
    destruct (has_model_fields element) as [n|];
      [|intros [= <-]; exact Hnil].
    destruct (String.eqb n m); [intros [= <-]; exact Hnil|].
    intros E. exact (Hrec _ _ _ Hp' E).
Qed.

Lemma items_paths
    (rec : string -> string -> result (list ConfigAttrMetadata))
    (m : string) (segs : list string) :
  rec_paths good rec -> Forall (fun s => good s = true) segs ->
  forall (items : list (string * FieldInfo)) (cat : list ConfigAttrMetadata),
    Forall (fun it => good (fst it) = true) items ->
    NoDup (map fst items) ->
    catalogue_items rec m (join segs) items = Ok cat ->
    exists qs,
      paths_of good segs cat qs /\
      forall q, In q qs -> exists h t, q = h :: t /\ In h (map fst items).
Proof.
  intros Hrec Hp. induction items as [|item items IH]; intros cat Hpl Hnd H.
  - cbn in H. injection H as <-. exists []. split.
    + split; [reflexivity|]. split; [constructor|]. intros q Hq. destruct Hq.
    + intros q Hq. destruct Hq.
  - cbn [catalogue_items] in H.
    inversion Hpl as [|? ? Hitem Hpl']; subst.
    cbn [map] in Hnd. inversion Hnd as [|? ? Hfresh Hnd']; subst.
    destruct (expansion rec m (join segs) item) as [nested|] eqn:En;
      cbn [bind] in H; [|discriminate].
    destruct (catalogue_items rec m (join segs) items) as [others|] eqn:Eo;
      cbn [bind] in H; [|discriminate].
    injection H as <-.
    destruct (expansion_paths _ _ _ _ _ Hrec Hp Hitem En)
      as (qn & Hmapn & Hndn & Hqn).
    destruct (IH _ Hpl' Hnd' eq_refl) as (qo & (Hmapo & Hndo & Hqo) & Hheads).
    exists ([fst item] :: map (cons (fst item)) qn ++ qo). split.
    + split; [|split; [|intros q Hq; split; revert q Hq]].
      * cbn [map]. f_equal.
        { destruct item as [f_name info]. cbn.
          now rewrite (f_fullname_join_good good). }
        rewrite !map_app, map_map. f_equal; auto.
        rewrite Hmapn. apply map_ext. intros q.
        now rewrite <- app_assoc.
      * constructor.
        { intros Hin. apply in_app_or in Hin as [Hin|Hin].
          - apply in_map_iff in Hin as (q & Hq & Hin). injection Hq as ->.
            now destruct (Hqn _ Hin).
          - destruct (Hheads _ Hin) as (h & t & Hq & Hh).
            injection Hq as <- _. contradiction. }
        apply NoDup_app.
        { apply NoDup_map_on; auto. intros x y _ _ E. now injection E. }
        { exact Hndo. }
        { intros q Hin Hin'. apply in_map_iff in Hin as (q' & <- & _).
          destruct (Hheads _ Hin') as (h & t & Hq & Hh).
          injection Hq as <- _. contradiction. }
      * intros q [<-|Hin]; [discriminate|].
        apply in_app_or in Hin as [Hin|Hin]; [|now apply Hqo].
        apply in_map_iff in Hin as (q' & <- & _). discriminate.
      * intros q [<-|Hin]; [repeat constructor; exact Hitem|].
        apply in_app_or in Hin as [Hin|Hin]; [|now apply Hqo].
        apply in_map_iff in Hin as (q' & <- & Hin).
        constructor; [exact Hitem | now apply Hqn].
    + intros q [<-|Hin].
      * exists (fst item), []. split; [reflexivity | now left].
      * apply in_app_or in Hin as [Hin|Hin].
        { apply in_map_iff in Hin as (q' & <- & _).
          exists (fst item), q'. split; [reflexivity | now left]. }
        { destruct (Hheads _ Hin) as (h & t & Hq & Hh).
          exists h, t. split; [exact Hq | now right]. }
Qed.

End Paths.

Lemma nodupb_NoDup (l : list string) : nodupb l = true -> NoDup l.
Proof.
  induction l as [|k l IH]; intros H; [constructor|].
  cbn in H. apply andb_true_iff in H as [Hf Hn]. constructor; auto.
  intros Hin. apply negb_true_iff in Hf.
  assert (existsb (String.eqb k) l = true).
  { apply existsb_exists. exists k. split; auto. apply String.eqb_refl. }
  congruence.
Qed.

(** The fields of a class, when every class lists a field once, under a
    [good] name. *)
Lemma good_schema_fields (good : string -> bool) (env : schema) (m : string) :
  forallb
    (fun c => nodupb (map fst (snd c)) && forallb good (map fst (snd c)))
    env = true ->
  Forall (fun it => good (fst it) = true) (sorted (model_fields env m)) /\
  NoDup (map fst (sorted (model_fields env m))).
Proof.
  intros H.
  assert (G : Forall (fun it => good (fst it) = true) (model_fields env m)
              /\ NoDup (map fst (model_fields env m))).
  { unfold model_fields. destruct (aget m env) as [fs|] eqn:E.
    - apply aget_in in E.
      rewrite forallb_forall in H. specialize (H _ E). cbn [snd] in H.
      apply andb_true_iff in H as [H1 H2]. split.
      + rewrite forallb_forall in H2. apply Forall_forall.
        intros it Hit. apply H2. now apply in_map.
      + now apply nodupb_NoDup.
    - split; constructor. }
  destruct G as [G1 G2]. split.
  - eapply Permutation_Forall; [symmetry; apply sorted_perm | exact G1].
  - eapply Permutation_NoDup; [|exact G2].
    apply Permutation_map. symmetry. apply sorted_perm.
Qed.

Lemma plain_schema_fields (env : schema) (m : string) :
  plain_schema env = true ->
  Forall (fun it => plain_name (fst it) = true) (sorted (model_fields env m)) /\
  NoDup (map fst (sorted (model_fields env m))).
Proof. apply good_schema_fields. Qed.

Lemma good_catalogue_paths (good : string -> bool) (env : schema)
    (limit : nat) :
  (forall s, good s = true -> s <> "") ->
  forallb
    (fun c => nodupb (map fst (snd c)) && forallb good (map fst (snd c)))
    env = true ->
  rec_paths good (catalogue limit env).
Proof.
  intros Hgood Hs. induction limit as [|n IH]; intros sub segs cat Hp H.
  - discriminate.
  - cbn [catalogue] in H.
    destruct (good_schema_fields good env sub Hs) as [Hpl Hnd].
    destruct (items_paths good Hgood _ sub segs IH Hp _ _ Hpl Hnd H)
      as (qs & Hqs & _).
    now exists qs.
Qed.

Lemma catalogue_paths (env : schema) (limit : nat) :
  plain_schema env = true -> rec_paths plain_name (catalogue limit env).
Proof. apply good_catalogue_paths. exact plain_name_nonempty. Qed.

Lemma catalogue_fullnames_distinct (limit : nat) (env : schema) (cls : string)
    (cat : list ConfigAttrMetadata) :
  plain_schema env = true ->
  get_metadata limit env cls = Ok cat -> NoDup (map fullname cat).
Proof.
  intros Hs H. unfold get_metadata in H. rewrite walk_is_catalogue in H.
  destruct (catalogue_paths env limit Hs cls [] cat (Forall_nil _) H)
    as (qs & Hmap & Hnd & Hq).
  rewrite Hmap. cbn [app]. apply NoDup_map_on; auto.
  intros x y Hx Hy. apply join_injective; now apply Hq.
Qed.

(** Separable names: a joined path is taken apart in one way only, although
    a name may end in an underscore. *)

Lemma separable_name_parts (s : string) :
  separable_name s = true ->
  admitted_name s = true /\ contains "__" s = false.
Proof.
  unfold separable_name, field_seperator. intros H.
  apply andb_true_iff in H as [H1 H2]. apply negb_true_iff in H2. auto.
Qed.

Lemma separable_name_nonempty (s : string) :
  separable_name s = true -> s <> "".
Proof.
  intros H. apply separable_name_parts in H as [H _]. now destruct s.
Qed.

Lemma contains_sep_cons (c : ascii) (s : string) :
  contains "__" (String c s) = false -> contains "__" s = false.
Proof. cbn [contains]. intros H. now apply orb_false_iff in H. Qed.

Lemma contains_sep_append (a r : string) :
  contains "__" (a ++ "__" ++ r) = true.
Proof.
  induction a as [|c a IH].
  - change ("" ++ "__" ++ r)%string with (String "_" (String "_" r)).
    cbn [contains]. rewrite prefix_sep_cons, prefix_us_cons. reflexivity.
  - change (String c a ++ "__" ++ r)%string
      with (String c (a ++ "__" ++ r)).
    cbn [contains]. rewrite IH. apply orb_true_r.
Qed.

Lemma separator_first (b r r' : string) :
  contains "__" b = false -> admitted_name r = true ->
  ("__" ++ r)%string = (b ++ "__" ++ r')%string -> b = "".
Proof.
  intros Hb Hr E. destruct b as [|c b]; [reflexivity|]. exfalso.
  change (String "_" (String "_" r) = String c (b ++ "__" ++ r')) in E.
  injection E as <- E.
  destruct b as [|d b].
  - change (String "_" r = String "_" (String "_" r')) in E.
    injection E as ->. discriminate.
  - change (String "_" r = String d (b ++ "__" ++ r')) in E.
    injection E as <- _.
    cbn [contains] in Hb. rewrite prefix_sep_cons, prefix_us_cons in Hb.
    discriminate.
Qed.

(** Two joined paths that agree agree on their first names. *)
Lemma segment_cut (a b r r' : string) :
  contains "__" a = false -> contains "__" b = false ->
  admitted_name r = true -> admitted_name r' = true ->
  (a ++ "__" ++ r)%string = (b ++ "__" ++ r')%string -> a = b /\ r = r'.
Proof.
  revert b. induction a as [|c a IH]; intros b Ha Hb Hr Hr' E.
  - pose proof (separator_first b r r' Hb Hr E) as ->.
    split; [reflexivity|]. now injection E.
  - destruct b as [|d b].
    + symmetry in E.
      pose proof (separator_first (String c a) r' r Ha Hr' E). discriminate.
    + change (String c (a ++ "__" ++ r) = String d (b ++ "__" ++ r')) in E.
      injection E as <- E.
      destruct (IH b (contains_sep_cons _ _ Ha) (contains_sep_cons _ _ Hb)
                  Hr Hr' E) as [-> ->].
      auto.
Qed.

Lemma join_cons (s s' : string) (q : list string) :
  join (s :: s' :: q) = (s ++ "__" ++ join (s' :: q))%string.
Proof. reflexivity. Qed.

Lemma join_admitted (q : list string) :
  q <> [] -> Forall (fun s => separable_name s = true) q ->
  admitted_name (join q) = true.
Proof.
  destruct q as [|s q]; intros Hne Hq; [congruence|].
  inversion Hq as [|? ? Hs _]; subst.
  apply separable_name_parts in Hs as [Hs _].
  destruct s as [|c s]; [discriminate|].
  destruct q; exact Hs.
Qed.

Lemma join_injective_separable (q1 : list string) :
  forall q2,
    q1 <> [] -> q2 <> [] ->
    Forall (fun s => separable_name s = true) q1 ->
    Forall (fun s => separable_name s = true) q2 ->
    join q1 = join q2 -> q1 = q2.
Proof.
  induction q1 as [|a q1 IH]; intros q2 N1 N2 P1 P2 E; [congruence|].
  destruct q2 as [|b q2]; [congruence|].
  inversion P1 as [|? ? Ha P1']; subst. inversion P2 as [|? ? Hb P2']; subst.
  apply separable_name_parts in Ha as [_ Ha].
  apply separable_name_parts in Hb as [_ Hb].
  destruct q1 as [|a' q1]; destruct q2 as [|b' q2].
  - cbn in E. now subst.
  - rewrite join_cons in E. change (join [a]) with a in E. subst a.
    now rewrite contains_sep_append in Ha.
  - rewrite join_cons in E. change (join [b]) with b in E. subst b.
    now rewrite contains_sep_append in Hb.
  - rewrite !join_cons in E.
    destruct (segment_cut _ _ _ _ Ha Hb
                (join_admitted (a' :: q1) ltac:(discriminate) P1')
                (join_admitted (b' :: q2) ltac:(discriminate) P2') E)
      as [-> E'].
    f_equal. apply IH; auto; discriminate.
Qed.

(** C9 as stated fails on the code: a field name may contain the separator,
    and then a field of a nested object and a field of the enclosing object
    receive the same full path. *)
Lemma catalogue_full_path_clash :
  exists cat,
    get_metadata 3 clash_schema "Root" = Ok cat /\
    map fullname cat = ["a"; "a__b"; "a__b"] /\
    ~ NoDup (map fullname cat).
Proof.
  eexists. split; [reflexivity|]. split; [reflexivity|].
  cbn. intros H. inversion H as [|? ? _ H']; subst.
  inversion H' as [|? ? Hin _]; subst. apply Hin. now left.
Qed.

(** The full paths of a catalogue are distinct when no field name holds the
    separator. *)
Lemma separable_fullnames_distinct (limit : nat) (env : schema) (cls : string)
    (cat : list ConfigAttrMetadata) :
  separable_schema env = true ->
  get_metadata limit env cls = Ok cat -> NoDup (map fullname cat).
Proof.
  intros Hs H. unfold get_metadata in H. rewrite walk_is_catalogue in H.
  destruct (good_catalogue_paths separable_name env limit
              separable_name_nonempty Hs cls [] cat (Forall_nil _) H)
    as (qs & Hmap & Hnd & Hq).
  rewrite Hmap. cbn [app]. apply NoDup_map_on; auto.
  intros x y Hx Hy. apply join_injective_separable; now apply Hq.
Qed.

(** C9 (amended): when the walk returns, the catalogue returned by
    [get_metadata] lists the fields of a class in the lexicographic order of
    their names, each descriptor immediately followed by the catalogue of
    the class nested in the field (the class of a nested object, or the
    element class of a list of objects, expanded once and not at all when it
    is the containing class); and when no field name contains the separator
    (a field name of the validation library being neither empty nor begun by
    an underscore), no two descriptors share a full path. *)
Theorem catalogue_shape (limit : nat) (env : schema) (cls : string) :
  get_metadata limit env cls = catalogue limit env cls "" /\
  (forall m,
      StronglySorted name_le (sorted (model_fields env m)) /\
      Permutation (sorted (model_fields env m)) (model_fields env m)) /\
  (separable_schema env = true ->
   forall cat,
     get_metadata limit env cls = Ok cat -> NoDup (map fullname cat)).
Proof.
  split; [apply walk_is_catalogue|]. split.
  - intros m. split; [apply sorted_sorted | apply sorted_perm].
  - intros Hs cat H. exact (separable_fullnames_distinct _ _ _ _ Hs H).
Qed.

(** A class whose field names end in underscores. *)
Lemma catalogue_shape_witness :
  exists cat,
    get_metadata 5
      [ ("Inner", [("from_", mkFieldInfo (builtin "str") None None);
                   ("to_", mkFieldInfo (builtin "str") None None)]);
        ("Root", [("class_",
                   mkFieldInfo (AModel "__main__.Inner" "Inner") None None);
                  ("name", mkFieldInfo (builtin "str") None None)]) ]
      "Root" = Ok cat /\
    map fullname cat = ["class_"; "class___from_"; "class___to_"; "name"] /\
    NoDup (map fullname cat).
Proof.
  eexists. split; [reflexivity|]. split; [reflexivity|].
  exact (proj2 (proj2 (catalogue_shape 5
           [ ("Inner", [("from_", mkFieldInfo (builtin "str") None None);
                        ("to_", mkFieldInfo (builtin "str") None None)]);
             ("Root", [("class_",
                        mkFieldInfo (AModel "__main__.Inner" "Inner") None None);
                       ("name", mkFieldInfo (builtin "str") None None)]) ]
           "Root"))
           eq_refl _ eq_refl).
Defined.

(** ** Reading the command line *)

Lemma contains_char_cons (x c : ascii) (s : string) :
  contains (String x "") (String c s) = Ascii.eqb c x || contains (String x "") s.
Proof.
  cbn [contains]. now rewrite prefix_cons, prefix_nil, andb_true_r, Ascii.eqb_sym.
Qed.

Lemma contains_char_append (x : ascii) (a b : string) :
  contains (String x "") (a ++ b) = false ->
  contains (String x "") a = false /\ contains (String x "") b = false.
Proof.
  induction a as [|c a IH]; cbn [append].
  - intros H. split; [reflexivity | exact H].
  - rewrite !contains_char_cons. intros H.
    apply orb_false_iff in H as [H1 H2]. destruct (IH H2) as [Ha Hb].
    now rewrite H1, Ha.
Qed.








(** ** The flags of the older loader *)






Lemma add_fullname_ok (d : dict) (n : string) (v : value) :
  _add_fullname_as_nested_dict d n v "__"
  = Ok (add_parts d (split_go "__" 0 "" n) v).
Proof. reflexivity. Qed.

(** The loop of [_get_possible_cli_argsname]: it returns exactly when the
    subclass check answers for every descriptor, and then with the full
    names of the descriptors that pass. *)
Lemma possible_loop (ms : list ConfigAttrMetadata) :
  forall acc names,
    for_each possible_step ms acc = Ok names ->
    names = acc ++ map fullname (filter passes ms) /\
    forall m, In m ms -> exists b, cli_eligible m = Ok b.
Proof.
  induction ms as [|m ms IH]; intros acc names H.
  - cbn in H. injection H as <-. split; [now rewrite app_nil_r|].
    intros ? [].
  - cbn [for_each] in H. unfold possible_step at 1 in H.
    destruct (cli_eligible m) as [b|e] eqn:E; cbn [bind] in H; [|discriminate].
    destruct (IH _ _ H) as [-> Hall]. split.
    + cbn [filter]. unfold passes at 2. rewrite E. destruct b; [|reflexivity].
      cbn [map]. now rewrite <- app_assoc.
    + intros m' [<-|Hin]; [eauto | auto].
Qed.

Lemma possible_loop_ok (ms : list ConfigAttrMetadata) :
  (forall m, In m ms -> exists b, cli_eligible m = Ok b) ->
  forall acc,
    for_each possible_step ms acc
    = Ok (acc ++ map fullname (filter passes ms)).
Proof.
  induction ms as [|m ms IH]; intros H acc.
  - cbn. now rewrite app_nil_r.
  - cbn [for_each filter]. unfold possible_step at 1. unfold passes at 1.
    destruct (H m (or_introl eq_refl)) as [b ->]. cbn [bind].
    rewrite IH by (intros; apply H; now right).
    destruct b; [|reflexivity]. cbn [map]. now rewrite <- app_assoc.
Qed.

Lemma possible_names (limit : nat) (env : schema) (cls : string)
    (ms : list ConfigAttrMetadata) (names : list string) :
  get_metadata limit env cls = Ok ms ->
  _get_possible_cli_argsname limit env cls = Ok names ->
  names = map fullname (filter passes ms) /\
  forall m, In m ms -> exists b, cli_eligible m = Ok b.
Proof.
  intros Hms. unfold _get_possible_cli_argsname. rewrite Hms. cbn [bind].
  intros H. exact (possible_loop ms [] names H).
Qed.

Lemma possible_names_ok (limit : nat) (env : schema) (cls : string)
    (ms : list ConfigAttrMetadata) :
  get_metadata limit env cls = Ok ms ->
  (forall m, In m ms -> exists b, cli_eligible m = Ok b) ->
  _get_possible_cli_argsname limit env cls
  = Ok (map fullname (filter passes ms)).
Proof.
  intros Hms H. unfold _get_possible_cli_argsname. rewrite Hms. cbn [bind].
  now rewrite possible_loop_ok.
Qed.

Lemma possible_names_catalogue (limit : nat) (env : schema) (cls : string)
    (names : list string) :
  _get_possible_cli_argsname limit env cls = Ok names ->
  exists ms, get_metadata limit env cls = Ok ms.
Proof.
  unfold _get_possible_cli_argsname.
  destruct (get_metadata limit env cls) as [ms|]; [eauto | discriminate].
Qed.

Lemma passes_eligible (m : ConfigAttrMetadata) :
  passes m = true <-> cli_eligible m = Ok true.
Proof.
  unfold passes. destruct (cli_eligible m) as [[|]|]; split;
    congruence.
Qed.





Lemma cli_step_ok (cli_prefix : string) (names : list string)
    (st : cli_run) (arg : string) :
  exists st',
    cli_step cli_prefix names "__" st arg = Ok st' /\
    List.length (loaded_args st') + List.length (unknown_args st')
    = S (List.length (loaded_args st) + List.length (unknown_args st)) /\
    (dict_wf (cli_config st) = true -> dict_wf (cli_config st') = true).
Proof.
  unfold cli_step.
  destruct (match_equal arg) as [[key val]|].
  - match goal with |- context [find ?f ?l] => destruct (find f l) as [fn|] end.
    + rewrite add_fullname_ok. cbn [bind]. eexists. split; [reflexivity|].
      cbn [loaded_args unknown_args cli_config]. split.
      * rewrite length_app. cbn. lia.
      * intros H. now apply dict_wf_add_parts.
    + eexists. split; [reflexivity|].
      cbn [loaded_args unknown_args cli_config]. split; auto.
      rewrite length_app. cbn. lia.
  - eexists. split; [reflexivity|].
    cbn [loaded_args unknown_args cli_config]. split; auto.
    rewrite length_app. cbn. lia.
Qed.

Lemma cli_loop_ok (cli_prefix : string) (names : list string)
    (args : list string) :
  forall st,
  exists st',
    for_each (cli_step cli_prefix names "__") args st = Ok st' /\
    List.length (loaded_args st') + List.length (unknown_args st')
    = List.length args
      + (List.length (loaded_args st) + List.length (unknown_args st)) /\
    (dict_wf (cli_config st) = true -> dict_wf (cli_config st') = true).
Proof.
  induction args as [|arg args IH]; intros st.
  - exists st. cbn. auto.
  - cbn [for_each].
    destruct (cli_step_ok cli_prefix names st arg) as (s1 & -> & Hlen & Hwf).
    cbn [bind]. destruct (IH s1) as (s2 & Hs2 & Hlen2 & Hwf2).
    exists s2. split; [exact Hs2|]. split; [cbn; lia | auto].
Qed.


Section LegacyFlags.

Variable py_int : string -> option Z.
Variable py_float : string -> option Z.
Variables (pl : string) (ms : list ConfigAttrMetadata).
Variable m : ConfigAttrMetadata.


Hypothesis Hnd : NoDup (map fullname ms).
Hypothesis Hin : In m ms.
Hypothesis Hscalar : Legacy.is_scalar_type (type m) = true.

Lemma legacy_convert_cases (t s : string) :
  (exists v, Legacy.convert py_int py_float t s = Ok v /\ value_wf v = true) \/
  Legacy.convert py_int py_float t s = Raise ValueError.
Proof.
  unfold Legacy.convert.
  destruct (String.eqb t "int").
  { destruct (py_int s); [left; eexists; split; reflexivity | now right]. }
  destruct (String.eqb t "float").
  { destruct (py_float s); [left; eexists; split; reflexivity | now right]. }
  destruct (String.eqb t "bool"); left; eexists; split; reflexivity.
Qed.








End LegacyFlags.




(** ** What the environment readers store *)

Lemma legacy_env_step (prefix_upper : string)
    (environ : list (string * string)) (sep : string) (cfg : dict)
    (m : ConfigAttrMetadata) :
  Legacy.env_step prefix_upper environ sep cfg m =
  if Legacy.is_scalar_type (type m)
  then env_step prefix_upper environ sep cfg (fullname m)
  else Ok cfg.
Proof.
  unfold Legacy.env_step, env_step, Legacy._add_flat_key_value_to_nested_dict.
  destruct (aget _ environ); destruct (Legacy.is_scalar_type (type m));
    reflexivity.
Qed.

Lemma legacy_env_loop (prefix_upper : string)
    (environ : list (string * string)) (sep : string)
    (ms : list ConfigAttrMetadata) :
  (forall m, In m ms -> cli_eligible m = Ok (Legacy.is_scalar_type (type m))) ->
  forall cfg,
    for_each (Legacy.env_step prefix_upper environ sep) ms cfg =
    for_each (env_step prefix_upper environ sep)
      (map fullname (filter passes ms)) cfg.
Proof.
  induction ms as [|m ms IH]; intros H cfg; [reflexivity|].
  cbn [for_each filter]. rewrite legacy_env_step.
  unfold passes at 1. rewrite (H m (or_introl eq_refl)).
  assert (IH' := IH (fun m' Hm' => H m' (or_intror Hm'))).
  destruct (Legacy.is_scalar_type (type m)).
  - cbn [map for_each].
    destruct (env_step prefix_upper environ sep cfg (fullname m));
      cbn [bind]; auto.
  - cbn [bind]. apply IH'.
Qed.

Lemma diverge_sym (q1 q2 : list string) : diverge q1 q2 -> diverge q2 q1.
Proof.
  intros (c & x & y & r1 & r2 & Hxy & H1 & H2).
  exists c, y, x, r2, r1. auto.
Qed.

Lemma diverge_cons (k : string) (q1 q2 : list string) :
  diverge q1 q2 -> diverge (k :: q1) (k :: q2).
Proof.
  intros (c & x & y & r1 & r2 & Hxy & -> & ->).
  now exists (k :: c), x, y, r1, r2.
Qed.

Lemma diverge_heads (h1 h2 : string) (t1 t2 : list string) :
  h1 <> h2 -> diverge (h1 :: t1) (h2 :: t2).
Proof. intros H. now exists [], h1, h2, t1, t2. Qed.

Lemma eligible_no_expansion
    (rec : string -> string -> result (list ConfigAttrMetadata))
    (c _path : string) (item : string * FieldInfo)
    (nested : list ConfigAttrMetadata) :
  cli_eligible (metadata_of c _path item) = Ok true ->
  expansion rec c _path item = Ok nested -> nested = [].
Proof.
  destruct item as [f info]. unfold cli_eligible, expansion, metadata_of.
  cbn [raw_type fst snd].
  destruct (fi_annotation info) as [q n|q n|arg|r|n r|arg|r|n r]; cbn;
    try discriminate; now intros _ [= <-].
Qed.

Lemma expansion_leaf_paths
    (rec : string -> string -> result (list ConfigAttrMetadata))
    (m : string) (segs : list string) (item : string * FieldInfo)
    (nested : list ConfigAttrMetadata) :
  rec_leaf_paths rec -> plain_path segs -> plain_name (fst item) = true ->
  expansion rec m (join segs) item = Ok nested ->
  exists zs, leaf_paths (segs ++ [fst item]) nested zs.
Proof.
  intros Hrec Hp Hn. unfold expansion. rewrite f_fullname_join by exact Hp.
  assert (Hp' : plain_path (segs ++ [fst item])).
  { apply Forall_app. split; auto. }
  assert (Hnil : exists zs, leaf_paths (segs ++ [fst item]) [] zs).
  { exists []. split; [reflexivity|]. split.
    - intros ? ? Hin. destruct Hin.
    - intros ? ? ? ? Hin. destruct Hin. }
  destruct (has_model_fields (fi_annotation (snd item))) as [n|].
  - intros E. exact (Hrec _ _ _ Hp' E).
  - destruct (list_arg (fi_annotation (snd item))) as [element|];
      [|intros [= <-]; exact Hnil].
    destruct (has_model_fields element) as [n|];
      [|intros [= <-]; exact Hnil].
    destruct (String.eqb n m); [intros [= <-]; exact Hnil|].
    intros E. exact (Hrec _ _ _ Hp' E).
Qed.

Lemma items_leaf_paths
    (rec : string -> string -> result (list ConfigAttrMetadata))
    (c : string) (segs : list string) :
  rec_leaf_paths rec -> plain_path segs ->
  forall (items : list (string * FieldInfo)) (cat : list ConfigAttrMetadata),
    Forall (fun it => plain_name (fst it) = true) items ->
    NoDup (map fst items) ->
    catalogue_items rec c (join segs) items = Ok cat ->
    exists zs,
      leaf_paths segs cat zs /\
      forall m q, In (m, q) zs ->
                  exists h t, q = h :: t /\ In h (map fst items).
Proof.
  intros Hrec Hp. induction items as [|item items IH]; intros cat Hpl Hnd H.
  - cbn in H. injection H as <-. exists []. split.
    + split; [reflexivity|]. split.
      * intros ? ? Hin. destruct Hin.
      * intros ? ? ? ? Hin. destruct Hin.
    + intros ? ? Hin. destruct Hin.
  - cbn [catalogue_items] in H.
    inversion Hpl as [|? ? Hitem Hpl']; subst.
    cbn [map] in Hnd. inversion Hnd as [|? ? Hfresh Hnd']; subst.
    destruct (expansion rec c (join segs) item) as [nested|] eqn:En;
      cbn [bind] in H; [|discriminate].
    destruct (catalogue_items rec c (join segs) items) as [others|] eqn:Eo;
      cbn [bind] in H; [|discriminate].
    injection H as <-.
    destruct (expansion_leaf_paths _ _ _ _ _ Hrec Hp Hitem En)
      as (zn & Hcatn & Hqn & Hpairn).
    destruct (IH _ Hpl' Hnd' eq_refl)
      as (zo & (Hcato & Hqo & Hpairo) & Hheads).
    set (own := metadata_of c (join segs) item).
    set (lift := fun z : ConfigAttrMetadata * list string =>
                   (fst z, fst item :: snd z)).
    exists ((own, [fst item]) :: map lift zn ++ zo).
    assert (Hin_lift : forall m q, In (m, q) (map lift zn) ->
                         exists q', q = fst item :: q' /\ In (m, q') zn).
    { intros m q Hin. apply in_map_iff in Hin as ([m' q'] & E & Hin).
      unfold lift in E. cbn in E. injection E as <- <-. eauto. }
    assert (Hother_head : forall m q, In (m, q) zo ->
                            exists h t, q = h :: t /\ h <> fst item).
    { intros m q Hin. destruct (Hheads _ _ Hin) as (h & t & -> & Hh).
      exists h, t. split; [reflexivity|]. intros ->. contradiction. }
    split; [split; [|split]|].
    + cbn [map fst]. f_equal. rewrite map_app, map_map. cbn [fst].
      now rewrite Hcatn, Hcato.
    + intros m q [E|Hin].
      * injection E as <- <-. split; [|split; [discriminate|]].
        { unfold own. destruct item as [f info]. cbn.
          now rewrite f_fullname_join. }
        { repeat constructor. exact Hitem. }
      * apply in_app_or in Hin as [Hin|Hin]; [|now apply Hqo].
        apply Hin_lift in Hin as (q' & -> & Hin).
        destruct (Hqn _ _ Hin) as (Hf & Hne & Hpq).
        split; [|split; [discriminate | constructor; auto]].
        rewrite Hf. now rewrite <- app_assoc.
    + intros m1 q1 m2 q2 H1 H2 E1 E2.
      assert (Hnno : cli_eligible own = Ok true -> zn = []).
      { intros He. pose proof (eligible_no_expansion _ _ _ _ _ He En) as Hn.
        rewrite Hn in Hcatn. destruct zn; [reflexivity | discriminate]. }
      destruct H1 as [E|H1]; destruct H2 as [E'|H2];
        try (injection E as <- <-); try (injection E' as <- <-).
      * now left.
      * apply in_app_or in H2 as [H2|H2].
        { rewrite (Hnno E1) in H2. destruct H2. }
        { destruct (Hother_head _ _ H2) as (h & t & -> & Hh).
          right. apply diverge_heads. congruence. }
      * apply in_app_or in H1 as [H1|H1].
        { rewrite (Hnno E2) in H1. destruct H1. }
        { destruct (Hother_head _ _ H1) as (h & t & -> & Hh).
          right. now apply diverge_heads. }
      * apply in_app_or in H1 as [H1|H1]; apply in_app_or in H2 as [H2|H2].
        { apply Hin_lift in H1 as (q1' & -> & H1).
          apply Hin_lift in H2 as (q2' & -> & H2).
          destruct (Hpairn _ _ _ _ H1 H2 E1 E2) as [->|Hd];
            [now left | right; now apply diverge_cons]. }
        { apply Hin_lift in H1 as (q1' & -> & H1).
          destruct (Hother_head _ _ H2) as (h & t & -> & Hh).
          right. apply diverge_heads. congruence. }
        { apply Hin_lift in H2 as (q2' & -> & H2).
          destruct (Hother_head _ _ H1) as (h & t & -> & Hh).
          right. now apply diverge_heads. }
        { now apply (Hpairo m1 q1 m2 q2). }
    + intros m q [E|Hin].
      * injection E as <- <-. exists (fst item), []. split; [reflexivity|now left].
      * apply in_app_or in Hin as [Hin|Hin].
        { apply Hin_lift in Hin as (q' & -> & _).
          exists (fst item), q'. split; [reflexivity | now left]. }
        { destruct (Hheads _ _ Hin) as (h & t & Hq & Hh).
          exists h, t. split; [exact Hq | now right]. }
Qed.

Lemma catalogue_leaf_paths (env : schema) (limit : nat) :
  plain_schema env = true -> rec_leaf_paths (catalogue limit env).
Proof.
  intros Hs. induction limit as [|n IH]; intros sub segs cat Hp H.
  - discriminate.
  - cbn [catalogue] in H.
    destruct (plain_schema_fields env sub Hs) as [Hpl Hnd].
    destruct (items_leaf_paths _ sub segs IH Hp _ _ Hpl Hnd H) as (zs & Hzs & _).
    now exists zs.
Qed.

Lemma diverge_irrefl (q : list string) : ~ diverge q q.
Proof.
  intros (c & x & y & r1 & r2 & Hxy & H1 & H2).
  rewrite H1 in H2. apply app_inv_head in H2. injection H2 as H2 _.
  contradiction.
Qed.

Lemma env_loop_sets (prefix_upper : string)
    (environ : list (string * string)) (p0 : list string) (v : string) :
  p0 <> [] ->
  forall names,
    (forall fn, In fn names ->
       aget (prefix_upper ++ upper fn)%string environ = None \/
       (split_go "__" 0 "" fn = p0 /\
        aget (prefix_upper ++ upper fn)%string environ = Some v) \/
       diverge (split_go "__" 0 "" fn) p0) ->
    forall cfg,
      (lookup_path p0 cfg = Some (VStr v) \/
       exists fn, In fn names /\ split_go "__" 0 "" fn = p0 /\
                  aget (prefix_upper ++ upper fn)%string environ = Some v) ->
      exists d,
        for_each (env_step prefix_upper environ "__") names cfg = Ok d /\
        lookup_path p0 d = Some (VStr v).
Proof.
  intros Hp0. induction names as [|fn names IH]; intros Hnames cfg Hstart.
  - destruct Hstart as [H|(fn & [] & _)]. exists cfg. now split.
  - cbn [for_each]. unfold env_step at 1.
    assert (Hrest : forall fn', In fn' names ->
              aget (prefix_upper ++ upper fn')%string environ = None \/
              (split_go "__" 0 "" fn' = p0 /\
               aget (prefix_upper ++ upper fn')%string environ = Some v) \/
              diverge (split_go "__" 0 "" fn') p0)
      by (intros; apply Hnames; now right).
    destruct (aget (prefix_upper ++ upper fn)%string environ) as [v'|] eqn:Ev.
    + rewrite add_fullname_ok. cbn [bind]. apply IH; [exact Hrest|].
      destruct (Hnames fn (or_introl eq_refl)) as [H|[[Hs Hv]|Hd]].
      * congruence.
      * left. rewrite Ev in Hv. injection Hv as ->. rewrite Hs.
        now apply lookup_add_parts.
      * destruct Hd as (c & x & y & r1 & r2 & Hxy & H1 & H2).
        assert (Hkeep : lookup_path p0
                          (add_parts cfg (split_go "__" 0 "" fn) (VStr v'))
                        = lookup_path p0 cfg).
        { rewrite H1, H2. apply add_parts_preserves. congruence. }
        destruct Hstart as [H|(fn' & [<-|Hin] & Hs & Hv)].
        { left. now rewrite Hkeep. }
        { exfalso. apply (diverge_irrefl p0). rewrite <- Hs at 1.
          now exists c, x, y, r1, r2. }
        { right. now exists fn'. }
    + cbn [bind]. apply IH; [exact Hrest|].
      destruct Hstart as [H|(fn' & [<-|Hin] & Hs & Hv)].
      * now left.
      * congruence.
      * right. now exists fn'.
Qed.

Lemma load_env_sets
    (limit : nat) (env : schema) (cls : string)
    (environ : list (string * string)) (pfx : string)
    (ms : list ConfigAttrMetadata) (names : list string)
    (m : ConfigAttrMetadata) (v : string) :
  plain_schema env = true ->
  get_metadata limit env cls = Ok ms ->
  _get_possible_cli_argsname limit env cls = Ok names ->
  In m ms -> cli_eligible m = Ok true ->
  aget (upper pfx ++ upper (fullname m))%string environ = Some v ->
  exists d,
    _load_env limit env cls environ pfx "__" = Ok d /\
    lookup_path (split_go "__" 0 "" (fullname m)) d = Some (VStr v).
Proof.
  intros Hs Hms Hnames Hin He Hv.
  assert (Hcat : catalogue limit env cls (join []) = Ok ms).
  { unfold get_metadata in Hms. now rewrite walk_is_catalogue in Hms. }
  destruct (catalogue_leaf_paths env limit Hs cls [] ms (Forall_nil _) Hcat)
    as (zs & Hmap & Hq & Hpair).
  assert (Hpath : forall m', In m' ms ->
            exists q, In (m', q) zs /\ split_go "__" 0 "" (fullname m') = q /\
                      fullname m' = join q /\ q <> []).
  { intros m' Hm'. rewrite Hmap in Hm'.
    apply in_map_iff in Hm' as ([m1 q] & <- & Hz). cbn [fst].
    destruct (Hq _ _ Hz) as (Hf & Hne & Hpl). cbn [app] in Hf.
    exists q. repeat split; auto. rewrite Hf. now apply split_join. }
  destruct (Hpath m Hin) as (q0 & Hz0 & Hsplit0 & Hf0 & Hne0).
  unfold _load_env. rewrite Hnames. cbn [bind].
  destruct (possible_names _ _ _ _ _ Hms Hnames) as [-> _].
  rewrite Hsplit0. apply env_loop_sets; [exact Hne0| |].
  - intros fn Hfn. apply in_map_iff in Hfn as (m' & <- & Hm').
    apply filter_In in Hm' as [Hm' He']. apply passes_eligible in He'.
    destruct (Hpath m' Hm') as (q & Hz & Hsplit & Hf & Hne).
    right. rewrite Hsplit.
    destruct (Hpair _ _ _ _ Hz Hz0 He' He) as [->|Hd]; [left | now right].
    split; [reflexivity|]. now rewrite Hf, <- Hf0.
  - right. exists (fullname m). split; [|now split].
    apply in_map. apply filter_In. split; [exact Hin|].
    now apply passes_eligible.
Qed.


(** ** Conversion of the values *)










(* ================================================================== *)
(** * Further properties *)

(** ** Further properties of the merge *)

Lemma aset_absent (A : Type) (k : string) (v : A) (d : list (string * A)) :
  aget k d = None -> aset k v d = d ++ [(k, v)].
Proof.
  induction d as [|[k' v'] d IH]; simpl; auto.
  destruct (String.eqb k k'); [discriminate|].
  intros H. now rewrite IH.
Qed.

Lemma aget_app_absent (A : Type) (k : string) (d1 d2 : list (string * A)) :
  aget k d1 = None -> aget k (d1 ++ d2) = aget k d2.
Proof.
  induction d1 as [|[k' v'] d IH]; simpl; auto.
  destruct (String.eqb k k'); [discriminate | auto].
Qed.

Lemma nodupb_cons (k : string) (l : list string) :
  nodupb (k :: l) = true ->
  existsb (String.eqb k) l = false /\ nodupb l = true.
Proof.
  cbn. intros H. apply andb_true_iff in H as [H1 H2].
  now apply negb_true_iff in H1.
Qed.

Lemma existsb_eqb_false (k : string) (l : list string) :
  existsb (String.eqb k) l = false -> forall k', In k' l -> k <> k'.
Proof.
  intros H k' Hin ->.
  assert (existsb (String.eqb k') l = true).
  { apply existsb_exists. exists k'. split; auto. apply String.eqb_refl. }
  congruence.
Qed.

Lemma deep_merge_append (dict1 dict2 : dict) :
  nodupb (map fst dict2) = true ->
  (forall k, In k (map fst dict2) -> dget k dict1 = None) ->
  _deep_merge dict1 dict2 = dict1 ++ dict2.
Proof.
  revert dict1. induction dict2 as [|[k v] l IH]; intros dict1 Hnd Hfresh.
  - now rewrite app_nil_r.
  - rewrite deep_merge_cons. cbn [map fst] in Hnd.
    apply nodupb_cons in Hnd as [Hk Hnd].
    assert (Hkd : dget k dict1 = None) by (apply Hfresh; now left).
    unfold merge_item. rewrite Hkd. unfold dset.
    rewrite aset_absent by exact Hkd.
    rewrite IH; auto.
    + now rewrite <- app_assoc.
    + intros k' Hk'. unfold dget. rewrite aget_app_absent.
      * cbn. assert (k <> k') by (eapply existsb_eqb_false; eauto).
        destruct (String.eqb k' k) eqn:E; auto.
        apply String.eqb_eq in E. congruence.
      * apply Hfresh. now right.
Qed.

(** X1: merging a mapping whose keys are all new appends it, item by item; so
    merging into the empty mapping gives the mapping itself. *)
Theorem deep_merge_fresh_keys (dict1 dict2 : dict) :
  nodupb (map fst dict2) = true ->
  (forall k, In k (map fst dict2) -> dget k dict1 = None) ->
  _deep_merge dict1 dict2 = dict1 ++ dict2.
Proof. apply deep_merge_append. Qed.

Lemma deep_merge_fresh_keys_witness :
  _deep_merge [] [("version", VStr "0.1 alpha"); ("port", VInt 1)]
  = [("version", VStr "0.1 alpha"); ("port", VInt 1)].
Proof.
  apply (deep_merge_fresh_keys []
           [("version", VStr "0.1 alpha"); ("port", VInt 1)]).
  - reflexivity.
  - intros k _. reflexivity.
Defined.

Lemma dget_merge_item_none (dict1 : dict) (key k : string) (v : value) :
  dget k (merge_item dict1 key v) = None <-> dget k dict1 = None /\ k <> key.
Proof.
  destruct (string_dec key k) as [->|Hne].
  - rewrite dget_merge_item_eq. split; [discriminate|]. intros [_ H]. congruence.
  - rewrite dget_merge_item_neq by exact Hne. split; [|tauto].
    intros H. split; [exact H | congruence].
Qed.

(** X2: the keys of a merge are the keys of the two mappings: a key is
    missing from the result exactly when both lack it. *)
Theorem deep_merge_keys (k : string) (dict2 dict1 : dict) :
  dget k (_deep_merge dict1 dict2) = None <->
  dget k dict1 = None /\ dget k dict2 = None.
Proof.
  revert dict1. induction dict2 as [|[key v] l IH]; intros dict1.
  - rewrite deep_merge_nil. cbn. tauto.
  - rewrite deep_merge_cons, IH, dget_merge_item_none. cbn.
    destruct (String.eqb k key) eqn:E.
    + apply String.eqb_eq in E. split; [tauto|]. intros [_ H]. discriminate.
    + apply String.eqb_neq in E. tauto.
Qed.

(** Induction over values that reaches into lists and mappings. *)
Lemma value_nested_ind (P : value -> Prop) :
  P VNone ->
  (forall b, P (VBool b)) ->
  (forall z, P (VInt z)) ->
  (forall x, P (VFloat x)) ->
  (forall s, P (VStr s)) ->
  (forall l, Forall P l -> P (VList l)) ->
  (forall d, Forall (fun kv => P (snd kv)) d -> P (VDict d)) ->
  forall v, P v.
Proof.
  intros HN HB HI HF HS HL HD.
  fix IH 1. intros [| b | z | x | s | l | d].
  - exact HN.
  - apply HB.
  - apply HI.
  - apply HF.
  - apply HS.
  - apply HL. induction l as [|v l IHl]; constructor.
    + apply IH.
    + exact IHl.
  - apply HD. induction d as [|[k v] d IHd]; constructor.
    + apply IH.
    + exact IHd.
Qed.

Lemma dict_wf_cons (k : string) (v : value) (d : dict) :
  dict_wf ((k, v) :: d) = true ->
  value_wf v = true /\ dict_wf d = true /\
  existsb (String.eqb k) (map fst d) = false.
Proof.
  unfold dict_wf. cbn [value_wf map fst forallb snd]. intros H.
  apply andb_true_iff in H as [H1 H2].
  apply nodupb_cons in H1 as [Hk Hn].
  apply andb_true_iff in H2 as [Hv Hd].
  rewrite Hn, Hd. auto.
Qed.

Lemma dict_wf_value (d : dict) (k : string) (v : value) :
  dict_wf d = true -> dget k d = Some v -> value_wf v = true.
Proof.
  unfold dict_wf. cbn [value_wf]. intros H Hk.
  apply andb_true_iff in H as [_ H]. rewrite forallb_forall in H.
  apply aget_in in Hk. exact (H _ Hk).
Qed.

(** X3: the merge keeps mappings well formed: when no key is repeated at
    any level of the two mappings, none is repeated in their merge. *)
Theorem deep_merge_wf (dict2 dict1 : dict) :
  dict_wf dict1 = true -> dict_wf dict2 = true ->
  dict_wf (_deep_merge dict1 dict2) = true.
Proof.
  revert dict1.
  enough (G : forall v2, match v2 with
                         | VDict d2 =>
                             forall d1, dict_wf d1 = true -> dict_wf d2 = true ->
                                        dict_wf (_deep_merge d1 d2) = true
                         | _ => True
                         end) by exact (G (VDict dict2)).
  apply value_nested_ind; auto.
  intros d2 IH. induction IH as [|[k v] l Hv _ IHl]; intros d1 H1 H2.
  - exact H1.
  - rewrite deep_merge_cons.
    apply dict_wf_cons in H2 as (Hwv & Hwl & _).
    apply IHl; [|exact Hwl].
    unfold merge_item. cbn [snd] in Hv.
    destruct (dget k d1) as [[| | | | | |d1k]|] eqn:E;
      try (now apply dict_wf_dset).
    destruct v as [| | | | | |d2k]; try (now apply dict_wf_dset).
    apply dict_wf_dset; [|exact H1].
    apply Hv; [|exact Hwv].
    exact (dict_wf_value _ _ _ H1 E).
Qed.

Lemma deep_merge_wf_witness :
  dict_wf (_deep_merge [("user", VDict [("name", VStr "a")])]
                       [("user", VDict [("pw", VStr "b")]); ("port", VInt 1)])
  = true.
Proof.
  apply (deep_merge_wf [("user", VDict [("pw", VStr "b")]); ("port", VInt 1)]
           [("user", VDict [("name", VStr "a")])]); reflexivity.
Defined.

Lemma aset_same (A : Type) (k : string) (v : A) (d : list (string * A)) :
  aget k d = Some v -> aset k v d = d.
Proof.
  induction d as [|[k' v'] d IH]; simpl; [discriminate|].
  destruct (String.eqb k k') eqn:E.
  - now intros [= ->].
  - intros H. now rewrite IH.
Qed.

Lemma dget_wf_head (k : string) (v : value) (d : dict) :
  dget k ((k, v) :: d) = Some v.
Proof. unfold dget. cbn. now rewrite String.eqb_refl. Qed.

Lemma merge_items_fixed (l acc : dict) :
  (forall k v, In (k, v) l ->
     dget k acc = Some v /\ merged_value (Some v) v = v) ->
  _deep_merge acc l = acc.
Proof.
  induction l as [|[k v] l IH]; intros H; [reflexivity|].
  rewrite deep_merge_cons.
  destruct (H k v (or_introl eq_refl)) as [Hget Hmv].
  assert (Hitem : merge_item acc k v = acc).
  { unfold merge_item. rewrite Hget. unfold merged_value in Hmv.
    destruct v as [| | | | | |d]; try (now apply aset_same).
    injection Hmv as Hmv. rewrite Hmv. now apply aset_same. }
  rewrite Hitem. apply IH. intros k' v' Hin. apply H. now right.
Qed.

Lemma wf_dget_in (d : dict) (k : string) (v : value) :
  nodupb (map fst d) = true -> In (k, v) d -> dget k d = Some v.
Proof.
  induction d as [|[k' v'] d IH]; intros Hnd Hin; [destruct Hin|].
  cbn [map fst] in Hnd. apply nodupb_cons in Hnd as [Hk Hnd].
  destruct Hin as [[= -> ->]|Hin].
  - apply dget_wf_head.
  - unfold dget. cbn. destruct (String.eqb k k') eqn:E.
    + apply String.eqb_eq in E. subst k'. exfalso.
      eapply existsb_eqb_false; [exact Hk | | reflexivity].
      change k with (fst (k, v)). now apply in_map.
    + now apply IH.
Qed.

(** X4: merging a well-formed mapping with itself changes nothing. *)
Theorem deep_merge_idempotent (d : dict) :
  dict_wf d = true -> _deep_merge d d = d.
Proof.
  enough (G : forall v, match v with
                        | VDict d0 => dict_wf d0 = true -> _deep_merge d0 d0 = d0
                        | _ => True
                        end) by exact (G (VDict d)).
  apply value_nested_ind; auto.
  intros d0 IH Hwf. apply merge_items_fixed.
  intros k v Hin. split.
  - apply wf_dget_in; [now apply dict_wf_keys | exact Hin].
  - rewrite Forall_forall in IH. specialize (IH _ Hin). cbn [snd] in IH.
    unfold merged_value. destruct v as [| | | | | |dv]; auto.
    rewrite IH; auto.
    assert (Hv : value_wf (VDict dv) = true).
    { eapply dict_wf_value; [exact Hwf|].
      apply wf_dget_in; [now apply dict_wf_keys | exact Hin]. }
    exact Hv.
Qed.

Lemma deep_merge_idempotent_witness :
  _deep_merge [("user", VDict [("name", VStr "a")]); ("port", VInt 1)]
              [("user", VDict [("name", VStr "a")]); ("port", VInt 1)]
  = [("user", VDict [("name", VStr "a")]); ("port", VInt 1)].
Proof.
  apply (deep_merge_idempotent
           [("user", VDict [("name", VStr "a")]); ("port", VInt 1)]).
  reflexivity.
Defined.

(** ** Further properties of the key codec *)

(** X5: with the separator of the loader an insertion never raises; the
    value is then found by following the pieces of the key, whatever the
    target held before, and a well-formed target stays well formed. *)
Theorem add_then_lookup (d : dict) (n : string) (v : value) :
  exists d',
    _add_fullname_as_nested_dict d n v "__" = Ok d' /\
    lookup_path (split_go "__" 0 "" n) d' = Some v /\
    (dict_wf d = true -> value_wf v = true -> dict_wf d' = true).
Proof.
  exists (add_parts d (split_go "__" 0 "" n) v).
  split; [reflexivity|]. split.
  - apply lookup_add_parts. apply split_go_not_nil.
  - intros Hd Hv. now apply dict_wf_add_parts.
Qed.

Lemma add_parts_cons2 (d : dict) (k k' : string) (p : list string) (v : value) :
  add_parts d (k :: k' :: p) v =
  dset k (VDict (add_parts
                   match dget k d with Some (VDict d0) => d0 | _ => [] end
                   (k' :: p) v)) d.
Proof. reflexivity. Qed.

(** X6: where a part of the key other than the last meets a value that is
    not a mapping, that value is replaced by a fresh mapping holding the
    rest of the key alone. *)
Theorem add_replaces_scalar_on_the_way
    (d d' : dict) (n : string) (v w : value) (p q : list string) :
  split "__" n = Ok (p ++ q) -> q <> [] ->
  lookup_path p d = Some w -> is_dict w = false ->
  _add_fullname_as_nested_dict d n v "__" = Ok d' ->
  lookup_path p d' = Some (VDict (nest q v)).
Proof.
  intros Hs Hq Hl Hw. unfold _add_fullname_as_nested_dict. rewrite Hs.
  cbn [bind]. intros [= <-]. clear Hs n.
  revert d Hl. induction p as [|k p IH]; intros d Hl; [discriminate|].
  destruct p as [|k' p].
  - cbn [lookup_path] in Hl. cbn [app].
    destruct q as [|q0 q]; [congruence|].
    rewrite add_parts_cons2. cbn [lookup_path]. unfold dget, dset.
    rewrite aget_aset_eq. fold dget. rewrite Hl.
    destruct w; try discriminate; now rewrite add_parts_empty.
  - rewrite lookup_path_cons in Hl.
    change ((k :: k' :: p) ++ q) with (k :: k' :: (p ++ q)).
    rewrite add_parts_cons2, lookup_path_cons. unfold dget, dset.
    rewrite aget_aset_eq. fold dget.
    destruct (dget k d) as [[| | | | | |d0]|]; try discriminate.
    now apply IH.
Qed.

Lemma add_replaces_scalar_on_the_way_witness :
  lookup_path ["user"] [("user", VDict [("name", VStr "x")])]
  = Some (VDict (nest ["name"] (VStr "x"))).
Proof.
  apply (add_replaces_scalar_on_the_way [("user", VStr "old")]
           [("user", VDict [("name", VStr "x")])] "user__name"
           (VStr "x") (VStr "old") ["user"] ["name"]).
  - reflexivity.
  - discriminate.
  - reflexivity.
  - reflexivity.
  - reflexivity.
Defined.

(** X7: an insertion changes nothing at a path that leaves the path of the
    key at some part. *)
Theorem add_leaves_other_paths
    (d d' : dict) (n : string) (v : value)
    (common : list string) (x y : string) (q r : list string) :
  split "__" n = Ok (common ++ y :: r) -> x <> y ->
  _add_fullname_as_nested_dict d n v "__" = Ok d' ->
  lookup_path (common ++ x :: q) d' = lookup_path (common ++ x :: q) d.
Proof.
  intros Hs Hxy. unfold _add_fullname_as_nested_dict. rewrite Hs.
  cbn [bind]. intros [= <-]. now apply add_parts_preserves.
Qed.

Lemma add_leaves_other_paths_witness :
  lookup_path ["user"; "name"]
    [("user", VDict [("name", VStr "a"); ("pw", VStr "b")]); ("port", VInt 1)]
  = lookup_path ["user"; "name"]
      [("user", VDict [("name", VStr "a")]); ("port", VInt 1)].
Proof.
  apply (add_leaves_other_paths
           [("user", VDict [("name", VStr "a")]); ("port", VInt 1)]
           [("user", VDict [("name", VStr "a"); ("pw", VStr "b")]);
            ("port", VInt 1)]
           "user__pw" (VStr "b") ["user"] "name" "pw" [] []).
  - reflexivity.
  - discriminate.
  - reflexivity.
Defined.

Lemma flatten_snoc (P : list string) (x : string) :
  flatten (P ++ [x]) = f_fullname (flatten P) x.
Proof. unfold flatten. now rewrite fold_left_app. Qed.

Lemma flatten_join (P : list string) : plain_path P -> flatten P = join P.
Proof.
  induction P as [|x P IH] using rev_ind; intros Hp; [reflexivity|].
  apply Forall_app in Hp as [Hp Hx].
  rewrite flatten_snoc, IH by exact Hp. now apply f_fullname_join.
Qed.

(** X8: the full name that the walk builds for the field reached along a
    path of plain names (not empty, without the separator, not ending in an
    underscore) splits back into that path. *)
Theorem split_flatten (P : list string) :
  P <> [] -> plain_path P -> split "__" (flatten P) = Ok P.
Proof.
  intros Hne Hp. rewrite flatten_join by exact Hp.
  unfold split. now rewrite split_join.
Qed.

Lemma split_flatten_witness :
  split "__" (flatten ["user"; "pass_word"]) = Ok ["user"; "pass_word"].
Proof.
  apply (split_flatten ["user"; "pass_word"]).
  - discriminate.
  - repeat constructor.
Defined.

(** ** Termination on schemas without cycles *)

Lemma catalogue_items_ok
    (rec : string -> string -> result (list ConfigAttrMetadata))
    (m _path : string) (items : list (string * FieldInfo)) :
  (forall item, In item items ->
     exists nested, expansion rec m _path item = Ok nested) ->
  exists cat, catalogue_items rec m _path items = Ok cat.
Proof.
  induction items as [|item items IH]; intros H.
  - now exists [].
  - cbn [catalogue_items].
    destruct (H item (or_introl eq_refl)) as [nested ->]. cbn [bind].
    destruct IH as [others ->]; [intros; apply H; now right|].
    cbn [bind]. eauto.
Qed.

Lemma walk_ranked
    (env : schema) (rank : string -> nat) :
  (forall c d, follows env c d -> rank d < rank c) ->
  forall limit m _path,
    rank m < limit ->
    exists cat, _get_attr_metadata limit env m _path = Ok cat.
Proof.
  intros Hrank. induction limit as [|n IH]; intros m _path Hlt; [lia|].
  rewrite walk_is_catalogue. cbn [catalogue].
  apply catalogue_items_ok. intros [f info] Hin.
  apply (proj1 (sorted_in _ _)) in Hin.
  destruct (expansion_cases env (catalogue n env) m _path f info Hin)
    as [->|(c & Hf & _ & ->)]; [eexists; reflexivity|].
  apply Hrank in Hf. rewrite <- walk_is_catalogue. apply IH. lia.
Qed.

(** X9: on a schema whose classes can be ranked so that every class the
    walk enters from another has a smaller rank, the walk returns a
    catalogue as soon as the recursion limit exceeds the rank of the
    class. *)
Theorem walk_terminates_on_ranked_schema
    (env : schema) (rank : string -> nat) :
  (forall c d, follows env c d -> rank d < rank c) ->
  forall limit m _path,
    rank m < limit ->
    exists cat, _get_attr_metadata limit env m _path = Ok cat.
Proof. apply walk_ranked. Qed.

Lemma demo_rank_decreases (c d : string) :
  follows demo_schema c d ->
  (if String.eqb d "AppConfig" then 1 else 0)
  < (if String.eqb c "AppConfig" then 1 else 0).
Proof.
  intros (f & info & Hin & Ht).
  assert (Hd : field_target (fi_annotation info) = Some d).
  { unfold field_target.
    destruct Ht as [->|(element & Hl & He & _)]; [reflexivity|].
    destruct (has_model_fields (fi_annotation info)) eqn:Hm.
    - now rewrite (model_not_list _ _ Hm) in Hl.
    - now rewrite Hl. }
  clear Ht. unfold model_fields in Hin.
  destruct (aget c demo_schema) as [fs|] eqn:Ec; [|destruct Hin].
  cbn in Ec.
  destruct (String.eqb c "AppConfig__Prompt"); [injection Ec as <-|].
  { cbn in Hin. destruct Hin as [[= <- <-]|[[= <- <-]|[]]]; discriminate. }
  destruct (String.eqb c "AppConfig__User"); [injection Ec as <-|].
  { cbn in Hin. destruct Hin as [[= <- <-]|[[= <- <-]|[]]]; discriminate. }
  destruct (String.eqb c "AppConfig") eqn:E; [injection Ec as <-|discriminate].
  cbn in Hin.
  repeat (destruct Hin as [[= <- <-]|Hin];
          [try discriminate; injection Hd as <-; cbn; lia|]).
  destruct Hin.
Qed.

Lemma walk_terminates_on_ranked_schema_witness :
  exists cat, _get_attr_metadata 2 demo_schema "AppConfig" "" = Ok cat.
Proof.
  apply (walk_terminates_on_ranked_schema demo_schema
           (fun c => if String.eqb c "AppConfig" then 1 else 0)
           demo_rank_decreases 2 "AppConfig" "").
  cbn. lia.
Defined.

Lemma for_each_ok (A S : Type) (body : S -> A -> result S) (l : list A) :
  (forall s a, In a l -> exists s', body s a = Ok s') ->
  forall s, exists s', for_each body l s = Ok s'.
Proof.
  induction l as [|a l IH]; intros H s.
  - now exists s.
  - cbn [for_each]. destruct (H s a (or_introl eq_refl)) as [s1 ->].
    cbn [bind]. apply IH. intros; apply H; now right.
Qed.

Lemma set_frozen_ranked
    (env : schema) (rank : string -> nat) :
  (forall c d, follows env c d -> rank d < rank c) ->
  forall limit m st,
    rank m < limit ->
    exists st', _set_frozen limit env m st = Ok st'.
Proof.
  intros Hrank. induction limit as [|n IH]; intros m st Hlt; [lia|].
  cbn [_set_frozen].
  destruct (for_each_ok _ _ (freeze_item (_set_frozen n env) m)
              (sorted (model_fields env m))) with (s := st) as [st1 ->].
  - intros s [f info] Hin. apply (proj1 (sorted_in _ _)) in Hin.
    unfold freeze_item. cbn [snd].
    destruct (has_model_fields (fi_annotation info)) as [c|] eqn:Hmodel.
    + rewrite (model_not_list _ _ Hmodel).
      assert (Hf : follows env m c).
      { exists f, info. split; [exact Hin | now left]. }
      apply Hrank in Hf.
      destruct (IH c s ltac:(lia)) as [s1 ->]. cbn [bind]. eauto.
    + cbn [bind].
      destruct (list_arg (fi_annotation info)) as [element|] eqn:Hl;
        [|eexists; reflexivity].
      destruct (has_model_fields element) as [c|] eqn:He;
        [|eexists; reflexivity].
      destruct (String.eqb c m) eqn:Ec; cbn [negb]; [eexists; reflexivity|].
      apply String.eqb_neq in Ec.
      assert (Hf : follows env m c).
      { exists f, info. split; [exact Hin|]. right. exists element. auto. }
      apply Hrank in Hf. apply IH. lia.
  - cbn [bind]. eauto.
Qed.

(** X10: on a schema ranked in that way [_set_frozen] returns as soon as the
    recursion limit exceeds the rank of the class. *)
Theorem set_frozen_terminates_on_ranked_schema
    (env : schema) (rank : string -> nat) :
  (forall c d, follows env c d -> rank d < rank c) ->
  forall limit m st,
    rank m < limit ->
    exists st', _set_frozen limit env m st = Ok st'.
Proof. apply set_frozen_ranked. Qed.

Lemma set_frozen_terminates_on_ranked_schema_witness :
  exists st', _set_frozen 2 demo_schema "AppConfig" [] = Ok st'.
Proof.
  apply (set_frozen_terminates_on_ranked_schema demo_schema
           (fun c => if String.eqb c "AppConfig" then 1 else 0)
           demo_rank_decreases 2 "AppConfig" []).
  cbn. lia.
Defined.

(** ** What freezing leaves alone *)

Lemma field_target_refers (env : schema) (m f : string) (info : FieldInfo)
    (d : string) :
  In (f, info) (model_fields env m) ->
  field_target (fi_annotation info) = Some d -> refers env m d.
Proof. intros Hin Ht. now exists f, info. Qed.

Lemma freeze_loop_frame (env : schema)
    (rec : string -> class_state -> result class_state) (m c : string) :
  ~ nested_class env m c ->
  (forall d st1 st2,
      rec d st1 = Ok st2 -> ~ nested_class env d c -> aget c st2 = aget c st1) ->
  forall (items : list (string * FieldInfo)) (st st' : class_state),
    (forall item, In item items -> In item (model_fields env m)) ->
    for_each (freeze_item rec m) items st = Ok st' ->
    aget c st' = aget c st.
Proof.
  intros Hc Hrec. induction items as [|[f info] items IH]; intros st st' Hsub H.
  - cbn in H. now injection H as <-.
  - cbn [for_each] in H.
    destruct (freeze_item rec m st (f, info)) as [s1|] eqn:E; cbn [bind] in H;
      [|discriminate].
    rewrite (IH _ _ (fun it Hit => Hsub it (or_intror Hit)) H).
    assert (Hin : In (f, info) (model_fields env m)) by (apply Hsub; now left).
    assert (Hnot : forall d, field_target (fi_annotation info) = Some d ->
                             ~ nested_class env d c).
    { intros d Ht Hn. apply Hc. eapply nested_step; [|exact Hn].
      eapply field_target_refers; eauto. }
    revert E. unfold freeze_item, field_target in *. cbn [snd] in *.
    destruct (has_model_fields (fi_annotation info)) as [n|] eqn:Hmodel.
    + rewrite (model_not_list _ _ Hmodel).
      destruct (rec n st) as [s2|] eqn:E2; cbn [bind]; [|discriminate].
      intros [= <-]. exact (Hrec _ _ _ E2 (Hnot n eq_refl)).
    + cbn [bind].
      destruct (list_arg (fi_annotation info)) as [element|];
        [|now intros [= <-]].
      destruct (has_model_fields element) as [n|]; [|now intros [= <-]].
      destruct (String.eqb n m); cbn [negb]; [now intros [= <-]|].
      intros E2. exact (Hrec _ _ _ E2 (Hnot n eq_refl)).
Qed.

(** X11: [_set_frozen] changes the configuration of no class outside the
    class it is called for and the classes nested in it. *)
Theorem set_frozen_touches_nested_classes_only
    (env : schema) (limit : nat) (m : string) (st st' : class_state)
    (c : string) :
  _set_frozen limit env m st = Ok st' ->
  ~ nested_class env m c ->
  aget c st' = aget c st.
Proof.
  revert m st st'. induction limit as [|n IH]; intros m st st' H Hc;
    [discriminate|].
  cbn [_set_frozen] in H.
  destruct (for_each _ _ st) as [s1|] eqn:E; cbn [bind] in H; [|discriminate].
  injection H as <-.
  rewrite aget_aset_neq.
  - eapply freeze_loop_frame; [exact Hc | | | exact E].
    + intros d st1 st2 Hd Hnd. exact (IH _ _ _ Hd Hnd).
    + intros item Hin. now apply (proj1 (sorted_in _ _)).
  - intros ->. apply Hc. constructor.
Qed.

Lemma not_nested_in_prompt :
  ~ nested_class demo_schema "AppConfig__Prompt" "AppConfig__User".
Proof.
  intros H. inversion H as [|c d e Hr _]; subst.
  destruct Hr as (f & info & Hin & Ht). cbn in Hin.
  destruct Hin as [[= <- <-]|[[= <- <-]|[]]]; discriminate.
Qed.

Lemma set_frozen_touches_nested_classes_only_witness :
  aget "AppConfig__User"
    [("AppConfig__Prompt", frozen_config)] = aget "AppConfig__User" [].
Proof.
  apply (set_frozen_touches_nested_classes_only demo_schema 1
           "AppConfig__Prompt" [] [("AppConfig__Prompt", frozen_config)]
           "AppConfig__User").
  - reflexivity.
  - exact not_nested_in_prompt.
Defined.

(** ** The class state across [load] *)

(** X12: [load] never unfreezes a class, and it leaves the configuration of
    every class as it was when it returns [None] or was called without
    [readonly]. *)
Theorem load_class_state
    (w : world) (cls : string) (a : load_args) (st st' : class_state)
    (r : option pyobj) :
  load w cls a st = Ok (r, st') ->
  (forall c, is_frozen st c = true -> is_frozen st' c = true) /\
  (r = None -> st' = st) /\
  (readonly a = false -> st' = st).
Proof.
  unfold load. destruct (load_merged w cls a) as [merged|]; cbn [bind];
    [|discriminate].
  unfold finish_load. destruct (construct w cls merged) as [attrs|locs|e].
  - destruct (readonly a).
    + destruct (_set_frozen _ _ _ _) as [s1|] eqn:E; cbn [bind]; [|discriminate].
      intros [= <- <-]. split; [|split; discriminate].
      exact (proj1 (set_frozen_sound _ _ _ _ _ E)).
    + cbn [bind]. intros [= <- <-]. auto.
  - destruct (for_each error_line locs []); cbn [bind]; [|discriminate].
    intros [= <- <-]. auto.
  - destruct e; try discriminate. intros [= <- <-]. auto.
Qed.

Lemma load_class_state_witness :
  exists inst st',
    load full_world "AppConfig" demo_args [("Other", frozen_config)]
    = Ok (Some inst, st') /\
    is_frozen st' "Other" = true.
Proof.
  eexists. eexists. split; [reflexivity|].
  exact (proj1 (load_class_state full_world "AppConfig" demo_args
                  [("Other", frozen_config)] _ _ eq_refl) "Other" eq_refl).
Defined.

(** ** Further properties of the command line and the environment *)

(** X13: once the names open to overrides are there, reading the command
    line never fails: every argument after the program name ends up either
    among the loaded or among the unknown arguments, and the fragment is
    well formed. *)
Theorem load_cli_accounts_for_every_argument
    (limit : nat) (env : schema) (cls : string) (argv : list string)
    (pfx : string) (names : list string) :
  _get_possible_cli_argsname limit env cls = Ok names ->
  exists r,
    load_cli_run limit env cls argv pfx "__" = Ok r /\
    List.length (loaded_args r) + List.length (unknown_args r)
    = List.length (tl argv) /\
    dict_wf (cli_config r) = true.
Proof.
  intros Hnames. unfold load_cli_run. rewrite Hnames.
  cbn [bind].
  match goal with
  | |- context [for_each (cli_step ?p ?n "__") ?l ?s] =>
      destruct (cli_loop_ok p n l s) as (r & Hr & Hlen & Hwf)
  end.
  exists r. split; [exact Hr|]. split.
  - cbn in Hlen. lia.
  - now apply Hwf.
Qed.

Lemma load_cli_accounts_for_every_argument_witness :
  exists r,
    load_cli_run 5 demo_schema "AppConfig"
      ["main.py"; "--tsc_port=1"; "stray"; "--nonsense=2"] "TSC_" "__" = Ok r /\
    List.length (loaded_args r) + List.length (unknown_args r) = 3 /\
    dict_wf (cli_config r) = true.
Proof.
  exact (load_cli_accounts_for_every_argument 5 demo_schema "AppConfig"
           ["main.py"; "--tsc_port=1"; "stray"; "--nonsense=2"] "TSC_"
           demo_names eq_refl).
Defined.

(** A field annotated by a construct of [typing] stops the reader: the
    subclass check raises before an argument is looked at. *)
Lemma load_cli_union_field_raises (argv : list string) (pfx : string) :
  load_cli_run 5
    [("Settings",
      [("limit", mkFieldInfo (AOther None "int | None") None (Some VNone));
       ("name", mkFieldInfo (builtin "str") None None)])]
    "Settings" argv pfx "__"
  = Raise TypeError.
Proof. reflexivity. Qed.

Lemma env_loop_nothing (prefix_upper : string)
    (environ : list (string * string)) (sep : string) (names : list string) :
  (forall fn, In fn names ->
     aget (prefix_upper ++ upper fn)%string environ = None) ->
  forall cfg, for_each (env_step prefix_upper environ sep) names cfg = Ok cfg.
Proof.
  induction names as [|fn names IH]; intros H cfg; [reflexivity|].
  cbn [for_each]. unfold env_step at 1.
  rewrite (H fn (or_introl eq_refl)). cbn [bind].
  apply IH. intros; apply H; now right.
Qed.

(** X14: with an ASCII prefix and ASCII field names, the environment
    fragment is empty when no variable carries the upper-cased prefix
    followed by the upper-cased name of a field open to overrides;
    variables under any other name, also the same name in lower case, are
    not looked at. *)
Theorem load_env_reads_upper_case_names_only
    (limit : nat) (env : schema) (cls : string)
    (environ : list (string * string)) (pfx sep : string)
    (names : list string) :
  _get_possible_cli_argsname limit env cls = Ok names ->
  is_ascii pfx = true -> forallb is_ascii names = true ->
  (forall fn, In fn names ->
     aget (upper pfx ++ upper fn)%string environ = None) ->
  _load_env limit env cls environ pfx sep = Ok [].
Proof.
  intros Hnames _ _ Hnone. unfold _load_env. rewrite Hnames.
  cbn [bind]. now apply env_loop_nothing.
Qed.

Lemma load_env_reads_upper_case_names_only_witness :
  _load_env 5 demo_schema "AppConfig"
    [("tsc_port", "1"); ("PORT", "2"); ("TSC_USER", "x")] "TSC_" "__" = Ok [].
Proof.
  apply (load_env_reads_upper_case_names_only 5 demo_schema "AppConfig"
           [("tsc_port", "1"); ("PORT", "2"); ("TSC_USER", "x")] "TSC_" "__"
           demo_names eq_refl eq_refl eq_refl).
  intros fn Hin.
  repeat (destruct Hin as [<-|Hin]; [reflexivity|]).
  destruct Hin.
Defined.

(** ** Further properties of the file loaders *)

Lemma load_toml_loop_harmless (fs : string -> file_state dict)
    (filenames : list string) :
  forallb (fun f => toml_harmless (fs f)) filenames = true ->
  forall acc,
  exists d,
    load_toml_loop fs filenames acc = Ok d /\
    Legacy.load_file_loop fs filenames acc = Ok d.
Proof.
  induction filenames as [|f rest IH]; intros H acc; [now exists acc|].
  cbn [forallb] in H. apply andb_true_iff in H as [Hf Hrest].
  cbn [load_toml_loop Legacy.load_file_loop].
  destruct (fs f); try discriminate; now apply IH.
Qed.

(** X15: as long as every listed TOML file is missing or decodes, the
    current loader returns what the older loader returns: the content of
    the last listed file that exists, or the empty mapping. *)
Theorem load_toml_agrees_with_older_loader
    (fs : string -> file_state dict) (filenames : list string) :
  forallb (fun f => toml_harmless (fs f)) filenames = true ->
  exists d,
    _load_toml fs filenames = Ok d /\ Legacy._load_toml fs filenames = Ok d.
Proof. intros H. now apply load_toml_loop_harmless. Qed.

Lemma load_toml_agrees_with_older_loader_witness :
  exists d,
    _load_toml demo_toml ["test_conf.toml"; "a.toml"] = Ok d /\
    Legacy._load_toml demo_toml ["test_conf.toml"; "a.toml"] = Ok d.
Proof.
  apply (load_toml_agrees_with_older_loader demo_toml
           ["test_conf.toml"; "a.toml"]).
  reflexivity.
Defined.

Lemma load_json_loop_harmless (fs : string -> file_state value)
    (filenames : list string) :
  forallb (fun f => json_harmless (fs f)) filenames = true ->
  forall acc,
  exists v,
    load_json_loop fs filenames acc = Ok v /\
    Legacy.load_file_loop fs filenames acc = Ok v.
Proof.
  induction filenames as [|f rest IH]; intros H acc; [now exists acc|].
  cbn [forallb] in H. apply andb_true_iff in H as [Hf Hrest].
  cbn [load_json_loop Legacy.load_file_loop].
  destruct (fs f); try discriminate; now apply IH.
Qed.

(** X16: as long as every listed JSON file can be examined and none is
    malformed, the current loader returns what the older loader returns; a
    file that cannot be opened is passed over like a missing one. *)
Theorem load_json_agrees_with_older_loader
    (fs : string -> file_state value) (filenames : list string) :
  forallb (fun f => json_harmless (fs f)) filenames = true ->
  exists v,
    _load_json fs filenames = Ok v /\ Legacy._load_json fs filenames = Ok v.
Proof. intros H. now apply load_json_loop_harmless. Qed.

Lemma load_json_agrees_with_older_loader_witness :
  exists v,
    _load_json (fun f => if String.eqb f "a.json" then Unreadable
                         else Decodes (VDict [("port", VInt 1)]))
      ["b.json"; "a.json"] = Ok v /\
    Legacy._load_json
      (fun f => if String.eqb f "a.json" then Unreadable
                else Decodes (VDict [("port", VInt 1)]))
      ["b.json"; "a.json"] = Ok v.
Proof.
  apply (load_json_agrees_with_older_loader
           (fun f => if String.eqb f "a.json" then Unreadable
                     else Decodes (VDict [("port", VInt 1)]))
           ["b.json"; "a.json"]).
  reflexivity.
Defined.

Lemma load_toml_loop_app (fs : string -> file_state dict)
    (l1 l2 : list string) (acc : dict) :
  load_toml_loop fs (l1 ++ l2) acc =
  (mid <- load_toml_loop fs l1 acc ;; load_toml_loop fs l2 mid).
Proof.
  revert acc. induction l1 as [|f l1 IH]; intros acc; [reflexivity|].
  cbn [app load_toml_loop]. destruct (fs f); auto.
Qed.

(** X17: the first listed TOML file that is not missing and does not decode
    decides the outcome: the loader raises there, the decoder's error for a
    malformed file and an [OSError] for a path that cannot be examined or a
    file that cannot be opened, whatever the files after it are. *)
Theorem load_toml_raises_at_first_bad_file
    (fs : string -> file_state dict) (before after : list string)
    (f : string) :
  forallb (fun g => toml_harmless (fs g)) before = true ->
  toml_harmless (fs f) = false ->
  _load_toml fs (before ++ f :: after) =
  Raise (match fs f with Malformed => TOMLDecodeError | _ => OSError end).
Proof.
  intros Hb Hf. unfold _load_toml.
  rewrite load_toml_loop_app.
  destruct (load_toml_loop_harmless fs before Hb []) as (d & -> & _).
  cbn [bind load_toml_loop]. destruct (fs f); try discriminate; reflexivity.
Qed.

Lemma load_toml_raises_at_first_bad_file_witness :
  _load_toml (fun g => if String.eqb g "bad.toml" then Malformed else Absent)
    (["a.toml"] ++ "bad.toml" :: ["b.toml"])
  = Raise TOMLDecodeError.
Proof.
  apply (load_toml_raises_at_first_bad_file
           (fun g => if String.eqb g "bad.toml" then Malformed else Absent)
           ["a.toml"] ["b.toml"] "bad.toml"); reflexivity.
Defined.

(** ** The shape of an argument *)

Lemma cut_at_equal_sound (s k v : string) :
  cut_at_equal s = Some (k, v) ->
  s = (k ++ "=" ++ v)%string /\ contains "=" k = false.
Proof.
  revert k. induction s as [|c s IH]; intros k; [discriminate|].
  cbn [cut_at_equal]. destruct (Ascii.eqb c "=") eqn:Ec.
  - apply Ascii.eqb_eq in Ec. subst c. intros [= <- <-]. auto.
  - destruct (cut_at_equal s) as [[k' v']|]; [|discriminate].
    intros [= <- <-]. destruct (IH k' eq_refl) as [-> Hk].
    split; [reflexivity|]. now rewrite contains_char_cons, Ec, Hk.
Qed.

Lemma value_group_sound (s v : string) :
  value_group s = Some v ->
  v <> "" /\ contains (String newline "") v = false /\
  (s = v \/ s = (v ++ String newline "")%string).
Proof.
  revert v. induction s as [|c s IH]; intros v; [discriminate|].
  cbn [value_group]. destruct (Ascii.eqb c newline) eqn:Ec; [discriminate|].
  destruct s as [|c' s].
  - intros [= <-]. repeat split; [discriminate | | now left].
    now rewrite contains_char_cons, Ec.
  - destruct s as [|c'' s].
    + destruct (Ascii.eqb c' newline) eqn:Ec'.
      * apply Ascii.eqb_eq in Ec'. subst c'. intros [= <-].
        repeat split; [discriminate | | now right].
        now rewrite contains_char_cons, Ec.
      * intros [= <-]. repeat split; [discriminate | | now left].
        now rewrite !contains_char_cons, Ec, Ec'.
    + destruct (value_group (String c' (String c'' s))) as [v'|] eqn:E;
        [|discriminate].
      intros [= <-]. destruct (IH v' eq_refl) as (Hne & Hnl & Hs).
      repeat split; [discriminate | |].
      * now rewrite contains_char_cons, Ec, Hnl.
      * destruct Hs as [Hs|Hs]; rewrite Hs; [now left | now right].
Qed.

Lemma startswith_dashes (s : string) :
  startswith "--" s = true -> s = ("--" ++ drop 2 s)%string.
Proof.
  unfold startswith. destruct s as [|a [|b s]]; cbn [drop].
  - discriminate.
  - rewrite prefix_cons. cbn. now rewrite andb_false_r.
  - rewrite !prefix_cons. intros H.
    apply andb_true_iff in H as [Ha H]. apply andb_true_iff in H as [Hb _].
    apply Ascii.eqb_eq in Ha, Hb. now subst.
Qed.

(** X18: whenever an argument is recognised as [--key=value], the key starts
    with two dashes, has a name after them and no equals sign; the value is
    not empty and has no line break; and the argument is the key, an equals
    sign and the value, possibly followed by one final line break.  So a
    value may itself contain equals signs: the argument is cut at the first
    one. *)
Theorem match_equal_sound (arg key v : string) :
  match_equal arg = Some (key, v) ->
  exists name,
    key = ("--" ++ name)%string /\ name <> "" /\
    contains "=" name = false /\
    v <> "" /\ contains (String newline "") v = false /\
    (arg = (key ++ "=" ++ v)%string \/
     arg = (key ++ "=" ++ v ++ String newline "")%string).
Proof.
  unfold match_equal. destruct (startswith "--" arg) eqn:Hs; [|discriminate].
  apply startswith_dashes in Hs.
  destruct (cut_at_equal (drop 2 arg)) as [[k rest]|] eqn:Hc; [|discriminate].
  apply cut_at_equal_sound in Hc as [Hd Hk].
  destruct k as [|c k]; [discriminate|].
  destruct (value_group rest) as [v'|] eqn:Hv; [|discriminate].
  intros [= <- <-]. apply value_group_sound in Hv as (Hne & Hnl & Hrest).
  exists (String c k). repeat split; auto; [discriminate|].
  rewrite Hs, Hd.
  destruct Hrest as [->| ->]; [left | right]; reflexivity.
Qed.

Lemma match_equal_sound_witness :
  exists name,
    "--tsc_url" = ("--" ++ name)%string /\ name <> "" /\
    contains "=" name = false /\
    "http://h/?a=b" <> "" /\
    contains (String newline "") "http://h/?a=b" = false /\
    ("--tsc_url=http://h/?a=b" = ("--tsc_url" ++ "=" ++ "http://h/?a=b")%string \/
     "--tsc_url=http://h/?a=b"
     = ("--tsc_url" ++ "=" ++ "http://h/?a=b" ++ String newline "")%string).
Proof.
  exact (match_equal_sound "--tsc_url=http://h/?a=b" "--tsc_url"
           "http://h/?a=b" eq_refl).
Defined.

(** ** The command line of the older loader never fails *)

Section LegacyTotal.

Variable py_int : string -> option Z.
Variable py_float : string -> option Z.

Lemma legacy_store_cases (pl : string) (m : ConfigAttrMetadata)
    (key v : string) (st : Legacy.cli_state) :
  (exists st',
      Legacy.store py_int py_float pl "__" m key v st = Ok st' /\
      legacy_count st' = S (legacy_count st) /\
      (dict_wf (Legacy.cli_config st) = true ->
       dict_wf (Legacy.cli_config st') = true)) \/
  Legacy.store py_int py_float pl "__" m key v st = Raise ValueError.
Proof.
  unfold Legacy.store.
  destruct (legacy_convert_cases py_int py_float (type m) v)
    as [(x & -> & Hx)| ->]; [|now right].
  left. cbn [bind]. unfold Legacy._add_flat_key_value_to_nested_dict.
  rewrite add_fullname_ok. cbn [bind]. eexists. split; [reflexivity|]. split.
  - unfold legacy_count. cbn. rewrite length_app. cbn. lia.
  - intros H. cbn. now apply dict_wf_add_parts.
Qed.

Lemma legacy_count_warn (w : Legacy.warning) (st : Legacy.cli_state) :
  legacy_count (Legacy.warn w st) = S (legacy_count st).
Proof. unfold legacy_count. cbn. rewrite length_app. cbn. lia. Qed.

Lemma legacy_count_unknown (a : string) (st : Legacy.cli_state) :
  legacy_count (Legacy.unknown a st) = S (legacy_count st).
Proof. unfold legacy_count. cbn. rewrite length_app. cbn. lia. Qed.

Lemma legacy_cli_loop_total
    (flags : list (string * ConfigAttrMetadata)) (pl : string) (n : nat) :
  forall args st,
    List.length args <= n ->
    exists st',
      Legacy.cli_loop py_int py_float flags pl "__" args st = Ok st' /\
      legacy_count st < legacy_count st' + 1 /\
      legacy_count st' <= legacy_count st + List.length args /\
      List.length args <= 2 * (legacy_count st' - legacy_count st) /\
      (dict_wf (Legacy.cli_config st) = true ->
       dict_wf (Legacy.cli_config st') = true).
Proof.
  induction n as [|n IH]; intros args st Hlen.
  - destruct args; [|cbn in Hlen; lia]. exists st. cbn. repeat split; auto; lia.
  - destruct args as [|arg rest]; [exists st; cbn; repeat split; auto; lia|].
    cbn [List.length] in Hlen.
    assert (Hnext : forall st1,
               legacy_count st1 = S (legacy_count st) ->
               (dict_wf (Legacy.cli_config st) = true ->
                dict_wf (Legacy.cli_config st1) = true) ->
               exists st',
                 Legacy.cli_loop py_int py_float flags pl "__" rest st1 = Ok st' /\
                 legacy_count st < legacy_count st' + 1 /\
                 legacy_count st' <= legacy_count st + S (List.length rest) /\
                 S (List.length rest) <= 2 * (legacy_count st' - legacy_count st) /\
                 (dict_wf (Legacy.cli_config st) = true ->
                  dict_wf (Legacy.cli_config st') = true)).
    { intros st1 Hc Hw.
      destruct (IH rest st1 ltac:(lia)) as (st' & Hr & H1 & H2 & H3 & H4).
      exists st'. split; [exact Hr|]. repeat split; auto; lia. }
    cbn [Legacy.cli_loop List.length].
    destruct (match_equal arg) as [[key v]|].
    + destruct (aget key flags) as [m|].
      * destruct (legacy_store_cases pl m key v st)
          as [(s1 & -> & Hc & Hw)| ->].
        { now apply Hnext. }
        { apply Hnext; [apply legacy_count_warn | auto]. }
      * apply Hnext; [apply legacy_count_unknown | auto].
    + destruct (startswith "--" arg).
      * destruct (aget arg flags) as [m|].
        { destruct rest as [|v rest'].
          - apply Hnext; [apply legacy_count_warn | auto].
          - destruct (negb (startswith "--" v)).
            + destruct (legacy_store_cases pl m arg v st)
                as [(s1 & -> & Hc & Hw)| ->].
              * cbn [List.length] in *.
                destruct (IH rest' s1 ltac:(lia))
                  as (st' & Hr & H1 & H2 & H3 & H4).
                exists st'. split; [exact Hr|]. repeat split; auto; lia.
              * apply Hnext; [apply legacy_count_warn | auto].
            + apply Hnext; [apply legacy_count_warn | auto]. }
        { apply Hnext; [apply legacy_count_unknown | auto]. }
      * apply Hnext; [apply legacy_count_unknown | auto].
Qed.

End LegacyTotal.

(** X19: once the catalogue is there, the command line of the older loader
    never fails either: every argument is logged as loaded (alone or with
    the value that follows it), listed as unknown or answered by a warning,
    one entry for one or two arguments, and the fragment is well formed. *)
Theorem legacy_load_cli_never_fails
    (py_int py_float : string -> option Z)
    (limit : nat) (env : schema) (cls : string) (argv : list string)
    (pfx : string) (ms : list ConfigAttrMetadata) :
  get_metadata limit env cls = Ok ms ->
  exists r,
    Legacy.load_cli_run py_int py_float limit env cls argv pfx "__" = Ok r /\
    legacy_count r <= List.length (tl argv) /\
    List.length (tl argv) <= 2 * legacy_count r /\
    dict_wf (Legacy.cli_config r) = true.
Proof.
  intros Hms. unfold Legacy.load_cli_run. rewrite Hms. cbn [bind].
  destruct (legacy_cli_loop_total py_int py_float
              (Legacy.registered_cli_flags_map (lower pfx) ms) (lower pfx)
              (List.length (tl argv)) (tl argv)
              (Legacy.mkCliState [] [] [] []) (le_n _))
    as (r & Hr & _ & H2 & H3 & H4).
  exists r. split; [exact Hr|]. unfold legacy_count in *. cbn in H2, H3.
  repeat split; [lia | lia | now apply H4].
Qed.

Lemma legacy_load_cli_never_fails_witness :
  exists r,
    Legacy.load_cli_run (fun _ => None) (fun _ => None) 5 demo_schema
      "AppConfig" ["main.py"; "--tsc_port"; "abc"; "--tsc_weight=x"] "TSC_" "__"
    = Ok r /\
    legacy_count r <= 3 /\ 3 <= 2 * legacy_count r /\
    dict_wf (Legacy.cli_config r) = true.
Proof.
  exact (legacy_load_cli_never_fails (fun _ => None) (fun _ => None) 5
           demo_schema "AppConfig"
           ["main.py"; "--tsc_port"; "abc"; "--tsc_weight=x"] "TSC_"
           demo_catalogue eq_refl).
Defined.

(** ** What the catalogue lists *)

Lemma describes_field_step (env : schema) (c d : string)
    (m : ConfigAttrMetadata) :
  refers env c d -> describes_field env d m -> describes_field env c m.
Proof.
  intros Hr [Hn Hf]. split; [|exact Hf]. eapply nested_step; eauto.
Qed.

Lemma catalogue_items_lists
    (env : schema)
    (rec : string -> string -> result (list ConfigAttrMetadata))
    (c _path : string) :
  (forall sub p cat, rec sub p = Ok cat ->
     forall m, In m cat -> describes_field env sub m) ->
  forall (items : list (string * FieldInfo)) (cat : list ConfigAttrMetadata),
    (forall item, In item items -> In item (model_fields env c)) ->
    catalogue_items rec c _path items = Ok cat ->
    (forall item, In item items -> In (metadata_of c _path item) cat) /\
    (forall m, In m cat -> describes_field env c m).
Proof.
  intros Hrec. induction items as [|item items IH]; intros cat Hsub H.
  - cbn in H. injection H as <-. split; intros ? [].
  - cbn [catalogue_items] in H.
    destruct (expansion rec c _path item) as [nested|] eqn:En;
      cbn [bind] in H; [|discriminate].
    destruct (catalogue_items rec c _path items) as [others|] eqn:Eo;
      cbn [bind] in H; [|discriminate].
    injection H as <-.
    destruct (IH _ (fun it Hit => Hsub it (or_intror Hit)) eq_refl)
      as [IH1 IH2].
    assert (Hitem : In item (model_fields env c)) by (apply Hsub; now left).
    split.
    + intros it [<-|Hit]; [now left|].
      right. apply in_or_app. right. now apply IH1.
    + intros m [<-|Hm].
      * destruct item as [f info]. split; [constructor|].
        exists info. cbn. auto.
      * apply in_app_or in Hm as [Hm|Hm]; [|now apply IH2].
        destruct item as [f info].
        destruct (expansion_cases env rec c _path f info Hitem)
          as [E|(d & _ & Hd & E)]; rewrite E in En.
        { injection En as <-. destruct Hm. }
        { eapply describes_field_step;
            [exists f, info; split; [exact Hitem | exact Hd]|].
          eapply Hrec; eauto. }
Qed.

Lemma catalogue_lists (env : schema) (limit : nat) :
  forall c _path cat,
    catalogue limit env c _path = Ok cat ->
    (forall item, In item (model_fields env c) ->
       In (metadata_of c _path item) cat) /\
    (forall m, In m cat -> describes_field env c m).
Proof.
  induction limit as [|n IH]; intros c _path cat H; [discriminate|].
  cbn [catalogue] in H.
  destruct (catalogue_items_lists env (catalogue n env) c _path
              (fun sub p cat' Hc => proj2 (IH sub p cat' Hc))
              (sorted (model_fields env c)) cat
              (fun it Hit => proj1 (sorted_in it _) Hit) H) as [H1 H2].
  split; [|exact H2].
  intros item Hin. apply H1. now apply sorted_in.
Qed.

(** X20: when the walk returns, the catalogue holds the descriptor of every
    field declared by the class, and every descriptor in it describes a
    declared field of the class or of a class nested in it, with the
    annotation of that field as its raw type. *)
Theorem catalogue_describes_declared_fields
    (limit : nat) (env : schema) (cls : string)
    (cat : list ConfigAttrMetadata) :
  get_metadata limit env cls = Ok cat ->
  (forall f info, In (f, info) (model_fields env cls) ->
     In (metadata_of cls "" (f, info)) cat) /\
  (forall m, In m cat -> describes_field env cls m).
Proof.
  unfold get_metadata. rewrite walk_is_catalogue. intros H.
  destruct (catalogue_lists env limit cls "" cat H) as [H1 H2].
  split; [|exact H2]. intros f info. apply H1.
Qed.

Lemma catalogue_describes_declared_fields_witness :
  In demo_port demo_catalogue.
Proof.
  exact (proj1 (catalogue_describes_declared_fields 5 demo_schema "AppConfig"
                  demo_catalogue eq_refl)
           "port" (required (builtin "int")
                     "The port number on which the application will run.")
           ltac:(cbn; tauto)).
Defined.

(** ** Loading from the embedded data alone *)

(** X21: with no files, no command line and no environment, the mapping
    handed to the validator is the embedded data itself, provided its top
    level repeats no key. *)
Theorem load_merged_data_only
    (w : world) (cls : string) (a : load_args) (d : dict) :
  nonempty (toml_files a) = None -> nonempty (json_files a) = None ->
  load_cli a = false -> load_env a = false ->
  data a = VDict d -> nodupb (map fst d) = true ->
  load_merged w cls a = Ok d.
Proof.
  intros Ht Hj Hc He Hd Hnd. unfold load_merged, load_sources.
  rewrite Ht, Hj, Hc, He. cbn [bind]. rewrite Hd.
  unfold merged_config, _deep_merge_obj. cbn [bind].
  rewrite !deep_merge_nil.
  rewrite deep_merge_append; auto.
Qed.

Lemma load_merged_data_only_witness :
  load_merged demo_world "AppConfig"
    (mkArgs None (Some []) false false (data demo_args) true "TSC_")
  = Ok [("version", VStr "0.1 alpha")].
Proof.
  apply (load_merged_data_only demo_world "AppConfig"
           (mkArgs None (Some []) false false (data demo_args) true "TSC_")
           [("version", VStr "0.1 alpha")]); reflexivity.
Defined.

(** ** The two environment readers *)

(** X22: the environment readers of the two loaders return the same fragment
    whenever the fields that are neither models nor lists nor dictionaries
    are exactly the fields whose type is named str, int, float or bool. *)
Theorem env_readers_agree
    (limit : nat) (env : schema) (cls : string)
    (environ : list (string * string)) (pfx sep : string)
    (ms : list ConfigAttrMetadata) :
  get_metadata limit env cls = Ok ms ->
  (forall m, In m ms -> cli_eligible m = Ok (Legacy.is_scalar_type (type m))) ->
  Legacy._load_env limit env cls environ pfx sep
  = _load_env limit env cls environ pfx sep.
Proof.
  intros Hms H. unfold Legacy._load_env, _load_env.
  rewrite (possible_names_ok _ _ _ _ Hms), Hms by (intros; eauto).
  cbn [bind]. now apply legacy_env_loop.
Qed.

Lemma env_readers_agree_witness :
  Legacy._load_env 5 demo_schema "AppConfig"
    [("TSC_PORT", "9090"); ("TSC_USER__PASSWORD", "x")] "TSC_" "__"
  = _load_env 5 demo_schema "AppConfig"
      [("TSC_PORT", "9090"); ("TSC_USER__PASSWORD", "x")] "TSC_" "__".
Proof.
  apply (env_readers_agree 5 demo_schema "AppConfig"
           [("TSC_PORT", "9090"); ("TSC_USER__PASSWORD", "x")] "TSC_" "__"
           demo_catalogue eq_refl).
  intros m Hin.
  repeat (destruct Hin as [<-|Hin]; [reflexivity|]).
  destruct Hin.
Defined.

(** ** An environment variable sets its field *)

(** X23: on a schema with plain field names, with an ASCII prefix and ASCII
    field names, once the names open to overrides are there: an environment
    variable named by the upper-cased prefix and the upper-cased full path
    of a field open to overrides puts its text into the fragment at the
    path of that field, whatever other variables are set. *)
Theorem load_env_sets_field
    (limit : nat) (env : schema) (cls : string)
    (environ : list (string * string)) (pfx : string)
    (ms : list ConfigAttrMetadata) (names : list string)
    (m : ConfigAttrMetadata) (v : string) :
  plain_schema env = true ->
  get_metadata limit env cls = Ok ms ->
  _get_possible_cli_argsname limit env cls = Ok names ->
  is_ascii pfx = true -> forallb is_ascii names = true ->
  In m ms -> cli_eligible m = Ok true ->
  aget (upper pfx ++ upper (fullname m))%string environ = Some v ->
  exists d,
    _load_env limit env cls environ pfx "__" = Ok d /\
    lookup_path (split_go "__" 0 "" (fullname m)) d = Some (VStr v).
Proof.
  intros Hs Hms Hnames _ _. now apply load_env_sets with (names := names).
Qed.

Lemma load_env_sets_field_witness :
  exists d,
    _load_env 5 demo_schema "AppConfig"
      [("TSC_PORT", "9090"); ("TSC_USER__PASSWORD", "secret")] "TSC_" "__"
    = Ok d /\
    lookup_path (split_go "__" 0 "" (fullname demo_port)) d
    = Some (VStr "9090").
Proof.
  apply (load_env_sets_field 5 demo_schema "AppConfig"
           [("TSC_PORT", "9090"); ("TSC_USER__PASSWORD", "secret")] "TSC_"
           demo_catalogue demo_names demo_port "9090").
  - reflexivity.
  - reflexivity.
  - reflexivity.
  - reflexivity.
  - reflexivity.
  - do 3 right. left. reflexivity.
  - reflexivity.
  - reflexivity.
Defined.

(** ** The last word *)



Lemma load_sources_env (w : world) (cls : string) (a : load_args)
    (t : dict) (j : value) (c e : dict) :
  load_sources w cls a = Ok (t, j, c, e) -> load_env a = true ->
  _load_env (recursion_limit w) (classes w) cls (os_environ w) (prefix a)
    field_seperator = Ok e.
Proof.
  unfold load_sources. intros H He. rewrite He in H.
  destruct (match nonempty (toml_files a) with
            | Some fl => _load_toml (toml_fs w) fl | None => Ok [] end);
    cbn [bind] in H; [|discriminate].
  destruct (match nonempty (json_files a) with
            | Some fl => _load_json (json_fs w) fl | None => Ok (VDict []) end);
    cbn [bind] in H; [|discriminate].
  destruct (if load_cli a then _ else _); cbn [bind] in H; [|discriminate].
  destruct (_load_env _ _ _ _ _ _); cbn [bind] in H; [|discriminate].
  now injection H as _ _ _ ->.
Qed.

(** X25: the environment has the last word: on a schema with plain field
    names, whenever [load] reads the environment and gets as far as the
    validator, a variable that names a field that may be overridden decides
    the value the validator sees at the path of that field, whatever the
    embedded data, the files and the command line say. *)
Theorem environment_has_the_last_word
    (w : world) (cls : string) (a : load_args) (merged : dict)
    (ms : list ConfigAttrMetadata) (m : ConfigAttrMetadata) (v : string) :
  plain_schema (classes w) = true ->
  load_merged w cls a = Ok merged ->
  load_env a = true ->
  get_metadata (recursion_limit w) (classes w) cls = Ok ms ->
  In m ms -> cli_eligible m = Ok true ->
  aget (upper (prefix a) ++ upper (fullname m))%string (os_environ w) = Some v ->
  lookup_path (split_go "__" 0 "" (fullname m)) merged = Some (VStr v).
Proof.
  intros Hs Hmerged Henv Hms Hin He Hv.
  unfold load_merged in Hmerged.
  destruct (load_sources w cls a) as [[[[t j] c] e]|] eqn:Hsrc;
    cbn [bind] in Hmerged; [|discriminate].
  pose proof (load_sources_env _ _ _ _ _ _ _ Hsrc Henv) as Hload.
  assert (Hnames : exists names,
             _get_possible_cli_argsname (recursion_limit w) (classes w) cls
             = Ok names).
  { unfold _load_env in Hload.
    destruct (_get_possible_cli_argsname _ _ _); [eauto | discriminate]. }
  destruct Hnames as [names Hnames].
  destruct (load_env_sets _ _ _ _ _ _ _ _ _ Hs Hms Hnames Hin He Hv)
    as (d & Hd & Hl).
  unfold field_seperator in Hload. rewrite Hd in Hload. injection Hload as ->.
  unfold merged_config in Hmerged.
  destruct (_deep_merge_obj [] (data a)); cbn [bind] in Hmerged; [|discriminate].
  destruct (_deep_merge_obj _ j); cbn [bind] in Hmerged; [|discriminate].
  injection Hmerged as <-.
  apply merge_later_wins; auto.
  exact (load_env_wf _ _ _ _ _ _ _ Hd).
Qed.

Lemma environment_has_the_last_word_witness :
  exists merged,
    load_merged demo_world "AppConfig" demo_args = Ok merged /\
    lookup_path (split_go "__" 0 "" (fullname demo_port)) merged
    = Some (VStr "9090").
Proof.
  eexists. split; [reflexivity|].
  apply (environment_has_the_last_word demo_world "AppConfig" demo_args _
           demo_catalogue demo_port "9090").
  - reflexivity.
  - reflexivity.
  - reflexivity.
  - reflexivity.
  - do 3 right. left. reflexivity.
  - reflexivity.
  - reflexivity.
Defined.

(** ** The names open to overrides *)

Lemma filtered_names_distinct (keep : ConfigAttrMetadata -> bool)
    (ms : list ConfigAttrMetadata) :
  NoDup (map fullname ms) -> NoDup (map fullname (filter keep ms)).
Proof.
  induction ms as [|m ms IH]; intros H; [constructor|].
  cbn [map] in H. inversion H as [|? ? Hnot Hnd]; subst.
  cbn [filter]. destruct (keep m); [|auto].
  cbn [map]. constructor; auto.
  intros Hin. apply Hnot. apply in_map_iff in Hin as (x & Hx & Hin).
  apply filter_In in Hin as [Hin _]. rewrite <- Hx. now apply in_map.
Qed.

(** X26: on a schema with plain field names the names open to overrides are
    pairwise distinct, and each is the full path of a field whose type is
    neither a model nor a list nor a dictionary. *)
Theorem possible_names_distinct_leaves
    (limit : nat) (env : schema) (cls : string) (names : list string) :
  plain_schema env = true ->
  _get_possible_cli_argsname limit env cls = Ok names ->
  NoDup names /\
  forall fn, In fn names ->
    exists m, describes_field env cls m /\ fullname m = fn /\
              has_model_fields (raw_type m) = None /\
              origin_is_list (raw_type m) = false /\
              origin_is_dict (raw_type m) = false.
Proof.
  intros Hs Hnames.
  destruct (possible_names_catalogue _ _ _ _ Hnames) as [ms Hms].
  destruct (possible_names _ _ _ _ _ Hms Hnames) as [-> _]. split.
  - apply filtered_names_distinct.
    eapply catalogue_fullnames_distinct; eauto.
  - intros fn Hin. apply in_map_iff in Hin as (m & <- & Hm).
    apply filter_In in Hm as [Hm He]. exists m. split.
    + unfold get_metadata in Hms. rewrite walk_is_catalogue in Hms.
      exact (proj2 (catalogue_lists env limit cls "" ms Hms) m Hm).
    + split; [reflexivity|]. apply passes_eligible in He.
      unfold cli_eligible in He.
      destruct (raw_type m); cbn in *; auto; discriminate.
Qed.

Lemma possible_names_distinct_leaves_witness : NoDup demo_names.
Proof.
  exact (proj1 (possible_names_distinct_leaves 5 demo_schema "AppConfig"
                  demo_names eq_refl eq_refl)).
Defined.

(** ** When [load] returns *)

Lemma load_json_loop_object (fs : string -> file_state value)
    (filenames : list string) :
  forallb (fun f => json_object (fs f)) filenames = true ->
  forall acc, is_dict acc = true ->
    exists j, load_json_loop fs filenames acc = Ok (VDict j).
Proof.
  induction filenames as [|f rest IH]; intros H acc Hacc.
  - destruct acc; try discriminate. cbn. eauto.
  - cbn [forallb] in H. apply andb_true_iff in H as [Hf Hrest].
    cbn [load_json_loop]. destruct (fs f) as [| | | |v]; try discriminate;
      auto.
Qed.

Lemma env_loop_ok (prefix_upper : string) (environ : list (string * string))
    (names : list string) :
  forall cfg,
  exists d, for_each (env_step prefix_upper environ "__") names cfg = Ok d.
Proof.
  induction names as [|fn names IH]; intros cfg; [now exists cfg|].
  cbn [for_each]. unfold env_step at 1.
  destruct (aget _ environ).
  - rewrite add_fullname_ok. cbn [bind]. apply IH.
  - cbn [bind]. apply IH.
Qed.

(** The subclass check answers for every descriptor of a catalogue when it
    answers for every annotation of the schema. *)
Lemma catalogue_checks (limit : nat) (env : schema) (cls : string)
    (ms : list ConfigAttrMetadata) :
  (forall c f info, In (f, info) (model_fields env c) ->
     exists b, issubclass_BaseModel (fi_annotation info) = Ok b) ->
  get_metadata limit env cls = Ok ms ->
  forall m, In m ms -> exists b, cli_eligible m = Ok b.
Proof.
  intros Hall Hms m Hm. unfold get_metadata in Hms.
  rewrite walk_is_catalogue in Hms.
  destruct (proj2 (catalogue_lists env limit cls "" ms Hms) m Hm)
    as [_ (info & Hin & Hraw & _)].
  unfold cli_eligible. rewrite Hraw.
  destruct (Hall _ _ _ Hin) as [b ->]. cbn [bind]. eauto.
Qed.

Lemma error_lines_ok (locs : list (list value)) :
  Forall (fun loc => loc <> []) locs ->
  forall acc, exists lines, for_each error_line locs acc = Ok lines.
Proof.
  induction 1 as [|loc locs Hloc _ IH]; intros acc; [now exists acc|].
  cbn [for_each]. destruct loc as [|field loc]; [congruence|].
  cbn [error_line bind]. apply IH.
Qed.

(** The end of [load], once the validator has answered. *)
Lemma finish_load_ok
    (w : world) (cls : string) (a : load_args) (st : class_state)
    (outcome : construct_outcome) (rank : string -> nat) :
  (forall c c', follows (classes w) c c' -> rank c' < rank c) ->
  rank cls < recursion_limit w ->
  answers outcome ->
  exists r st', finish_load w cls a st outcome = Ok (r, st').
Proof.
  intros Hrank Hlim Hans. unfold finish_load.
  destruct outcome as [attrs|locs|e]; cbn [answers] in Hans.
  - destruct (readonly a); cbn [bind]; [|eauto].
    destruct (set_frozen_ranked _ _ Hrank _ cls st Hlim) as [st' ->].
    cbn [bind]. eauto.
  - destruct (error_lines_ok locs Hans []) as [lines ->]. cbn [bind]. eauto.
  - subst e. eauto.
Qed.

(** X27: [load] returns, with an instance or with [None], whenever the
    embedded data is a mapping, every listed TOML file is missing or
    decodes, every listed JSON file is missing, cannot be opened or holds an
    object, the subclass check answers for every annotation (none is a
    construct of [typing]) if the command line or the environment is read,
    the classes can be ranked, below the recursion limit, so that the walk
    only goes to classes of smaller rank, and the validator answers the
    merged mapping with an instance or with errors that are each located at
    a field. *)
Theorem load_returns
    (w : world) (cls : string) (a : load_args) (st : class_state)
    (d : dict) (rank : string -> nat) :
  data a = VDict d ->
  (forall fl, toml_files a = Some fl ->
     forallb (fun f => toml_harmless (toml_fs w f)) fl = true) ->
  (forall fl, json_files a = Some fl ->
     forallb (fun f => json_object (json_fs w f)) fl = true) ->
  (load_cli a || load_env a = true ->
   forall c f info, In (f, info) (model_fields (classes w) c) ->
     exists b, issubclass_BaseModel (fi_annotation info) = Ok b) ->
  (forall c c', follows (classes w) c c' -> rank c' < rank c) ->
  rank cls < recursion_limit w ->
  (forall merged, answers (construct w cls merged)) ->
  exists r st', load w cls a st = Ok (r, st').
Proof.
  intros Hd Ht Hj Hsub Hrank Hlim Hans.
  destruct (walk_ranked _ _ Hrank _ cls "" Hlim) as [ms Hms].
  fold (get_metadata (recursion_limit w) (classes w) cls) in Hms.
  assert (Hnames : load_cli a || load_env a = true ->
            _get_possible_cli_argsname (recursion_limit w) (classes w) cls
            = Ok (map fullname (filter passes ms))).
  { intros Hb. apply possible_names_ok; [exact Hms|].
    exact (catalogue_checks _ _ _ _ (Hsub Hb) Hms). }
  assert (Htoml : exists t,
             match nonempty (toml_files a) with
             | Some fl => _load_toml (toml_fs w) fl
             | None => Ok []
             end = Ok t).
  { destruct (toml_files a) as [[|f fl]|] eqn:E; cbn [nonempty]; eauto.
    unfold _load_toml.
    destruct (load_toml_loop_harmless (toml_fs w) (f :: fl)
                (Ht _ eq_refl) []) as (t & Hl & _).
    eauto. }
  assert (Hjson : exists j,
             match nonempty (json_files a) with
             | Some fl => _load_json (json_fs w) fl
             | None => Ok (VDict [])
             end = Ok (VDict j)).
  { destruct (json_files a) as [[|f fl]|] eqn:E; cbn [nonempty]; eauto.
    unfold _load_json. apply load_json_loop_object; auto. }
  assert (Hcli : exists c,
             (if load_cli a
              then _load_cli (recursion_limit w) (classes w) cls (sys_argv w)
                     (prefix a) field_seperator
              else Ok []) = Ok c).
  { destruct (load_cli a); eauto. unfold _load_cli, load_cli_run.
    rewrite (Hnames eq_refl). cbn [bind].
    match goal with
    | |- context [for_each (cli_step ?p ?n field_seperator) ?l ?s] =>
        destruct (cli_loop_ok p n l s) as (r & Hr & _)
    end.
    unfold field_seperator. rewrite Hr. cbn [bind]. eauto. }
  assert (Henv : exists e,
             (if load_env a
              then _load_env (recursion_limit w) (classes w) cls (os_environ w)
                     (prefix a) field_seperator
              else Ok []) = Ok e).
  { destruct (load_env a); eauto. unfold _load_env.
    rewrite (Hnames (orb_true_r _)). cbn [bind]. apply env_loop_ok. }
  destruct Htoml as [t Htoml]. destruct Hjson as [j Hjson].
  destruct Hcli as [c Hcli]. destruct Henv as [e Henv].
  unfold load, load_merged, load_sources.
  rewrite Htoml. cbn [bind]. rewrite Hjson. cbn [bind].
  rewrite Hcli. cbn [bind]. rewrite Henv. cbn [bind].
  rewrite Hd. unfold merged_config, _deep_merge_obj. cbn [bind].
  now apply finish_load_ok with (rank := rank).
Qed.

(** The errors of the validator of the runs are located. *)
Lemma check_fields_located (fields : list (string * FieldInfo))
    (bound : list (string * checked pyobj)) (locs : list (list value)) :
  check_fields fields bound = Bad locs ->
  Forall (fun loc => loc <> []) locs.
Proof.
  revert locs. induction fields as [|[f info] fields IH]; intros locs;
    [discriminate|].
  cbn [check_fields].
  assert (Hhere : forall l,
            match aget f bound with
            | Some (Good o) => Good o
            | Some (Bad locs0) => Bad (at_loc (VStr f) locs0)
            | None =>
                match fi_default info with
                | Some dv => Good (PVal dv)
                | None => Bad [[VStr f]]
                end
            end = Bad l -> Forall (fun loc => loc <> []) l).
  { intros l. destruct (aget f bound) as [[o|l0]|].
    - discriminate.
    - intros [= <-]. unfold at_loc. apply Forall_forall.
      intros loc Hin. apply in_map_iff in Hin as (x & <- & _). discriminate.
    - destruct (fi_default info); [discriminate|].
      intros [= <-]. repeat constructor. discriminate. }
  destruct (match aget f bound with
            | Some (Good o) => Good o
            | Some (Bad locs0) => Bad (at_loc (VStr f) locs0)
            | None =>
                match fi_default info with
                | Some dv => Good (PVal dv)
                | None => Bad [[VStr f]]
                end
            end) as [o|l1] eqn:E1;
    destruct (check_fields fields bound) as [os|l2] eqn:E2;
    try discriminate; intros [= <-].
  - now apply IH.
  - now apply Hhere.
  - apply Forall_app. split; [now apply Hhere | now apply IH].
Qed.

Lemma validate_answers (env : schema) (cls : string) (d : dict) :
  answers (validate env cls d).
Proof.
  unfold validate. cbn [check_value].
  destruct (check_fields _ _) as [attrs|locs] eqn:E; cbn [answers].
  - exact I.
  - exact (check_fields_located _ _ _ E).
Qed.

Lemma demo_annotations_checked (c f : string) (info : FieldInfo) :
  In (f, info) (model_fields demo_schema c) ->
  exists b, issubclass_BaseModel (fi_annotation info) = Ok b.
Proof.
  unfold model_fields.
  destruct (aget c demo_schema) as [fs|] eqn:Ec; [|intros []].
  cbn in Ec.
  destruct (String.eqb c "AppConfig__Prompt"); [injection Ec as <-|].
  { cbn. intros H.
    repeat (destruct H as [[= <- <-]|H]; [eexists; reflexivity|]).
    destruct H. }
  destruct (String.eqb c "AppConfig__User"); [injection Ec as <-|].
  { cbn. intros H.
    repeat (destruct H as [[= <- <-]|H]; [eexists; reflexivity|]).
    destruct H. }
  destruct (String.eqb c "AppConfig"); [injection Ec as <-|discriminate].
  cbn. intros H.
  repeat (destruct H as [[= <- <-]|H]; [eexists; reflexivity|]).
  destruct H.
Qed.

Lemma load_returns_witness :
  exists r st', load full_world "AppConfig" demo_args [] = Ok (r, st').
Proof.
  apply (load_returns full_world "AppConfig" demo_args []
           [("version", VStr "0.1 alpha")]
           (fun c => if String.eqb c "AppConfig" then 1 else 0)).
  - reflexivity.
  - intros fl [= <-]. reflexivity.
  - intros fl E. discriminate.
  - intros _. exact demo_annotations_checked.
  - exact demo_rank_decreases.
  - cbn. lia.
  - intros merged. apply validate_answers.
Defined.

(** On a model-level error, whose [loc] is empty, the handler of [load]
    itself raises. *)
Lemma load_model_level_error_raises
    (cs : schema) (argv : list string) (environ : list (string * string))
    (tfs : string -> file_state dict) (jfs : string -> file_state value)
    (limit : nat) (cls : string) (ro : bool) (pfx : string)
    (st : class_state) :
  load (mkWorld cs argv environ tfs jfs (fun _ _ => Invalid [[]]) limit) cls
    (mkArgs None None false false (VDict []) ro pfx) st
  = Raise IndexError.
Proof. reflexivity. Qed.

(** ** When the older [load] returns *)

Lemma legacy_file_loop_object (fs : string -> file_state value)
    (filenames : list string) :
  forallb (fun f => accessible (fs f)) filenames = true ->
  (forall f v, In f filenames -> fs f = Decodes v -> is_dict v = true) ->
  forall acc, is_dict acc = true ->
    exists j, Legacy.load_file_loop fs filenames acc = Ok (VDict j).
Proof.
  induction filenames as [|f rest IH]; intros Ha H acc Hacc.
  - destruct acc; try discriminate. cbn. eauto.
  - cbn [forallb] in Ha. apply andb_true_iff in Ha as [Hf Hrest].
    cbn [Legacy.load_file_loop].
    assert (Hrest' : forall f' v, In f' rest -> fs f' = Decodes v ->
                                  is_dict v = true)
      by (intros; eapply H; [right|]; eauto).
    destruct (fs f) as [| | | |v] eqn:E; try discriminate; auto.
    apply IH; auto. eapply H; [now left | exact E].
Qed.

Lemma legacy_file_loop_ok (A : Type) (fs : string -> file_state A)
    (filenames : list string) :
  forallb (fun f => accessible (fs f)) filenames = true ->
  forall acc, exists t, Legacy.load_file_loop fs filenames acc = Ok t.
Proof.
  induction filenames as [|f rest IH]; intros Ha acc; [now exists acc|].
  cbn [forallb] in Ha. apply andb_true_iff in Ha as [Hf Hrest].
  cbn [Legacy.load_file_loop].
  destruct (fs f); try discriminate; auto.
Qed.

Lemma legacy_env_loop_ok (prefix_upper : string)
    (environ : list (string * string)) (ms : list ConfigAttrMetadata) :
  forall cfg,
  exists d,
    for_each (Legacy.env_step prefix_upper environ "__") ms cfg = Ok d.
Proof.
  induction ms as [|m ms IH]; intros cfg; [now exists cfg|].
  cbn [for_each]. rewrite legacy_env_step. unfold env_step.
  destruct (Legacy.is_scalar_type (type m)); [|cbn [bind]; apply IH].
  destruct (aget _ environ).
  - rewrite add_fullname_ok. cbn [bind]. apply IH.
  - cbn [bind]. apply IH.
Qed.

(** X28: the older [load] returns, with an instance or with [None], whenever
    the embedded data is a mapping (as its default, the empty mapping, is),
    every listed path can be examined, every JSON file that decodes holds
    an object, the classes can be ranked below the recursion limit, and the
    validator answers the merged mapping with an instance or with errors
    that are each located at a field; files that cannot be opened and
    malformed files do not stop it, nor does any annotation. *)
Theorem legacy_load_returns
    (py_int py_float : string -> option Z)
    (w : world) (cls : string) (a : load_args) (st : class_state)
    (d : dict) (rank : string -> nat) :
  data a = VDict d ->
  (forall fl, toml_files a = Some fl ->
     forallb (fun f => accessible (toml_fs w f)) fl = true) ->
  (forall fl, json_files a = Some fl ->
     forallb (fun f => accessible (json_fs w f)) fl = true) ->
  (forall fl f v, json_files a = Some fl -> In f fl ->
     json_fs w f = Decodes v -> is_dict v = true) ->
  (forall c c', follows (classes w) c c' -> rank c' < rank c) ->
  rank cls < recursion_limit w ->
  (forall merged, answers (construct w cls merged)) ->
  exists r st', legacy_load py_int py_float w cls a st = Ok (r, st').
Proof.
  intros Hd Hta Hja Hj Hrank Hlim Hans.
  destruct (walk_ranked _ _ Hrank _ cls "" Hlim) as [ms Hms].
  fold (get_metadata (recursion_limit w) (classes w) cls) in Hms.
  assert (Htoml : exists t,
             match nonempty (toml_files a) with
             | Some fl => Legacy._load_toml (toml_fs w) fl
             | None => Ok []
             end = Ok t).
  { destruct (toml_files a) as [[|f fl]|] eqn:E; cbn [nonempty]; eauto.
    unfold Legacy._load_toml. apply legacy_file_loop_ok. now apply Hta. }
  assert (Hjson : exists j,
             match nonempty (json_files a) with
             | Some fl => Legacy._load_json (json_fs w) fl
             | None => Ok (VDict [])
             end = Ok (VDict j)).
  { destruct (json_files a) as [[|f fl]|] eqn:E; cbn [nonempty]; eauto.
    unfold Legacy._load_json. apply legacy_file_loop_object; auto.
    intros f' v Hin. now apply (Hj (f :: fl)). }
  assert (Hcli : exists c,
             (if load_cli a
              then Legacy._load_cli py_int py_float (recursion_limit w)
                     (classes w) cls (sys_argv w) (prefix a) field_seperator
              else Ok []) = Ok c).
  { destruct (load_cli a); eauto. unfold Legacy._load_cli, Legacy.load_cli_run.
    rewrite Hms. cbn [bind]. unfold field_seperator.
    match goal with
    | |- context [Legacy.cli_loop _ _ ?f ?p "__" ?l ?s] =>
        destruct (legacy_cli_loop_total py_int py_float f p (List.length l)
                    l s (le_n _)) as (r & Hr & _)
    end.
    rewrite Hr. cbn [bind]. eauto. }
  assert (Henv : exists e,
             (if load_env a
              then Legacy._load_env (recursion_limit w) (classes w) cls
                     (os_environ w) (prefix a) field_seperator
              else Ok []) = Ok e).
  { destruct (load_env a); eauto. unfold Legacy._load_env.
    rewrite Hms. cbn [bind]. apply legacy_env_loop_ok. }
  destruct Htoml as [t Htoml]. destruct Hjson as [j Hjson].
  destruct Hcli as [c Hcli]. destruct Henv as [e Henv].
  unfold legacy_load. rewrite Htoml. cbn [bind]. rewrite Hjson. cbn [bind].
  rewrite Hcli. cbn [bind]. rewrite Henv.
  cbn [bind]. rewrite Hd. unfold merged_config, _deep_merge_obj. cbn [bind].
  now apply finish_load_ok with (rank := rank).
Qed.

Lemma legacy_load_returns_witness :
  exists r st',
    legacy_load (fun _ => None) (fun _ => None)
      (mkWorld demo_schema ["main.py"; "--tsc_port"; "x"] []
         (fun _ => Malformed) (fun _ => Malformed)
         (validate demo_schema) 100)
      "AppConfig" legacy_default_args [] = Ok (r, st').
Proof.
  apply (legacy_load_returns (fun _ => None) (fun _ => None)
           (mkWorld demo_schema ["main.py"; "--tsc_port"; "x"] []
              (fun _ => Malformed) (fun _ => Malformed)
              (validate demo_schema) 100)
           "AppConfig" legacy_default_args [] []
           (fun c => if String.eqb c "AppConfig" then 1 else 0)).
  - reflexivity.
  - intros fl [= <-]. reflexivity.
  - intros fl [= <-]. reflexivity.
  - intros fl f v [= <-] Hin. destruct Hin.
  - exact demo_rank_decreases.
  - cbn. lia.
  - intros merged. apply validate_answers.
Defined.

Lemma add_then_lookup_witness :
  exists d',
    _add_fullname_as_nested_dict [("user", VStr "old")] "user__name"
      (VStr "x") "__" = Ok d' /\
    lookup_path ["user"; "name"] d' = Some (VStr "x").
Proof.
  destruct (add_then_lookup [("user", VStr "old")] "user__name" (VStr "x"))
    as (d' & Hd & Hl & _).
  exists d'. split; [exact Hd | exact Hl].
Defined.
